(** * diff_patch: a directory differ and patch applier (src/diff.py)

    A shallow embedding of [diff], [diff_files], [scan_dir],
    [find_next_matching_block], [create_missing_dirs], [delete_extra_files],
    [apply_patch] and [main], together with the properties of the program
    that the specification talks about.

    Modelling choices.
    - A byte string is a [list byte].
    - A directory is an association list in [os.scandir] order.  Python's
      [set] iterates in an unspecified order; a set of names is modelled as a
      duplicate-free list in scan order, and no statement below depends on
      the relative order of different names.
    - The file system is a finite map from root paths to directory listings,
      so that [apply_patch(patch, d, d)] really aliases the old and the
      target directory.  The roots are directories none of which lies
      inside another.  A path below a root is the name of one of its
      entries: statements about patches that [diff] did not produce say so
      with [entry_name] or [entry_names].
    - A symbolic link carries what it leads to; a link without a target and
      a link on a loop of links are told apart, because [os.scandir] skips
      the first and raises on the second.  Other failures of [os.stat]
      (permissions, a target path that runs through a regular file) are
      not modelled.
    - Text is read with the UTF-8 codec and universal newlines.
    - The [print] calls are left out: standard output is not part of the
      world.
    - Exceptions are values of [exn]; an effectful function returns either
      [Done] or [Raised], in both cases with the world it leaves behind.
    - Every successful mutating system call is appended to a trace.
    - The two [while] loops of [diff] run on a step budget computed from the
      file sizes; [find_loop_budget] and [compare_loop_budget] show that the
      budget is never exhausted. *)

From Stdlib.Strings Require Import String Ascii Byte.
From Stdlib Require Import Bool Arith ZArith Lia List.
Import ListNotations.
Local Open Scope string_scope.
Local Open Scope list_scope.

Set Implicit Arguments.
Set Warnings "-register-all".

(** ** Byte strings *)

Definition bytes := list byte.

Fixpoint bytes_eqb (a b : bytes) : bool :=
  match a, b with
  | [], [] => true
  | x :: a', y :: b' => Byte.eqb x y && bytes_eqb a' b'
  | _, _ => false
  end.

(** Python truthiness of a [bytes] object. *)
Definition truthy (b : bytes) : bool :=
  match b with [] => false | _ :: _ => true end.

(** ** The patch data model (lines 13-38) *)

Definition BLOCK_SIZE : nat := 8.

Inductive OperationType := DATA | BLOCK_RANGE | SYMLINK | DELETE | MKDIR.

Record Operation := mkOperation {
  op_type : OperationType;
  file_index : Z;
  block_index : Z;
  block_span : Z;
  data : bytes;
  target_path : string
}.

(** The constructor call [Operation(op_type, ...)] with its defaults. *)
Definition Operation_ (t : OperationType) (bi bs : Z) (d : bytes)
  (p : string) : Operation :=
  mkOperation t 0 bi bs d p.

Record Patch := mkPatch {
  old_dirs : list string;
  new_dirs : list string;
  deleted_files : list string;
  extra_files : list string;
  operations : list Operation
}.

(** ** Exceptions *)

Inductive exn :=
| FileNotFoundError
| IsADirectoryError
| FileExistsError
| OSError
| ValueError
| UnicodeDecodeError
| OverflowError
| PatchApplyError
| BudgetExhausted.

Inductive result (A : Type) :=
| Ok (a : A)
| Err (e : exn).
Arguments Err {A} e.

(** ** Text files *)

Definition byte_in (lo hi : N) (x : byte) : bool :=
  ((lo <=? Byte.to_N x) && (Byte.to_N x <=? hi))%N.

(** The second byte of a three-byte and of a four-byte sequence. *)
Definition second_of_three (x y : byte) : bool :=
  if byte_in 224 224 x then byte_in 160 191 y
  else if byte_in 237 237 x then byte_in 128 159 y
  else byte_in 128 191 y.

Definition second_of_four (x y : byte) : bool :=
  if byte_in 240 240 x then byte_in 144 191 y
  else if byte_in 244 244 x then byte_in 128 143 y
  else byte_in 128 191 y.

(** Well-formed UTF-8: what the strict [utf-8] codec accepts (no overlong
    form, no surrogate, nothing above U+10FFFF, no truncated sequence). *)
Fixpoint utf8_valid (b : bytes) : bool :=
  match b with
  | [] => true
  | x :: r1 =>
      if byte_in 0 127 x then utf8_valid r1
      else
        match r1 with
        | [] => false
        | y :: r2 =>
            if byte_in 194 223 x then byte_in 128 191 y && utf8_valid r2
            else
              match r2 with
              | [] => false
              | z :: r3 =>
                  if byte_in 224 239 x then
                    second_of_three x y && byte_in 128 191 z && utf8_valid r3
                  else
                    match r3 with
                    | [] => false
                    | u :: r4 =>
                        byte_in 240 244 x && second_of_four x y
                        && byte_in 128 191 z && byte_in 128 191 u
                        && utf8_valid r4
                    end
              end
        end
  end.

(** Universal newlines: [\r\n] and a lone [\r] are read as [\n]. *)
Fixpoint universal_newlines (b : bytes) : bytes :=
  match b with
  | [] => []
  | x :: r =>
      if Byte.eqb x x0d then
        match r with
        | y :: r' =>
            if Byte.eqb y x0a then x0a :: universal_newlines r'
            else x0a :: universal_newlines r
        | [] => [x0a]
        end
      else x :: universal_newlines r
  end.

(** [open(path, 'r').read()]: the text of a file, with the UTF-8 codec
    (the default of a POSIX platform) and universal newlines.  The text is
    represented by its UTF-8 encoding. *)
Definition decode_text (b : bytes) : result string :=
  if utf8_valid b then Ok (string_of_list_byte (universal_newlines b))
  else Err UnicodeDecodeError.

(** ** Directory trees *)

(** [Link t (Some n)] is a symbolic link that leads to [n], [Link t None]
    a link whose target does not exist, [Loop t] a link on a loop of links,
    and [Special] a device, FIFO or socket. *)
Inductive node :=
| Reg (content : bytes)
| Directory (children : list (string * node))
| Link (link_target : string) (dest : option node)
| Loop (link_target : string)
| Special.

Abbreviation tree := (list (string * node)).

(** What [os.stat] sees when it succeeds: symbolic links are followed. *)
Fixpoint resolve (n : node) : option node :=
  match n with
  | Link _ (Some n') => resolve n'
  | Link _ None => None
  | Loop _ => None
  | _ => Some n
  end.

(** [os.stat] fails with another error than [FileNotFoundError]: following
    the links ends on a loop ([ELOOP]). *)
Fixpoint stat_fails (n : node) : bool :=
  match n with
  | Link _ (Some n') => stat_fails n'
  | Loop _ => true
  | _ => false
  end.

Definition node_is_file (n : node) : bool :=
  match resolve n with Some (Reg _) => true | _ => false end.

Definition node_is_dir (n : node) : bool :=
  match resolve n with Some (Directory _) => true | _ => false end.

Definition node_is_link (n : node) : bool :=
  match n with Link _ _ | Loop _ => true | _ => false end.

(** [entry.is_dir()] and [entry.is_file()] of an [os.DirEntry]: links are
    followed, a missing target gives [False], and any other failure of
    [os.stat] is raised. *)
Definition entry_is_dir (n : node) : result bool :=
  if stat_fails n then Err OSError else Ok (node_is_dir n).

Definition entry_is_file (n : node) : result bool :=
  if stat_fails n then Err OSError else Ok (node_is_file n).

(** Directory listings and the table of roots are association lists keyed
    by name. *)
Section Assoc.
Variable V : Type.

Fixpoint lookup (name : string) (t : list (string * V)) : option V :=
  match t with
  | [] => None
  | (k, v) :: t' => if String.eqb k name then Some v else lookup name t'
  end.

Definition remove_entry (name : string) (t : list (string * V))
  : list (string * V) :=
  filter (fun e => negb (String.eqb (fst e) name)) t.

Fixpoint set_entry (name : string) (v : V) (t : list (string * V))
  : list (string * V) :=
  match t with
  | [] => [(name, v)]
  | (k, u) :: t' =>
      if String.eqb k name then (k, v) :: t'
      else (k, u) :: set_entry name v t'
  end.
End Assoc.

(** [os.path.islink], [os.path.isdir], [os.path.isfile] on a path that may
    not exist; a failure of [os.stat] reads as [False]. *)
Definition islink (o : option node) : bool :=
  match o with Some n => node_is_link n | None => false end.
Definition isdir (o : option node) : bool :=
  match o with Some n => node_is_dir n | None => false end.
Definition isfile (o : option node) : bool :=
  match o with Some n => node_is_file n | None => false end.

(** [open(path, 'rb')] followed by reads: the bytes behind a path. *)
Definition open_read (o : option node) : result bytes :=
  match o with
  | None => Err FileNotFoundError
  | Some n =>
      match resolve n with
      | Some (Reg b) => Ok b
      | Some (Directory _) => Err IsADirectoryError
      | Some _ => Err OSError
      | None => if stat_fails n then Err OSError else Err FileNotFoundError
      end
  end.

(** ** File objects *)

Record handle := mkHandle { contents : bytes; pos : nat }.

Definition open_handle (b : bytes) : handle := mkHandle b 0.

(** [f.read(n)] *)
Definition read (n : nat) (f : handle) : bytes * handle :=
  let chunk := firstn n (skipn (pos f) (contents f)) in
  (chunk, mkHandle (contents f) (pos f + length chunk)).

(** [f.seek(off)] *)
Definition seek (off : nat) (f : handle) : handle := mkHandle (contents f) off.

(** [f.tell()] *)
Definition tell (f : handle) : nat := pos f.

Definition remaining (f : handle) : nat :=
  length (contents f) - pos f.

(** ** Sets of names *)

Definition mem (x : string) (l : list string) : bool :=
  existsb (String.eqb x) l.

Fixpoint set_of (l : list string) : list string :=
  match l with
  | [] => []
  | x :: l' => if mem x l' then set_of l' else x :: set_of l'
  end.

Definition set_minus (a b : list string) : list string :=
  filter (fun x => negb (mem x b)) (set_of a).

Definition set_inter (a b : list string) : list string :=
  filter (fun x => mem x b) (set_of a).

(** ** [scan_dir] (lines 226-234) *)

(** The loop over [os.scandir(dir_path)]. *)
Fixpoint scan_entries (t : tree) : result (list string * list string) :=
  match t with
  | [] => Ok ([], [])
  | (name, n) :: t' =>
      match entry_is_dir n with
      | Err e => Err e
      | Ok true =>
          match scan_entries t' with
          | Ok (dirs, files) => Ok (name :: dirs, files)
          | Err e => Err e
          end
      | Ok false =>
          match entry_is_file n with
          | Err e => Err e
          | Ok true =>
              match scan_entries t' with
              | Ok (dirs, files) => Ok (dirs, name :: files)
              | Err e => Err e
              end
          | Ok false => scan_entries t'
          end
      end
  end.

Abbreviation fs := (list (string * tree)).

Definition scan_dir (dir_path : string) (w : fs)
  : result (list string * list string) :=
  match lookup dir_path w with
  | None => Err FileNotFoundError
  | Some t => scan_entries t
  end.

(** [os.path.join(root, name)] looked up in the file system, for an entry
    name [name]. *)
Definition at_path (root name : string) (w : fs) : option node :=
  match lookup root w with
  | None => None
  | Some t => lookup name t
  end.

(** ** [find_next_matching_block] (lines 281-287) *)

Fixpoint find_loop (budget : nat) (old_chunk new_chunk : bytes)
  (new_file : handle) : option (option bytes * handle) :=
  match budget with
  | 0 => None
  | S budget' =>
      if truthy new_chunk then
        if bytes_eqb old_chunk new_chunk then Some (Some new_chunk, new_file)
        else
          let (c, f) := read BLOCK_SIZE new_file in
          find_loop budget' old_chunk c f
      else Some (None, new_file)
  end.

Definition find_next_matching_block (old_chunk : bytes) (new_file : handle)
  : option (option bytes * handle) :=
  let (c, f) := read BLOCK_SIZE new_file in
  find_loop (remaining new_file + 2) old_chunk c f.

(** ** [diff] (lines 145-223) *)

(** Lines 158-159. *)
Definition diff_deleted (deleted : list string) : list Operation :=
  map (fun file => Operation_ DELETE 0 0 [] file) deleted.

(** Lines 162-177: the body of the loop over [extra_files]. *)
Definition diff_extra_file (new_dir : string) (w : fs) (file : string)
  : result Operation :=
  let file_path := at_path new_dir file w in
  if islink file_path then
    match open_read file_path with
    | Ok b =>
        match decode_text b with
        | Ok target_path => Ok (Operation_ SYMLINK 0 0 [] target_path)
        | Err e => Err e
        end
    | Err e => Err e
    end
  else if isdir file_path then
    Ok (Operation_ MKDIR 0 0 [] file)
  else
    match open_read file_path with
    | Ok b => Ok (Operation_ DATA 0 0 b file)
    | Err e => Err e
    end.

(** Lines 202-221: the [while ... else] loop over the chunks of a path that
    is a regular file in both trees.  The result is the list of operations
    the loop appends. *)
Fixpoint compare_loop (budget : nat) (file : string)
  (old_chunk new_chunk : bytes) (old_file new_file : handle)
  : option (list Operation) :=
  match budget with
  | 0 => None
  | S budget' =>
      if truthy old_chunk && truthy new_chunk then
        if negb (bytes_eqb old_chunk new_chunk) then
          match find_next_matching_block old_chunk new_file with
          | None => None
          | Some (matching_block, new_file1) =>
              match matching_block with
              | Some mb =>
                  if truthy mb then
                    let bi := (Z.of_nat (tell new_file1)
                               / Z.of_nat BLOCK_SIZE - 1)%Z in
                    let bs := (Z.of_nat (length mb)
                               / Z.of_nat BLOCK_SIZE)%Z in
                    let op := Operation_ BLOCK_RANGE bi bs [] file in
                    (* new_chunk = matching_block + new_file.read(...) *)
                    let (_, new_file2) := read BLOCK_SIZE new_file1 in
                    let (oc, old_file') := read BLOCK_SIZE old_file in
                    let (nc, new_file3) := read BLOCK_SIZE new_file2 in
                    match compare_loop budget' file oc nc old_file' new_file3
                    with
                    | Some ops => Some (op :: ops)
                    | None => None
                    end
                  else Some [Operation_ DATA 0 0 new_chunk file]
              | None => Some [Operation_ DATA 0 0 new_chunk file]
              end
          end
        else
          let (oc, old_file') := read BLOCK_SIZE old_file in
          let (nc, new_file') := read BLOCK_SIZE new_file in
          compare_loop budget' file oc nc old_file' new_file'
      else
        (* the [else] clause of the [while] *)
        if negb (truthy old_chunk) && truthy new_chunk
        then Some [Operation_ DATA 0 0 new_chunk file]
        else Some []
  end.

(** Lines 194-221. *)
Definition compare_files (file : string) (old_bytes new_bytes : bytes)
  : option (list Operation) :=
  let old_file := open_handle old_bytes in
  let new_file := open_handle new_bytes in
  let (old_chunk, old_file') := read BLOCK_SIZE old_file in
  let (new_chunk, new_file') := read BLOCK_SIZE new_file in
  compare_loop (length old_bytes + 2) file old_chunk new_chunk
    old_file' new_file'.

(** Lines 181-221: the body of the loop over [common_files]. *)
Definition diff_common_file (old_dir new_dir : string) (w : fs)
  (file : string) : result (list Operation) :=
  let old_file_path := at_path old_dir file w in
  let new_file_path := at_path new_dir file w in
  if islink old_file_path || islink new_file_path then
    match open_read new_file_path with
    | Ok b =>
        match decode_text b with
        | Ok target_path => Ok [Operation_ SYMLINK 0 0 [] target_path]
        | Err e => Err e
        end
    | Err e => Err e
    end
  else if isdir old_file_path || isdir new_file_path then
    Ok [Operation_ MKDIR 0 0 [] file]
  else
    match open_read old_file_path with
    | Err e => Err e
    | Ok ob =>
        match open_read new_file_path with
        | Err e => Err e
        | Ok nb =>
            match compare_files file ob nb with
            | Some ops => Ok ops
            | None => Err BudgetExhausted
            end
        end
    end.

Fixpoint collect (A : Type) (f : string -> result (list A))
  (l : list string) : result (list A) :=
  match l with
  | [] => Ok []
  | x :: l' =>
      match f x with
      | Err e => Err e
      | Ok a =>
          match collect f l' with
          | Err e => Err e
          | Ok r => Ok (a ++ r)
          end
      end
  end.

Definition diff (old_dir new_dir : string) (w : fs) : result Patch :=
  match scan_dir old_dir w with
  | Err e => Err e
  | Ok (old_dirs, old_files) =>
      match scan_dir new_dir w with
      | Err e => Err e
      | Ok (new_dirs, new_files) =>
          let deleted_files := set_minus old_files new_files in
          let extra_files := set_minus new_files old_files in
          let ops1 := diff_deleted deleted_files in
          match collect
                  (fun file =>
                     match diff_extra_file new_dir w file with
                     | Ok op => Ok [op]
                     | Err e => Err e
                     end) extra_files with
          | Err e => Err e
          | Ok ops2 =>
              let common_files := set_inter old_files new_files in
              match collect (diff_common_file old_dir new_dir w) common_files
              with
              | Err e => Err e
              | Ok ops3 =>
                  Ok (mkPatch old_dirs new_dirs deleted_files extra_files
                        (ops1 ++ ops2 ++ ops3))
              end
          end
      end
  end.

(** ** The world of [apply_patch]: file system, exceptions, trace *)

Inductive event :=
| EMkdtemp (dir : string)
| EMakedirs (root name : string)
| EWrite (root name : string) (written : bytes)
| ERemove (root name : string)
| ERmdir (root name : string)
| ERmtree (root : string)
| EMove (src dst : string).

Record world := mkWorld { w_fs : fs; w_trace : list event }.

Inductive outcome (A : Type) :=
| Done (a : A) (w : world)
| Raised (e : exn) (w : world).
Arguments Raised {A} e w.

Definition M (A : Type) := world -> outcome A.

Definition ret {A : Type} (a : A) : M A := fun w => Done a w.

Definition bind {A C : Type} (m : M A) (k : A -> M C) : M C :=
  fun w =>
    match m w with
    | Done a w' => k a w'
    | Raised e w' => Raised e w'
    end.

Definition raise {A : Type} (e : exn) : M A := fun w => Raised e w.

Notation "x <- m ;; k" := (bind m (fun x => k))
  (at level 61, m at next level, right associativity).
Notation "m ;;; k" := (bind m (fun _ => k))
  (at level 61, right associativity).

(** [for x in l: body(x)] *)
Fixpoint for_each {A : Type} (l : list A) (body : A -> M unit) : M unit :=
  match l with
  | [] => ret tt
  | x :: l' => body x ;;; for_each l' body
  end.

Definition emit (e : event) (f : fs) : M unit :=
  fun w => Done tt (mkWorld f (w_trace w ++ [e])).

(** [tempfile.mkdtemp()]: the candidate name is an argument of the model;
    a name that is taken is refused, as [mkdtemp] does when it runs out of
    candidates. *)
Definition mkdtemp (dir : string) : M unit :=
  fun w =>
    match lookup dir (w_fs w) with
    | Some _ => Raised FileExistsError w
    | None => emit (EMkdtemp dir) (set_entry dir [] (w_fs w)) w
    end.

(** [os.makedirs(os.path.join(root, name), exist_ok=True)], for an entry
    name [name]. *)
Definition makedirs (root name : string) : M unit :=
  fun w =>
    match lookup root (w_fs w) with
    | None =>
        emit (EMakedirs root name)
          (set_entry root [(name, Directory [])] (w_fs w)) w
    | Some t =>
        match lookup name t with
        | None =>
            emit (EMakedirs root name)
              (set_entry root (t ++ [(name, Directory [])]) (w_fs w)) w
        | Some n =>
            if node_is_dir n then Done tt w else Raised FileExistsError w
        end
    end.

(** What [open(path, 'wb')] and [f.write(b)] leave at an existing entry. *)
Fixpoint write_through (n : node) (b : bytes) : result node :=
  match n with
  | Reg _ => Ok (Reg b)
  | Directory _ => Err IsADirectoryError
  | Link t (Some n') =>
      match write_through n' b with
      | Ok m => Ok (Link t (Some m))
      | Err e => Err e
      end
  | Link t None => Ok (Link t (Some (Reg b)))
  | Loop _ => Err OSError
  | Special => Err OSError
  end.

(** [with open(os.path.join(root, name), 'wb') as f: f.write(b)], for an
    entry name [name]. *)
Definition write_file (root name : string) (b : bytes) : M unit :=
  fun w =>
    match lookup root (w_fs w) with
    | None => Raised FileNotFoundError w
    | Some t =>
        match lookup name t with
        | None =>
            emit (EWrite root name b)
              (set_entry root (t ++ [(name, Reg b)]) (w_fs w)) w
        | Some n =>
            match write_through n b with
            | Ok m =>
                emit (EWrite root name b)
                  (set_entry root (set_entry name m t) (w_fs w)) w
            | Err e => Raised e w
            end
        end
    end.

(** An integer that fits a signed 64-bit machine word. *)
Definition fits_word (z : Z) : bool :=
  ((- 2 ^ 63 <=? z) && (z <? 2 ^ 63))%Z.

(** [with open(path, 'rb') as f: f.seek(off); data = f.read(n)], for an
    offset and a size that are multiples of [BLOCK_SIZE].  [seek] refuses
    an offset that does not fit the offset type and [lseek] a negative
    one; [read] refuses a size that does not fit the index type and a
    negative one.  An offset that the file system refuses and a size that
    cannot be allocated are not modelled. *)
Definition read_range (root name : string) (off n : Z) : M bytes :=
  fun w =>
    match open_read (at_path root name (w_fs w)) with
    | Err e => Raised e w
    | Ok b =>
        if negb (fits_word off) then Raised ValueError w
        else if (off <? 0)%Z then Raised OSError w
        else if negb (fits_word n) then Raised OverflowError w
        else if (n <? 0)%Z then Raised ValueError w
        else
          Done (fst (read (Z.to_nat n) (seek (Z.to_nat off) (open_handle b)))) w
    end.

(** ** [create_missing_dirs] (lines 55-58) *)

Definition create_missing_dirs (patch : Patch) (staging_dir : string)
  : M unit :=
  for_each (new_dirs patch) (fun dir_path => makedirs staging_dir dir_path).

(** ** The operation loop of [apply_patch] (lines 257-274) *)

Definition apply_operation (old_dir staging_dir : string)
  (operation : Operation) : M unit :=
  match op_type operation with
  | DATA => write_file staging_dir (target_path operation) (data operation)
  | BLOCK_RANGE =>
      d <- read_range old_dir (target_path operation)
             (block_index operation * Z.of_nat BLOCK_SIZE)
             (block_span operation * Z.of_nat BLOCK_SIZE) ;;
      write_file staging_dir (target_path operation) d
  | _ => ret tt
  end.

Definition apply_operations (patch : Patch) (old_dir staging_dir : string)
  : M unit :=
  for_each (operations patch) (apply_operation old_dir staging_dir).

(** ** [delete_extra_files] (lines 82-89) *)

(** Lines 85-89: the body of the loop, for an entry name [file]. *)
Definition delete_extra_file (new_dir file : string) : M unit :=
  fun w =>
    let file_path := at_path new_dir file (w_fs w) in
    match lookup new_dir (w_fs w) with
    | None => Done tt w
    | Some t =>
        if isfile file_path || islink file_path then
          emit (ERemove new_dir file)
            (set_entry new_dir (remove_entry file t) (w_fs w)) w
        else if isdir file_path then
          match file_path with
          | Some (Directory []) =>
              emit (ERmdir new_dir file)
                (set_entry new_dir (remove_entry file t) (w_fs w)) w
          | _ => Raised OSError w
          end
        else Done tt w
    end.

Definition delete_extra_files (patch : Patch) (new_dir : string) : M unit :=
  for_each (extra_files patch) (delete_extra_file new_dir).

(** ** [shutil.rmtree] and [shutil.move] *)

Definition rmtree (dir : string) : M unit :=
  fun w =>
    match lookup dir (w_fs w) with
    | None => Raised FileNotFoundError w
    | Some _ => emit (ERmtree dir) (remove_entry dir (w_fs w)) w
    end.

(** [shutil.move(src, dst)] for a destination that does not exist, which is
    a rename.  An existing destination raises: moving a directory into
    another one needs nested roots, which the model does not have. *)
Definition move (src dst : string) : M unit :=
  fun w =>
    match lookup src (w_fs w) with
    | None => Raised FileNotFoundError w
    | Some t =>
        match lookup dst (w_fs w) with
        | Some _ => Raised FileExistsError w
        | None =>
            emit (EMove src dst) (set_entry dst t (remove_entry src (w_fs w))) w
        end
    end.

(** ** [apply_patch] (lines 247-279) *)

Definition apply_patch (patch : Patch) (old_dir new_dir : string)
  (staging_dir : string) : M unit :=
  mkdtemp staging_dir ;;;
  create_missing_dirs patch staging_dir ;;;
  apply_operations patch old_dir staging_dir ;;;
  delete_extra_files patch new_dir ;;;
  rmtree new_dir ;;;
  move staging_dir new_dir.

(** * Vocabulary of the statements *)

(** The operations [apply_patch] acts on. *)
Definition writes (op : Operation) : bool :=
  match op_type op with
  | DATA | BLOCK_RANGE => true
  | _ => false
  end.

(** The operations of a patch that write to [file]. *)
Definition file_ops (file : string) (ops : list Operation) : list Operation :=
  filter (fun op => writes op && String.eqb (target_path op) file) ops.

(** The [BLOCK_SIZE] bytes of [b] that start at offset [p]. *)
Definition chunk_at (b : bytes) (p : nat) : bytes :=
  firstn BLOCK_SIZE (skipn p b).

(** The bytes an operation contributes to its target when it is applied
    against the old content [old_bytes] of that target. *)
Definition op_output (old_bytes : bytes) (op : Operation) : bytes :=
  match op_type op with
  | DATA => data op
  | BLOCK_RANGE =>
      firstn (Z.to_nat (block_span op * Z.of_nat BLOCK_SIZE))
        (skipn (Z.to_nat (block_index op * Z.of_nat BLOCK_SIZE)) old_bytes)
  | _ => []
  end.

(** The outputs of a list of operations, one appended after the other. *)
Definition reconstruct (old_bytes : bytes) (ops : list Operation) : bytes :=
  concat (map (op_output old_bytes) ops).

(** A name of a directory entry: not empty, not [.] or [..], at most 255
    bytes, without [/] and without the NUL byte.  For such a name
    [os.path.join(root, name)] is the entry [name] of the directory
    [root]; any other path leads elsewhere or is refused. *)
Definition entry_name (s : string) : bool :=
  negb (String.eqb s "") && negb (String.eqb s ".")
  && negb (String.eqb s "..") && Nat.leb (String.length s) 255
  && forallb
       (fun c => negb (Ascii.eqb c "/"%char) && negb (Ascii.eqb c "000"%char))
       (list_ascii_of_string s).

(** The paths that [apply_patch] joins to the old, the staging or the
    target directory. *)
Definition patch_paths (p : Patch) : list string :=
  new_dirs p ++ map target_path (filter writes (operations p))
  ++ extra_files p.

Definition entry_names (p : Patch) : Prop :=
  forallb entry_name (patch_paths p) = true.

(** The byte strings written to [root/name], in the order of the trace. *)
Fixpoint writes_to (root name : string) (evs : list event) : list bytes :=
  match evs with
  | [] => []
  | EWrite r n b :: evs' =>
      if String.eqb r root && String.eqb n name
      then b :: writes_to root name evs'
      else writes_to root name evs'
  | _ :: evs' => writes_to root name evs'
  end.

(** An offset or a size that every file system and allocator accepts. *)
Definition portable (z : Z) : Prop := (0 <= z < 2 ^ 31)%Z.

(** Every regular file of the directory is smaller than [2^31] bytes. *)
Definition small_files (t : tree) : Prop :=
  forallb (fun e => match snd e with
                    | Reg b => (Z.of_nat (length b) <? 2 ^ 31)%Z
                    | _ => true
                    end) t = true.

(** A directory as the file system holds it: no name occurs twice. *)
Definition well_formed (t : tree) : Prop := NoDup (map fst t).

(** The directory names and the file names of a directory, in scan
    order: what [scan_dir] returns when it returns. *)
Fixpoint listing (t : tree) : list string * list string :=
  match t with
  | [] => ([], [])
  | (name, n) :: t' =>
      let (dirs, files) := listing t' in
      if node_is_dir n then (name :: dirs, files)
      else if node_is_file n then (dirs, name :: files)
      else (dirs, files)
  end.

(** Every entry of the directory can be examined: no link is on a loop. *)
Definition scannable (t : tree) : Prop :=
  forallb (fun e => negb (stat_fails (snd e))) t = true.

(** No symbolic link of the directory leads to a regular file. *)
Definition no_file_links (t : tree) : Prop :=
  forallb (fun e => negb (node_is_link (snd e) && node_is_file (snd e))) t
  = true.

Definition with_operations (p : Patch) (ops : list Operation) : Patch :=
  mkPatch (old_dirs p) (new_dirs p) (deleted_files p) (extra_files p) ops.

(** A node with everything below it cut off: directories lose their
    children, also behind symbolic links. *)
Fixpoint prune (n : node) : node :=
  match n with
  | Directory _ => Directory []
  | Link t (Some n') => Link t (Some (prune n'))
  | _ => n
  end.

Definition prune_tree (t : tree) : tree :=
  map (fun e => (fst e, prune (snd e))) t.

Definition prune_fs (w : fs) : fs :=
  map (fun e => (fst e, prune_tree (snd e))) w.

Definition world_of {A : Type} (o : outcome A) : world :=
  match o with Done _ w => w | Raised _ w => w end.

(** [touches_only root P m]: however [m] ends, every root other than
    [root] is as before, and the trace grew by events satisfying [P]. *)
Definition touches_only {A : Type} (root : string) (P : event -> Prop)
  (m : M A) : Prop :=
  forall w,
    (forall r, r <> root ->
       lookup r (w_fs (world_of (m w))) = lookup r (w_fs w)) /\
    exists evs, w_trace (world_of (m w)) = w_trace w ++ evs /\ Forall P evs.

(** The events of the staging phase. *)
Inductive staging_event (staging_dir : string) : event -> Prop :=
| se_mkdtemp : staging_event staging_dir (EMkdtemp staging_dir)
| se_makedirs name : staging_event staging_dir (EMakedirs staging_dir name)
| se_write name b : staging_event staging_dir (EWrite staging_dir name b).

(** The events of [delete_extra_files]. *)
Inductive removal_event (new_dir : string) (names : list string)
  : event -> Prop :=
| re_remove name :
    In name names -> removal_event new_dir names (ERemove new_dir name)
| re_rmdir name :
    In name names -> removal_event new_dir names (ERmdir new_dir name).

(** Lines 249-274 of [apply_patch]: everything before finalization. *)
Definition stage (patch : Patch) (old_dir staging_dir : string) : M unit :=
  mkdtemp staging_dir ;;;
  create_missing_dirs patch staging_dir ;;;
  apply_operations patch old_dir staging_dir.

Definition removable (o : option node) : bool :=
  isfile o || islink o || isdir o.

(** [never_mismatch m]: whatever [m] raises, it is not [PatchApplyError],
    the only error class the source defines. *)
Definition never_mismatch {A : Type} (m : M A) : Prop :=
  forall w e w', m w = Raised e w' -> e <> PatchApplyError.

(** * Example inputs *)

Definition B (s : string) : bytes := list_byte_of_string s.

Definition tree_with_link : tree :=
  [("l", Link "a.txt" (Some (Reg (B "zz"))))].

Definition tree_with_loop : tree :=
  [("a", Reg (B "data")); ("loop", Loop "loop")].

Definition plain_tree : tree :=
  [("a", Reg (B "0123456789")); ("d", Directory [("x", Reg (B "y"))]);
   ("p", Special)].

Definition fs_append : fs :=
  [("old", [("a", Reg (B "12345678"))]);
   ("new", [("a", Reg (B "12345678abc"))])].

Definition fs_shift : fs :=
  [("old", [("a", Reg (B "abcdefghijklmnop"))]);
   ("new", [("a", Reg (B "xabcdefghijklmnop"))])].

Definition fs_unchanged : fs :=
  [("old", [("a", Reg (B "hello"))]); ("new", [("a", Reg (B "hello"))])].

Definition fs_small : fs :=
  [("old", [("a", Reg (B "0123456789"))]); ("new", [("a", Reg (B "hello"))])].

Definition fs_deep : fs :=
  [("old", [("d", Directory [("x", Reg (B "one"))]); ("p", Special);
            ("a", Reg (B "same"))]);
   ("new", [("d", Directory [("x", Reg (B "two")); ("y", Directory [])]);
            ("a", Reg (B "same")); ("q", Link "gone" None)])].

Definition fs_flat : fs :=
  [("old", [("d", Directory []); ("p", Special); ("a", Reg (B "same"))]);
   ("new", [("d", Directory []); ("a", Reg (B "same"));
            ("q", Link "gone" None)])].

Definition patch_hello : Patch :=
  mkPatch [] ["d"] ["gone"] ["b"]
    [Operation_ DELETE 0 0 [] "gone"; Operation_ DATA 0 0 (B "hello") "b";
     Operation_ BLOCK_RANGE 0 1 [] "a"].

Definition world_hello : world :=
  mkWorld [("old", [("a", Reg (B "0123456789")); ("gone", Reg [])]);
           ("live", [("b", Reg (B "stale")); ("keep", Reg (B "k"))])] [].

Definition patch_extras : Patch := mkPatch [] [] [] ["a"; "d"] [].

Definition world_live : world :=
  mkWorld [("old", []);
           ("live", [("a", Reg (B "precious"));
                     ("d", Directory [("x", Reg (B "y"))])])] [].

Definition patch_missing : Patch :=
  mkPatch [] [] [] ["a"]
    [Operation_ DATA 0 0 (B "new") "a"; Operation_ BLOCK_RANGE 0 1 [] "nope"].

Definition patch_structural : Patch :=
  mkPatch [] [] ["gone"] ["b"; "absent"]
    [Operation_ DELETE 0 0 [] "gone"; Operation_ MKDIR 0 0 [] "dir";
     Operation_ SYMLINK 0 0 [] "text"].

Definition fs_original : fs :=
  [("old", [("a", Reg (B "AAAAAAAABBBBBBBBCCCCCCCC"))]);
   ("new", [("a", Reg (B "AAAAAAAAXXXXXXXXBBBBBBBBYYYYYYYY"))])].

Definition fs_truncated : fs :=
  [("old", [("a", Reg (B "AAAAAAAABBBBBBBBCC"))])].

Definition world_short : world :=
  mkWorld [("old", [("a", Reg (B "AAAAAAAABBBBBBBBCC"))]); ("tmp", [])] [].

Definition fs_grown : fs :=
  [("old", [("a", Reg [])]); ("new", [("a", Reg (B "123456789"))])].

(** * More of the program *)

(** ** [diff_files] (lines 112-143) *)

(** How a call of [diff_files] ends.  [find_next_matching_block] takes two
    arguments and line 129 calls it with four, which raises [TypeError]
    before anything of lines 130-142 runs. *)
Inductive diff_files_outcome :=
| Returns (ops : list Operation)
| Raises (e : exn)
| RaisesTypeError.

(** Lines 121-142: the [while old_chunk or new_chunk] loop. *)
Fixpoint diff_files_loop (budget : nat) (old_chunk new_chunk : bytes)
  (old_file new_file : handle) (block_idx : Z) (ops : list Operation)
  : option diff_files_outcome :=
  match budget with
  | 0 => None
  | S budget' =>
      if truthy old_chunk || truthy new_chunk then
        if bytes_eqb old_chunk new_chunk then
          let (oc, old_file') := read BLOCK_SIZE old_file in
          let (nc, new_file') := read BLOCK_SIZE new_file in
          diff_files_loop budget' oc nc old_file' new_file'
            (block_idx + 1)%Z ops
        else Some RaisesTypeError
      else Some (Returns ops)
  end.

Definition diff_files (old_file_path new_file_path : option node)
  : option diff_files_outcome :=
  match open_read old_file_path with
  | Err e => Some (Raises e)
  | Ok ob =>
      match open_read new_file_path with
      | Err e => Some (Raises e)
      | Ok nb =>
          let (old_chunk, old_file) := read BLOCK_SIZE (open_handle ob) in
          let (new_chunk, new_file) := read BLOCK_SIZE (open_handle nb) in
          diff_files_loop (length ob + 2) old_chunk new_chunk
            old_file new_file 0 []
      end
  end.

(** ** [main] (lines 290-312), without its [print] calls *)

Definition main_body (old_dir reference_dir destination_dir : string)
  (staging_dir : string) : M unit :=
  fun w =>
    match diff old_dir reference_dir (w_fs w) with
    | Err e => Raised e w
    | Ok patch => apply_patch patch old_dir destination_dir staging_dir w
    end.

Definition main : string -> M unit :=
  main_body "C:/Users/lion-/Documents/Python/test/oldfolder"
    "C:/Users/lion-/Documents/Python/test/referencefolder"
    "C:/Users/lion-/Documents/Python/test/newfolder".

(** ** Vocabulary of the further properties *)

(** The last operation of [ops] that writes to [name]. *)
Definition last_write (name : string) (ops : list Operation)
  : option Operation :=
  match rev (file_ops name ops) with
  | op :: _ => Some op
  | [] => None
  end.

(** The bytes a writing operation puts into its staging file when the old
    directory is the one of the file system [f]. *)
Definition written (old_dir : string) (f : fs) (op : Operation) : bytes :=
  match op_type op with
  | DATA => data op
  | BLOCK_RANGE =>
      match open_read (at_path old_dir (target_path op) f) with
      | Ok b => op_output b op
      | Err _ => []
      end
  | _ => []
  end.

(** What the staging directory holds under [name] once the directories of
    [dirs] were created and the operations [ops] applied. *)
Definition staged_entry (old_dir : string) (f : fs) (dirs : list string)
  (ops : list Operation) (name : string) : option node :=
  match last_write name ops with
  | Some op => Some (Reg (written old_dir f op))
  | None => if mem name dirs then Some (Directory []) else None
  end.

(** A node with the targets of its symbolic links forgotten. *)
Fixpoint retarget (n : node) : node :=
  match n with
  | Link _ (Some n') => Link "" (Some (retarget n'))
  | Link _ None => Link "" None
  | Loop _ => Loop ""
  | _ => n
  end.

Definition retarget_tree (t : tree) : tree :=
  map (fun e => (fst e, retarget (snd e))) t.

Definition retarget_fs (w : fs) : fs :=
  map (fun e => (fst e, retarget_tree (snd e))) w.

(** A [BLOCK_RANGE] operation that [apply_patch] can seek and read for. *)
Definition block_range_ok (op : Operation) : Prop :=
  op_type op = BLOCK_RANGE ->
  (0 <= block_index op)%Z /\ (0 <= block_span op <= 1)%Z /\ data op = [].

(** [keeps_root root m]: [m] never removes the directory [root]. *)
Definition keeps_root {A : Type} (root : string) (m : M A) : Prop :=
  forall w, lookup root (w_fs w) <> None ->
            lookup root (w_fs (world_of (m w))) <> None.

(** A non-empty directory, on which [os.rmdir] fails. *)
Definition nonempty_dir (o : option node) : bool :=
  match o with
  | Some (Directory (_ :: _)) => true
  | _ => false
  end.

(** An entry that is absent, a regular file or a directory: what the
    staging directory holds. *)
Definition plain (o : option node) : Prop :=
  match o with
  | Some (Link _ _) | Some (Loop _) | Some Special => False
  | _ => True
  end.

(** [spares a b m]: however [m] ends, every root other than [a] and [b] is
    as before. *)
Definition spares {A : Type} (a b : string) (m : M A) : Prop :=
  forall w r, r <> a -> r <> b ->
              lookup r (w_fs (world_of (m w))) = lookup r (w_fs w).

(** An operation with its block index moved [k] blocks further. *)
Definition shift_op (k : nat) (op : Operation) : Operation :=
  match op_type op with
  | BLOCK_RANGE =>
      mkOperation (op_type op) (file_index op)
        (Z.of_nat k + block_index op) (block_span op) (data op)
        (target_path op)
  | _ => op
  end.

(** A file object on [pre ++ contents f], [length pre] bytes further. *)
Definition shift_handle (pre : bytes) (f : handle) : handle :=
  mkHandle (pre ++ contents f) (length pre + pos f).

(** ** Example inputs of the further properties *)

Definition old_mixed : tree :=
  [("a", Reg (B "AAAAAAAABBBBBBBBCCCCCCCC")); ("gone", Reg (B "bye"));
   ("foo", Reg (B "f")); ("d", Directory [("x", Reg (B "y"))]);
   ("l", Link "a" (Some (Reg (B "zz"))))].

Definition new_mixed : tree :=
  [("a", Reg (B "AAAAAAAAXXXXXXXXBBBBBBBBYYYYYYYYZZ")); ("b", Reg (B "hello"));
   ("foo", Directory [("inner", Reg (B "i"))]); ("e", Directory []);
   ("l", Link "elsewhere" (Some (Reg (B "zz")))); ("p", Special)].

Definition fs_mixed : fs :=
  [("old", old_mixed); ("new", new_mixed);
   ("live", [("stale", Reg (B "s")); ("b", Reg (B "old b"))])].

Definition old_plain : tree :=
  [("a", Reg (B "AAAAAAAABBBBBBBBCCCCCCCC")); ("gone", Reg (B "bye"));
   ("d", Directory [("x", Reg (B "y"))])].

Definition new_plain : tree :=
  [("a", Reg (B "AAAAAAAAXXXXXXXXBBBBBBBBYYYYYYYYZZ")); ("b", Reg (B "hello"));
   ("e", Directory []); ("q", Link "gone" None); ("p", Special)].

Definition live_plain : tree :=
  [("stale", Reg (B "s")); ("b", Reg (B "old b"))].

Definition fs_plain : fs :=
  [("old", old_plain); ("new", new_plain); ("live", live_plain)].

Definition patch_mixed : Patch :=
  mkPatch ["d"] ["foo"; "e"] ["gone"; "foo"] ["b"]
    [Operation_ DELETE 0 0 [] "gone"; Operation_ DELETE 0 0 [] "foo";
     Operation_ DATA 0 0 (B "hello") "b"; Operation_ BLOCK_RANGE 2 1 [] "a";
     Operation_ DATA 0 0 (B "ZZ") "a"; Operation_ SYMLINK 0 0 [] "zz"].

(** * Facts about the embedding *)

Arguments read : simpl never.
Arguments BLOCK_SIZE : simpl never.
Arguments find_next_matching_block : simpl never.

(** ** Byte strings *)

Lemma bytes_eqb_eq (a b : bytes) : bytes_eqb a b = true <-> a = b.
Proof.
  revert b; induction a as [|x a IH]; intros [|y b]; simpl;
    try (split; [discriminate | discriminate]); try tauto.
  rewrite andb_true_iff, IH. split.
  - intros [H1 H2]. apply Byte.byte_dec_bl in H1. congruence.
  - intros H; inversion H; subst. split; [apply Byte.byte_dec_lb|]; reflexivity.
Qed.

Lemma bytes_eqb_refl (a : bytes) : bytes_eqb a a = true.
Proof. apply bytes_eqb_eq; reflexivity. Qed.

Lemma bytes_eqb_neq (a b : bytes) : bytes_eqb a b = false <-> a <> b.
Proof.
  split.
  - intros H E. apply bytes_eqb_eq in E. congruence.
  - intros H. destruct (bytes_eqb a b) eqn:E; [|reflexivity].
    apply bytes_eqb_eq in E. contradiction.
Qed.

Lemma truthy_length (b : bytes) : truthy b = true <-> 0 < length b.
Proof. destruct b; simpl; split; intros; try lia; try discriminate; auto. Qed.

Lemma truthy_false (b : bytes) : truthy b = false <-> b = [].
Proof. destruct b; simpl; split; intros; congruence. Qed.

(** ** Association lists *)

Section AssocFacts.
Variable V : Type.
Implicit Types (t u : list (string * V)) (k name : string) (v : V).

Lemma lookup_set_eq name v t : lookup name (set_entry name v t) = Some v.
Proof.
  induction t as [|[k u] t IH]; simpl.
  - now rewrite String.eqb_refl.
  - destruct (String.eqb k name) eqn:E; simpl; rewrite E; auto.
Qed.

Lemma lookup_set_neq k name v t :
  k <> name -> lookup k (set_entry name v t) = lookup k t.
Proof.
  intros N. induction t as [|[k' u] t IH]; simpl.
  - apply String.eqb_neq in N. rewrite String.eqb_sym. now rewrite N.
  - destruct (String.eqb k' name) eqn:E; simpl.
    + apply String.eqb_eq in E; subst k'.
      destruct (String.eqb name k) eqn:E'; auto.
      apply String.eqb_eq in E'. congruence.
    + destruct (String.eqb k' k); auto.
Qed.

Lemma lookup_remove_eq name t : lookup name (remove_entry name t) = None.
Proof.
  induction t as [|[k u] t IH]; simpl; auto.
  destruct (String.eqb k name) eqn:E; simpl; auto. now rewrite E.
Qed.

Lemma lookup_remove_neq k name t :
  k <> name -> lookup k (remove_entry name t) = lookup k t.
Proof.
  intros N. induction t as [|[k' u] t IH]; simpl; auto.
  destruct (String.eqb k' name) eqn:E; simpl.
  - apply String.eqb_eq in E; subst k'.
    apply not_eq_sym in N. apply String.eqb_neq in N. now rewrite N.
  - destruct (String.eqb k' k); auto.
Qed.

Lemma lookup_app k t u :
  lookup k (t ++ u) =
  match lookup k t with Some v => Some v | None => lookup k u end.
Proof.
  induction t as [|[k' v'] t IH]; simpl; auto.
  destruct (String.eqb k' k); auto.
Qed.

Lemma lookup_In k v t : lookup k t = Some v -> In (k, v) t.
Proof.
  induction t as [|[k' v'] t IH]; simpl; [discriminate|].
  destruct (String.eqb k' k) eqn:E.
  - apply String.eqb_eq in E. intros H; inversion H; subst; auto.
  - auto.
Qed.

Lemma lookup_None k t : lookup k t = None -> ~ In k (map fst t).
Proof.
  induction t as [|[k' v'] t IH]; simpl; [tauto|].
  destruct (String.eqb k' k) eqn:E; [discriminate|].
  apply String.eqb_neq in E. intros H [H'|H']; [congruence|].
  now apply IH.
Qed.

Lemma In_lookup k v t :
  NoDup (map fst t) -> In (k, v) t -> lookup k t = Some v.
Proof.
  induction t as [|[k' v'] t IH]; simpl; [tauto|].
  intros ND [H|H].
  - inversion H; subst. now rewrite String.eqb_refl.
  - inversion ND as [|? ? NI ND']; subst.
    destruct (String.eqb k' k) eqn:E; [|auto].
    apply String.eqb_eq in E; subst k'. exfalso. apply NI.
    change k with (fst (k, v)). now apply in_map.
Qed.
End AssocFacts.

(** ** File objects *)

Lemma read_length n f :
  length (fst (read n f)) = Nat.min n (remaining f).
Proof.
  unfold read, remaining; simpl. now rewrite length_firstn, length_skipn.
Qed.

Lemma read_remaining n f :
  remaining (snd (read n f)) = remaining f - length (fst (read n f)).
Proof.
  rewrite read_length. unfold read, remaining; simpl.
  rewrite length_firstn, length_skipn. lia.
Qed.

Lemma read_contents n f : contents (snd (read n f)) = contents f.
Proof. reflexivity. Qed.

(** ** The loops of [diff] stay within their budget *)

Lemma find_loop_budget budget old_chunk new_chunk f :
  remaining f + (if truthy new_chunk then 2 else 1) <= budget ->
  find_loop budget old_chunk new_chunk f <> None.
Proof.
  revert new_chunk f.
  induction budget as [|budget IH]; intros new_chunk f Hb.
  - destruct (truthy new_chunk); lia.
  - cbn [find_loop]. destruct (truthy new_chunk) eqn:T; [|discriminate].
    destruct (bytes_eqb old_chunk new_chunk); [discriminate|].
    destruct (read BLOCK_SIZE f) as [c g] eqn:R.
    apply IH.
    pose proof (read_remaining BLOCK_SIZE f) as Hr.
    pose proof (read_length BLOCK_SIZE f) as Hl.
    rewrite R in Hr, Hl; cbn [fst snd] in Hr, Hl; unfold BLOCK_SIZE in Hl.
    destruct (truthy c) eqn:Tc.
    + apply truthy_length in Tc. lia.
    + apply truthy_false in Tc; subst c; cbn [length] in *. lia.
Qed.

Lemma find_next_matching_block_total old_chunk new_file :
  exists r, find_next_matching_block old_chunk new_file = Some r.
Proof.
  unfold find_next_matching_block.
  destruct (read BLOCK_SIZE new_file) as [c g] eqn:R.
  destruct (find_loop (remaining new_file + 2) old_chunk c g) eqn:E; eauto.
  exfalso. revert E. apply find_loop_budget.
  pose proof (read_remaining BLOCK_SIZE new_file) as Hr.
  rewrite R in Hr; cbn [fst snd] in Hr. destruct (truthy c); lia.
Qed.

Lemma compare_loop_budget budget file old_chunk new_chunk old_file new_file :
  remaining old_file + (if truthy old_chunk then 2 else 1) <= budget ->
  compare_loop budget file old_chunk new_chunk old_file new_file <> None.
Proof.
  revert old_chunk new_chunk old_file new_file.
  induction budget as [|budget IH]; intros oc nc fo fn Hb.
  - destruct (truthy oc); lia.
  - cbn [compare_loop]. destruct (truthy oc) eqn:To; cbn [andb negb].
    2: { destruct (truthy nc); discriminate. }
    destruct (truthy nc) eqn:Tn; cbn [andb negb]; [|discriminate].
    pose proof (read_remaining BLOCK_SIZE fo) as Hr.
    pose proof (read_length BLOCK_SIZE fo) as Hl.
    assert (Hnext : forall c g, read BLOCK_SIZE fo = (c, g) ->
              remaining g + (if truthy c then 2 else 1) <= budget).
    { intros c g R. rewrite R in Hr, Hl; cbn [fst snd] in Hr, Hl; unfold BLOCK_SIZE in Hl.
      destruct (truthy c) eqn:Tc; [apply truthy_length in Tc; lia|].
      apply truthy_false in Tc; subst c; cbn [length] in *. lia. }
    destruct (negb (bytes_eqb oc nc)).
    + destruct (find_next_matching_block_total oc fn) as [[mb g] E].
      rewrite E. destruct mb as [mb|]; [|discriminate].
      destruct (truthy mb); [|discriminate].
      destruct (read BLOCK_SIZE g) as [c1 g1].
      destruct (read BLOCK_SIZE fo) as [c2 g2] eqn:R2.
      destruct (read BLOCK_SIZE g1) as [c3 g3].
      specialize (IH c2 c3 g2 g3 (Hnext _ _ eq_refl)).
      destruct (compare_loop budget file c2 c3 g2 g3); congruence.
    + destruct (read BLOCK_SIZE fo) as [c2 g2] eqn:R2.
      destruct (read BLOCK_SIZE fn) as [c3 g3].
      apply IH, (Hnext _ _ eq_refl).
Qed.

Lemma compare_files_total file old_bytes new_bytes :
  exists ops, compare_files file old_bytes new_bytes = Some ops.
Proof.
  unfold compare_files.
  destruct (read BLOCK_SIZE (open_handle old_bytes)) as [oc fo] eqn:Ro.
  destruct (read BLOCK_SIZE (open_handle new_bytes)) as [nc fn] eqn:Rn.
  destruct (compare_loop (length old_bytes + 2) file oc nc fo fn) eqn:E;
    eauto.
  exfalso. revert E. apply compare_loop_budget.
  pose proof (read_remaining BLOCK_SIZE (open_handle old_bytes)) as Hr.
  rewrite Ro in Hr; cbn [fst snd] in Hr.
  unfold remaining at 2, open_handle in Hr. cbn [contents pos] in Hr. destruct (truthy oc); lia.
Qed.

(** ** Sets of names *)

Lemma mem_In x l : mem x l = true <-> In x l.
Proof.
  unfold mem. rewrite existsb_exists. split.
  - intros [y [H1 H2]]. apply String.eqb_eq in H2. now subst.
  - intros H. exists x. split; [assumption|apply String.eqb_refl].
Qed.

Lemma mem_not_In x l : mem x l = false <-> ~ In x l.
Proof.
  rewrite <- mem_In. destruct (mem x l); split; intros; congruence.
Qed.

Lemma set_of_In x l : In x (set_of l) <-> In x l.
Proof.
  induction l as [|y l IH]; simpl; [tauto|].
  destruct (mem y l) eqn:E; simpl; rewrite IH; [|tauto].
  apply mem_In in E. split; [tauto|]. intros [H|H]; subst; auto.
Qed.

Lemma set_of_NoDup l : NoDup (set_of l).
Proof.
  induction l as [|y l IH]; simpl; [constructor|].
  destruct (mem y l) eqn:E; [assumption|].
  constructor; [|assumption]. rewrite set_of_In. now apply mem_not_In.
Qed.

Lemma set_minus_In x a b : In x (set_minus a b) <-> In x a /\ ~ In x b.
Proof.
  unfold set_minus. rewrite filter_In, set_of_In, negb_true_iff.
  now rewrite mem_not_In.
Qed.

Lemma set_inter_In x a b : In x (set_inter a b) <-> In x a /\ In x b.
Proof.
  unfold set_inter. now rewrite filter_In, set_of_In, mem_In.
Qed.

Lemma set_inter_NoDup a b : NoDup (set_inter a b).
Proof. apply NoDup_filter, set_of_NoDup. Qed.

Lemma set_minus_self a : set_minus a a = [].
Proof.
  destruct (set_minus a a) as [|x l] eqn:E; [reflexivity|].
  assert (H : In x (set_minus a a)) by (rewrite E; now left).
  apply set_minus_In in H. tauto.
Qed.

(** ** [scan_dir] *)

Lemma node_dir_not_file n : node_is_dir n = true -> node_is_file n = false.
Proof.
  unfold node_is_dir, node_is_file.
  destruct (resolve n) as [[]|]; congruence.
Qed.

Lemma scan_files_In name t :
  In name (snd (listing t)) <->
  exists n, In (name, n) t /\ node_is_file n = true.
Proof.
  induction t as [|[k m] t IH]; simpl.
  - split; [tauto|]. intros [n [[] _]].
  - destruct (listing t) as [dirs files]. simpl in IH.
    destruct (node_is_dir m) eqn:D; [|destruct (node_is_file m) eqn:F];
      simpl; rewrite IH; split.
    + intros [n [H1 H2]]. eauto.
    + intros [n [[H|H] H2]]; [|eauto].
      inversion H; subst. apply node_dir_not_file in D. congruence.
    + intros [H|[n [H1 H2]]]; [subst; eauto|eauto].
    + intros [n [[H|H] H2]]; [inversion H; subst; auto|eauto].
    + intros [n [H1 H2]]. eauto.
    + intros [n [[H|H] H2]]; [|eauto]. inversion H; subst. congruence.
Qed.

Lemma scan_dirs_In name t :
  In name (fst (listing t)) <->
  exists n, In (name, n) t /\ node_is_dir n = true.
Proof.
  induction t as [|[k m] t IH]; simpl.
  - split; [tauto|]. intros [n [[] _]].
  - destruct (listing t) as [dirs files]. simpl in IH.
    destruct (node_is_dir m) eqn:D; [|destruct (node_is_file m) eqn:F];
      simpl; rewrite IH; split.
    + intros [H|[n [H1 H2]]]; [subst; eauto|eauto].
    + intros [n [[H|H] H2]]; [inversion H; subst; auto|eauto].
    + intros [n [H1 H2]]. eauto.
    + intros [n [[H|H] H2]]; [|eauto]. inversion H; subst. congruence.
    + intros [n [H1 H2]]. eauto.
    + intros [n [[H|H] H2]]; [|eauto]. inversion H; subst. congruence.
Qed.

(** A name scanned as a file opens as a regular file, provided the listing
    has no duplicate names. *)
Lemma scanned_file_opens name t :
  NoDup (map fst t) -> In name (snd (listing t)) ->
  exists n b, lookup name t = Some n /\ resolve n = Some (Reg b).
Proof.
  intros ND H. apply scan_files_In in H. destruct H as [n [H1 H2]].
  exists n. unfold node_is_file in H2.
  destruct (resolve n) as [[b| | | |]|] eqn:R; try discriminate.
  exists b. split; [now apply In_lookup|reflexivity].
Qed.

Lemma lookup_file_scanned name t n :
  lookup name t = Some n -> node_is_file n = true ->
  In name (snd (listing t)).
Proof.
  intros H1 H2. apply scan_files_In. exists n. split; [|assumption].
  now apply lookup_In.
Qed.

Lemma scannable_cons k m t :
  scannable ((k, m) :: t) <-> stat_fails m = false /\ scannable t.
Proof.
  unfold scannable. cbn [forallb snd].
  rewrite andb_true_iff, negb_true_iff. reflexivity.
Qed.

Lemma scannable_In t name n :
  scannable t -> In (name, n) t -> stat_fails n = false.
Proof.
  unfold scannable. rewrite forallb_forall. intros H I.
  apply negb_true_iff. exact (H _ I).
Qed.

Lemma no_file_links_In t name n :
  no_file_links t -> In (name, n) t -> node_is_link n = true ->
  node_is_file n = false.
Proof.
  unfold no_file_links. rewrite forallb_forall. intros H I K.
  specialize (H _ I). cbn [snd] in H. rewrite K in H.
  now apply negb_true_iff in H.
Qed.

(** [scan_entries] returns the listing when no entry is on a loop, and
    raises [OSError] otherwise. *)
Lemma scan_entries_inv t r :
  scan_entries t = Ok r -> r = listing t /\ scannable t.
Proof.
  revert r. induction t as [|[k m] t IH]; intros r; cbn [scan_entries listing].
  - intros H; inversion H. split; reflexivity.
  - unfold entry_is_dir, entry_is_file. rewrite scannable_cons.
    destruct (stat_fails m) eqn:S; [discriminate|].
    destruct (node_is_dir m).
    + destruct (scan_entries t) as [[dirs files]|] eqn:E; [|discriminate].
      intros H; inversion H; subst. destruct (IH _ eq_refl) as [<- Sc]. auto.
    + destruct (node_is_file m).
      * destruct (scan_entries t) as [[dirs files]|] eqn:E; [|discriminate].
        intros H; inversion H; subst. destruct (IH _ eq_refl) as [<- Sc]. auto.
      * intros E. destruct (IH _ E) as [<- Sc]. destruct r. auto.
Qed.

Lemma scan_entries_listing t : scannable t -> scan_entries t = Ok (listing t).
Proof.
  induction t as [|[k m] t IH]; cbn [scan_entries listing]; [reflexivity|].
  rewrite scannable_cons. intros [S Sc].
  unfold entry_is_dir, entry_is_file. rewrite S, (IH Sc).
  destruct (listing t) as [dirs files].
  destruct (node_is_dir m); [reflexivity|].
  destruct (node_is_file m); reflexivity.
Qed.

Lemma scan_entries_raises t e :
  scan_entries t = Err e -> e = OSError /\ ~ scannable t.
Proof.
  induction t as [|[k m] t IH]; cbn [scan_entries]; [discriminate|].
  unfold entry_is_dir, entry_is_file. rewrite scannable_cons.
  destruct (stat_fails m) eqn:S.
  - intros H; inversion H. split; [reflexivity|]. intros [C _]. discriminate.
  - assert (T : scan_entries t = Err e ->
                e = OSError /\ ~ (false = false /\ scannable t)).
    { intros E. destruct (IH E) as [E1 N]. split; [assumption|]. tauto. }
    destruct (node_is_dir m).
    + destruct (scan_entries t) as [[dirs files]|] eqn:E; [discriminate|].
      intros H; inversion H; subst. now apply T.
    + destruct (node_is_file m); [|exact T].
      destruct (scan_entries t) as [[dirs files]|] eqn:E; [discriminate|].
      intros H; inversion H; subst. now apply T.
Qed.

Lemma scan_dir_inv d w r :
  scan_dir d w = Ok r ->
  exists t, lookup d w = Some t /\ r = listing t /\ scannable t.
Proof.
  unfold scan_dir. destruct (lookup d w) as [t|]; [|discriminate].
  intros H. exists t. split; [reflexivity|]. now apply scan_entries_inv.
Qed.

(** ** [collect] *)

Lemma collect_total (A : Type) (f : string -> result (list A)) l :
  (forall x, In x l -> exists a, f x = Ok a) ->
  exists r, collect f l = Ok r.
Proof.
  induction l as [|x l IH]; simpl; intros H; [eauto|].
  destruct (H x (or_introl eq_refl)) as [a Ha]. rewrite Ha.
  destruct IH as [r Hr]; [intros; apply H; now right|].
  rewrite Hr. eauto.
Qed.

Lemma collect_filter (A : Type) (f : string -> result (list A))
  (keep : A -> bool) l r :
  collect f l = Ok r ->
  exists rs, collect (fun x => match f x with
                               | Ok a => Ok (filter keep a)
                               | Err e => Err e
                               end) l = Ok rs /\ filter keep r = rs.
Proof.
  revert r. induction l as [|x l IH]; simpl; intros r H.
  - inversion H; subst. eauto.
  - destruct (f x) as [a|e]; [|discriminate].
    destruct (collect f l) as [r'|e]; [|discriminate].
    inversion H; subst. destruct (IH r' eq_refl) as [rs [H1 H2]].
    rewrite H1. eexists; split; [reflexivity|].
    rewrite filter_app. now rewrite H2.
Qed.

Lemma collect_filter_none (A : Type) (f : string -> result (list A))
  (keep : A -> bool) l r :
  collect f l = Ok r ->
  (forall x a, In x l -> f x = Ok a -> filter keep a = []) ->
  filter keep r = [].
Proof.
  revert r. induction l as [|x l IH]; simpl; intros r H K.
  - inversion H; reflexivity.
  - destruct (f x) as [a|e] eqn:Fx; [|discriminate].
    destruct (collect f l) as [r'|e]; [|discriminate].
    inversion H; subst. rewrite filter_app.
    rewrite (K x a (or_introl eq_refl) Fx).
    rewrite (IH r' eq_refl); [reflexivity|]. intros; eapply K; eauto.
Qed.

Lemma collect_filter_one (A : Type) (f : string -> result (list A))
  (keep : A -> bool) l r file :
  collect f l = Ok r -> NoDup l -> In file l ->
  (forall x a, In x l -> x <> file -> f x = Ok a -> filter keep a = []) ->
  exists a, f file = Ok a /\ filter keep r = filter keep a.
Proof.
  revert r. induction l as [|x l IH]; simpl; intros r H ND I K; [tauto|].
  destruct (f x) as [a|e] eqn:Fx; [|discriminate].
  destruct (collect f l) as [r'|e] eqn:C; [|discriminate].
  inversion H; subst. inversion ND as [|? ? NI ND']; subst.
  rewrite filter_app. destruct I as [I|I].
  - subst x. exists a. split; [assumption|].
    rewrite (@collect_filter_none _ f keep l r' C); [now rewrite app_nil_r|].
    intros y b Hy Fy. apply (K y b); auto. intros ->. contradiction.
  - destruct (IH r' eq_refl ND' I) as [a' [H1 H2]].
    { intros y b Hy Ny Fy. apply (K y b); auto. }
    exists a'. split; [assumption|].
    rewrite (K x a); auto. intros ->. contradiction.
Qed.

(** ** The operations [diff] emits for one path *)

Lemma compare_loop_ops budget file oc nc fo fn ops :
  compare_loop budget file oc nc fo fn = Some ops ->
  Forall (fun op => writes op = true /\ target_path op = file) ops.
Proof.
  revert oc nc fo fn ops.
  induction budget as [|budget IH]; intros oc nc fo fn ops; [discriminate|].
  cbn [compare_loop].
  destruct (truthy oc && truthy nc).
  - destruct (negb (bytes_eqb oc nc)).
    + destruct (find_next_matching_block oc fn) as [[mb g]|]; [|discriminate].
      destruct mb as [mb|].
      * destruct (truthy mb).
        -- destruct (read BLOCK_SIZE g) as [c1 g1].
           destruct (read BLOCK_SIZE fo) as [c2 g2].
           destruct (read BLOCK_SIZE g1) as [c3 g3].
           destruct (compare_loop budget file c2 c3 g2 g3) as [r|] eqn:E;
             [|discriminate].
           intros H; inversion H; subst. constructor; [now split|].
           eapply IH; eauto.
        -- intros H; inversion H; subst. repeat constructor.
      * intros H; inversion H; subst. repeat constructor.
    + destruct (read BLOCK_SIZE fo) as [c2 g2].
      destruct (read BLOCK_SIZE fn) as [c3 g3]. apply IH.
  - destruct (negb (truthy oc) && truthy nc); intros H; inversion H; subst;
      repeat constructor.
Qed.

Lemma file_ops_all file ops :
  Forall (fun op => writes op = true /\ target_path op = file) ops ->
  file_ops file ops = ops.
Proof.
  unfold file_ops.
  induction 1 as [|op ops [H1 H2] _ IH]; simpl; [reflexivity|].
  rewrite H1, H2, String.eqb_refl. simpl. now rewrite IH.
Qed.

Lemma file_ops_other file other ops :
  other <> file ->
  Forall (fun op => writes op = true -> target_path op = other) ops ->
  file_ops file ops = [].
Proof.
  unfold file_ops.
  intros N. induction 1 as [|op ops H _ IH]; simpl; [reflexivity|].
  destruct (writes op) eqn:W; simpl; [|exact IH].
  rewrite (H eq_refl). apply String.eqb_neq in N. rewrite N. exact IH.
Qed.

Lemma diff_extra_file_op new_dir w file op :
  diff_extra_file new_dir w file = Ok op ->
  writes op = true -> target_path op = file.
Proof.
  unfold diff_extra_file.
  destruct (islink (at_path new_dir file w)).
  - destruct (open_read (at_path new_dir file w)); [|discriminate].
    destruct (decode_text a); [|discriminate].
    intros H; inversion H; subst. discriminate.
  - destruct (isdir (at_path new_dir file w)).
    + intros H; inversion H; subst. discriminate.
    + destruct (open_read (at_path new_dir file w)); [|discriminate].
      intros H; inversion H; subst. reflexivity.
Qed.

Lemma diff_common_file_ops old_dir new_dir w file ops :
  diff_common_file old_dir new_dir w file = Ok ops ->
  Forall (fun op => writes op = true -> target_path op = file) ops.
Proof.
  unfold diff_common_file.
  destruct (islink (at_path old_dir file w) || islink (at_path new_dir file w)).
  - destruct (open_read (at_path new_dir file w)); [|discriminate].
    destruct (decode_text a); [|discriminate].
    intros H; inversion H; subst. repeat constructor; try discriminate.
  - destruct (isdir (at_path old_dir file w) || isdir (at_path new_dir file w)).
    + intros H; inversion H; subst. repeat constructor; try discriminate.
    + destruct (open_read (at_path old_dir file w)) as [ob|]; [|discriminate].
      destruct (open_read (at_path new_dir file w)) as [nb|]; [|discriminate].
      destruct (compare_files file ob nb) as [r|] eqn:E; [|discriminate].
      intros H; inversion H; subst.
      unfold compare_files in E.
      destruct (read BLOCK_SIZE (open_handle ob)) as [oc fo].
      destruct (read BLOCK_SIZE (open_handle nb)) as [nc fn].
      apply compare_loop_ops in E.
      eapply Forall_impl; [|exact E]. simpl. tauto.
Qed.

(** On a path holding a regular file (not a link) in both trees, the loop
    body of [diff] is [compare_files]. *)
Lemma diff_common_file_regular old_dir new_dir w file ob nb :
  at_path old_dir file w = Some (Reg ob) ->
  at_path new_dir file w = Some (Reg nb) ->
  diff_common_file old_dir new_dir w file =
  match compare_files file ob nb with
  | Some ops => Ok ops
  | None => Err BudgetExhausted
  end.
Proof.
  intros Ho Hn. unfold diff_common_file. rewrite Ho, Hn. reflexivity.
Qed.

Lemma diff_inv old_dir new_dir w p :
  diff old_dir new_dir w = Ok p ->
  exists told tnew ops2 ops3,
    lookup old_dir w = Some told /\ lookup new_dir w = Some tnew /\
    collect (fun file => match diff_extra_file new_dir w file with
                         | Ok op => Ok [op]
                         | Err e => Err e
                         end)
      (set_minus (snd (listing tnew)) (snd (listing told)))
      = Ok ops2 /\
    collect (diff_common_file old_dir new_dir w)
      (set_inter (snd (listing told)) (snd (listing tnew)))
      = Ok ops3 /\
    p = mkPatch (fst (listing told)) (fst (listing tnew))
          (set_minus (snd (listing told)) (snd (listing tnew)))
          (set_minus (snd (listing tnew)) (snd (listing told)))
          (diff_deleted
             (set_minus (snd (listing told)) (snd (listing tnew)))
           ++ ops2 ++ ops3).
Proof.
  unfold diff.
  destruct (scan_dir old_dir w) as [[od of_]|] eqn:So; [|discriminate].
  destruct (scan_dir new_dir w) as [[nd nf]|] eqn:Sn; [|discriminate].
  apply scan_dir_inv in So. destruct So as [told [Lo [So _]]].
  apply scan_dir_inv in Sn. destruct Sn as [tnew [Ln [Sn _]]].
  symmetry in So, Sn. rewrite Lo, Ln.
  destruct (collect _ (set_minus nf of_)) as [ops2|] eqn:C2; [|discriminate].
  destruct (collect _ (set_inter of_ nf)) as [ops3|] eqn:C3; [|discriminate].
  intros H; inversion H; subst.
  exists told, tnew, ops2, ops3. rewrite So, Sn. repeat split; auto.
Qed.

Lemma file_ops_app file a b :
  file_ops file (a ++ b) = file_ops file a ++ file_ops file b.
Proof. apply filter_app. Qed.

Lemma file_ops_deleted file l : file_ops file (diff_deleted l) = [].
Proof. induction l; simpl; auto. Qed.

(** The operations of the patch that write to a path holding a regular
    file in both trees are exactly the ones [compare_files] computes. *)
Lemma diff_file_ops old_dir new_dir w p file ob nb :
  diff old_dir new_dir w = Ok p ->
  at_path old_dir file w = Some (Reg ob) ->
  at_path new_dir file w = Some (Reg nb) ->
  compare_files file ob nb = Some (file_ops file (operations p)).
Proof.
  intros D Ho Hn.
  destruct (diff_inv _ _ _ D) as (told & tnew & ops2 & ops3 & Lo & Ln & C2
                                  & C3 & ->).
  cbn [operations]. rewrite !file_ops_app, file_ops_deleted. cbn [app].
  unfold at_path in Ho, Hn. rewrite Lo in Ho. rewrite Ln in Hn.
  assert (Io : In file (snd (listing told)))
    by (eapply lookup_file_scanned; eauto).
  assert (In_ : In file (snd (listing tnew)))
    by (eapply lookup_file_scanned; eauto).
  unfold file_ops at 1.
  rewrite (@collect_filter_none _ _ _ _ _ C2).
  2: { intros x a Hx Fx. apply set_minus_In in Hx.
       destruct (diff_extra_file new_dir w x) as [op|] eqn:E; [|discriminate].
       inversion Fx; subst. simpl.
       destruct (writes op) eqn:W; [|reflexivity].
       rewrite (diff_extra_file_op _ _ _ E W).
       destruct (String.eqb x file) eqn:X; [|reflexivity].
       apply String.eqb_eq in X; subst. tauto. }
  cbn [app].
  destruct (@collect_filter_one _ _
              (fun op => writes op && String.eqb (target_path op) file)
              _ _ file C3) as [a [Fa Ha]].
  - apply set_inter_NoDup.
  - apply set_inter_In; auto.
  - intros x a Hx Nx Fx. apply (file_ops_other (other := x)); auto.
    eapply diff_common_file_ops; eauto.
  - unfold file_ops. rewrite Ha.
    rewrite (@diff_common_file_regular old_dir new_dir w file ob nb) in Fa.
    2: { unfold at_path. rewrite Lo. exact Ho. }
    2: { unfold at_path. rewrite Ln. exact Hn. }
    destruct (compare_files file ob nb) as [r|] eqn:E; [|discriminate].
    inversion Fa; subst. f_equal. symmetry. apply file_ops_all.
    unfold compare_files in E.
    destruct (read BLOCK_SIZE (open_handle ob)) as [oc fo].
    destruct (read BLOCK_SIZE (open_handle nb)) as [nc fn].
    eapply compare_loop_ops; eauto.
Qed.

(** [diff] returns a patch on every pair of existing directories whose
    entries can all be examined and whose links lead to no regular file:
    every file it opens is there, nothing has to be decoded, and its loops
    end. *)
Lemma scanned_file_plain name t :
  NoDup (map fst t) -> no_file_links t -> In name (snd (listing t)) ->
  exists n b, lookup name t = Some n /\ resolve n = Some (Reg b) /\
              node_is_link n = false.
Proof.
  intros ND NL H. destruct (scanned_file_opens name t ND H) as (n & b & L & R).
  exists n, b. repeat split; try assumption.
  destruct (node_is_link n) eqn:K; [|reflexivity].
  pose proof (no_file_links_In _ _ NL (lookup_In _ _ L) K) as F.
  unfold node_is_file in F. rewrite R in F. discriminate.
Qed.

Lemma diff_total old_dir new_dir w told tnew :
  lookup old_dir w = Some told -> lookup new_dir w = Some tnew ->
  NoDup (map fst told) -> NoDup (map fst tnew) ->
  scannable told -> scannable tnew ->
  no_file_links told -> no_file_links tnew ->
  exists p, diff old_dir new_dir w = Ok p.
Proof.
  intros Lo Ln NDo NDn Sco Scn NLo NLn. unfold diff, scan_dir.
  rewrite Lo, Ln, (scan_entries_listing Sco), (scan_entries_listing Scn).
  destruct (listing told) as [od of_] eqn:So.
  destruct (listing tnew) as [nd nf] eqn:Sn.
  assert (Ho : forall x, In x of_ -> exists n b,
               at_path old_dir x w = Some n /\ resolve n = Some (Reg b) /\
               node_is_link n = false).
  { intros x Hx. unfold at_path. rewrite Lo.
    apply scanned_file_plain; try assumption. now rewrite So. }
  assert (Hn : forall x, In x nf -> exists n b,
               at_path new_dir x w = Some n /\ resolve n = Some (Reg b) /\
               node_is_link n = false).
  { intros x Hx. unfold at_path. rewrite Ln.
    apply scanned_file_plain; try assumption. now rewrite Sn. }
  match goal with |- context [collect ?f (set_minus nf of_)] =>
    destruct (@collect_total _ f (set_minus nf of_)) as [ops2 C2] end.
  { intros x Hx. apply set_minus_In in Hx. destruct Hx as [Hx _].
    destruct (Hn x Hx) as (n & b & P & R & K).
    unfold diff_extra_file. rewrite P. simpl. rewrite K.
    unfold node_is_dir. rewrite R. eauto. }
  rewrite C2.
  destruct (@collect_total _ (diff_common_file old_dir new_dir w)
              (set_inter of_ nf)) as [ops3 C3].
  { intros x Hx. apply set_inter_In in Hx. destruct Hx as [Hxo Hxn].
    destruct (Ho x Hxo) as (n1 & b1 & P1 & R1 & K1).
    destruct (Hn x Hxn) as (n2 & b2 & P2 & R2 & K2).
    unfold diff_common_file. rewrite P1, P2. simpl. rewrite K1, K2.
    unfold node_is_dir. rewrite R1, R2. simpl.
    destruct (compare_files_total x b1 b2) as [ops E]. rewrite E. eauto. }
  rewrite C3. eauto.
Qed.

(** ** Chunks *)

Ltac blia := unfold BLOCK_SIZE in *; lia.

Lemma read_chunk b p :
  read BLOCK_SIZE (mkHandle b p) =
  (chunk_at b p, mkHandle b (p + length (chunk_at b p))).
Proof. reflexivity. Qed.

Lemma chunk_at_length b p :
  length (chunk_at b p) = Nat.min BLOCK_SIZE (length b - p).
Proof. unfold chunk_at. now rewrite length_firstn, length_skipn. Qed.

Lemma chunk_at_end b p : length b <= p -> chunk_at b p = [].
Proof.
  intros H. unfold chunk_at. rewrite skipn_all2 by assumption.
  apply firstn_nil.
Qed.

Lemma chunk_at_small b : length b <= BLOCK_SIZE -> chunk_at b 0 = b.
Proof. intros H. unfold chunk_at. cbn [skipn]. now apply firstn_all2. Qed.

(** A chunk of a file is unchanged by data appended behind it. *)
Lemma chunk_at_app b e p :
  p + BLOCK_SIZE <= length b \/ e = [] ->
  chunk_at (b ++ e) p = chunk_at b p.
Proof.
  intros [H| ->]; [|now rewrite app_nil_r].
  unfold chunk_at. rewrite skipn_app, firstn_app, length_skipn.
  replace (BLOCK_SIZE - (length b - p)) with 0 by lia.
  rewrite firstn_O. apply app_nil_r.
Qed.

Lemma chunk_at_app_end b e : chunk_at (b ++ e) (length b) = chunk_at e 0.
Proof.
  unfold chunk_at. rewrite skipn_app, skipn_all, Nat.sub_diag. reflexivity.
Qed.

(** ** What [find_next_matching_block] can return *)

(** A block it returns is the block searched for, and it was read at a
    whole number of blocks from the position of the file object. *)
Lemma find_loop_sound budget oc nc f mb g :
  find_loop budget oc nc f = Some (Some mb, g) ->
  mb = oc /\
  (mb = nc \/ exists j, mb = chunk_at (contents f) (pos f + j * BLOCK_SIZE)).
Proof.
  revert nc f. induction budget as [|budget IH]; intros nc f;
    [discriminate|].
  cbn [find_loop]. destruct (truthy nc); [|discriminate].
  destruct (bytes_eqb oc nc) eqn:E.
  - intros H; inversion H; subst. apply bytes_eqb_eq in E. auto.
  - destruct f as [b p]. rewrite read_chunk. intros H.
    apply IH in H. destruct H as [H1 H2]. split; [assumption|]. right.
    cbn [contents pos] in *. destruct H2 as [H2|[j H2]].
    + exists 0. now rewrite Nat.add_0_r.
    + pose proof (chunk_at_length b p) as L.
      destruct (Nat.le_gt_cases (p + BLOCK_SIZE) (length b)) as [C|C].
      * exists (S j). rewrite H2. f_equal. blia.
      * exists (length b). rewrite H2.
        rewrite !chunk_at_end; [reflexivity| |]; blia.
Qed.

Lemma find_next_matching_block_sound oc f mb g :
  find_next_matching_block oc f = Some (Some mb, g) ->
  mb = oc /\ exists j, mb = chunk_at (contents f) (pos f + j * BLOCK_SIZE).
Proof.
  unfold find_next_matching_block. destruct f as [b p].
  rewrite read_chunk. intros H. apply find_loop_sound in H.
  destruct H as [H1 H2]. split; [assumption|].
  cbn [contents pos] in *. destruct H2 as [H2|[j H2]].
  - exists 0. now rewrite Nat.add_0_r.
  - pose proof (chunk_at_length b p) as L.
    destruct (Nat.le_gt_cases (p + BLOCK_SIZE) (length b)) as [C|C].
    + exists (S j). rewrite H2. f_equal. blia.
    + exists (length b). rewrite H2.
      rewrite !chunk_at_end; [reflexivity| |]; blia.
Qed.

(** ** [compare_files] on two shapes of input *)

(** Equal leading blocks are passed over without an operation. *)
Lemma compare_loop_skip budget file pre e p :
  length pre - p < budget -> p <= length pre ->
  (e = [] \/ exists k, length pre - p = k * BLOCK_SIZE) ->
  compare_loop budget file (chunk_at pre p) (chunk_at (pre ++ e) p)
    (mkHandle pre (p + length (chunk_at pre p)))
    (mkHandle (pre ++ e) (p + length (chunk_at (pre ++ e) p)))
  = Some (if truthy (chunk_at e 0)
          then [Operation_ DATA 0 0 (chunk_at e 0) file] else []).
Proof.
  revert p. induction budget as [|budget IH]; intros p Hb Hp He; [lia|].
  cbn [compare_loop].
  destruct (Nat.eq_dec p (length pre)) as [->|Np].
  - rewrite (chunk_at_end pre) by lia. rewrite chunk_at_app_end.
    cbn [truthy andb negb]. now destruct (truthy (chunk_at e 0)).
  - assert (Hc : chunk_at (pre ++ e) p = chunk_at pre p).
    { apply chunk_at_app. destruct He as [He|[k Hk]]; [now right|left].
      destruct k; unfold BLOCK_SIZE in *; simpl in Hk; lia. }
    rewrite Hc. pose proof (chunk_at_length pre p) as L.
    assert (T : truthy (chunk_at pre p) = true).
    { apply truthy_length. unfold BLOCK_SIZE in *. lia. }
    rewrite T, bytes_eqb_refl. cbn [andb negb].
    rewrite !read_chunk.
    apply IH.
    + apply truthy_length in T. lia.
    + unfold BLOCK_SIZE in *. lia.
    + destruct He as [He|[k Hk]]; [now left|right].
      destruct k as [|k]; [simpl in Hk; lia|]. exists k.
      unfold BLOCK_SIZE in *. simpl in Hk. lia.
Qed.

Lemma compare_files_unfold file ob nb :
  compare_files file ob nb =
  compare_loop (S (S (length ob))) file (chunk_at ob 0) (chunk_at nb 0)
    (mkHandle ob (0 + length (chunk_at ob 0)))
    (mkHandle nb (0 + length (chunk_at nb 0))).
Proof.
  unfold compare_files, open_handle. rewrite !read_chunk.
  now replace (length ob + 2) with (S (S (length ob))) by lia.
Qed.

(** A new file that continues the old one: nothing is emitted for the old
    part, and the loop's [else] clause emits the chunk read last. *)
Lemma compare_files_append file pre e :
  (e = [] \/ exists k, length pre = k * BLOCK_SIZE) ->
  compare_files file pre (pre ++ e) =
  Some (if truthy (chunk_at e 0)
        then [Operation_ DATA 0 0 (chunk_at e 0) file] else []).
Proof.
  intros H. rewrite compare_files_unfold. apply compare_loop_skip.
  - lia.
  - lia.
  - now rewrite Nat.sub_0_r.
Qed.

(** Two files whose first blocks differ, where the first block of the old
    file is not a block of the new file at any multiple of [BLOCK_SIZE]:
    one [DATA] operation carrying the first chunk of the new file. *)
Lemma compare_files_no_match file ob nb :
  truthy (chunk_at ob 0) = true -> truthy (chunk_at nb 0) = true ->
  chunk_at ob 0 <> chunk_at nb 0 ->
  (forall j, 1 <= j -> chunk_at nb (j * BLOCK_SIZE) <> chunk_at ob 0) ->
  compare_files file ob nb = Some [Operation_ DATA 0 0 (chunk_at nb 0) file].
Proof.
  intros To Tn Ne Hj. rewrite compare_files_unfold. cbn [compare_loop].
  rewrite To, Tn. apply bytes_eqb_neq in Ne. rewrite Ne. cbn [andb negb].
  destruct (find_next_matching_block_total (chunk_at ob 0)
              (mkHandle nb (0 + length (chunk_at nb 0)))) as [[mb g] E].
  rewrite E. destruct mb as [mb|]; [|reflexivity]. exfalso.
  apply find_next_matching_block_sound in E. destruct E as [E1 [j E2]].
  cbn [contents pos] in E2. subst mb.
  pose proof (chunk_at_length nb 0) as L.
  destruct (Nat.le_gt_cases BLOCK_SIZE (length nb)) as [C|C].
  - apply (Hj (S j)); [lia|]. rewrite E2. f_equal. blia.
  - rewrite (@chunk_at_end nb (0 + length (chunk_at nb 0) + j * BLOCK_SIZE))
      in E2 by blia.
    rewrite E2 in To. discriminate.
Qed.

(** * The claims *)

Lemma collect_nil (A : Type) (f : string -> result (list A)) l :
  (forall x, In x l -> f x = Ok []) -> collect f l = Ok [].
Proof.
  induction l as [|x l IH]; simpl; intros H; [reflexivity|].
  rewrite (H x (or_introl eq_refl)), IH; [reflexivity|].
  intros; apply H; now right.
Qed.

Lemma not_link_resolve n : node_is_link n = false -> resolve n = Some n.
Proof. destruct n; simpl; congruence. Qed.

(** ** C7: the diff of a tree with itself *)




(** ** Paths that are regular files in both trees *)

Section CommonFile.
Variables (old_dir new_dir : string) (w : fs) (told tnew : tree).
Variables (file : string) (ob nb : bytes).
Hypothesis Lo : lookup old_dir w = Some told.
Hypothesis Ln : lookup new_dir w = Some tnew.
Hypothesis WFo : well_formed told.
Hypothesis WFn : well_formed tnew.
Hypothesis Sco : scannable told.
Hypothesis Scn : scannable tnew.
Hypothesis NLo : no_file_links told.
Hypothesis NLn : no_file_links tnew.
Hypothesis Fo : lookup file told = Some (Reg ob).
Hypothesis Fn : lookup file tnew = Some (Reg nb).

(** [diff] returns a patch, and its operations writing to [file] are the
    ones [compare_files] computes. *)
Lemma common_file_ops :
  exists p ops, diff old_dir new_dir w = Ok p /\
                compare_files file ob nb = Some ops /\
                file_ops file (operations p) = ops.
Proof.
  destruct (diff_total old_dir new_dir w Lo Ln WFo WFn Sco Scn NLo NLn)
    as [p D].
  exists p, (file_ops file (operations p)). split; [assumption|].
  split; [|reflexivity].
  apply (@diff_file_ops old_dir new_dir w p file ob nb D);
    unfold at_path; [now rewrite Lo|now rewrite Ln].
Qed.
End CommonFile.

(** ** C6: bytes appended to a file of whole blocks *)




(** ** C5: a file shifted by one byte *)



Lemma chunks_of_shift j :
  chunk_at (B "xabcdefghijklmnop") (j * BLOCK_SIZE)
  <> chunk_at (B "abcdefghijklmnop") 0.
Proof.
  destruct j as [|[|[|j]]]; vm_compute; discriminate.
Qed.


(** ** C8: [diff] looks at one directory level *)

Lemma resolve_prune (n : node) :
  resolve (prune n) = option_map prune (resolve n).
Proof.
  revert n. fix IH 1. intros n.
  destruct n as [b|c|t [n'|]|t|]; simpl; try reflexivity.
  apply IH.
Qed.

Lemma node_is_dir_prune n : node_is_dir (prune n) = node_is_dir n.
Proof.
  unfold node_is_dir. rewrite resolve_prune.
  destruct (resolve n) as [[| |? []| |]|]; reflexivity.
Qed.

Lemma node_is_file_prune n : node_is_file (prune n) = node_is_file n.
Proof.
  unfold node_is_file. rewrite resolve_prune.
  destruct (resolve n) as [[| |? []| |]|]; reflexivity.
Qed.

Lemma node_is_link_prune n : node_is_link (prune n) = node_is_link n.
Proof. destruct n as [| |? []| |]; reflexivity. Qed.

Lemma stat_fails_prune (n : node) : stat_fails (prune n) = stat_fails n.
Proof.
  revert n. fix IH 1. intros n.
  destruct n as [b|c|t [n'|]|t|]; simpl; try reflexivity.
  apply IH.
Qed.

Lemma open_read_prune o : open_read (option_map prune o) = open_read o.
Proof.
  destruct o as [n|]; simpl; [|reflexivity].
  rewrite resolve_prune, stat_fails_prune.
  destruct (resolve n) as [[| |? []| |]|]; reflexivity.
Qed.

Lemma lookup_prune_tree name t :
  lookup name (prune_tree t) = option_map prune (lookup name t).
Proof.
  induction t as [|[k n] t IH]; simpl; [reflexivity|].
  destruct (String.eqb k name); auto.
Qed.

Lemma lookup_prune_fs root w :
  lookup root (prune_fs w) = option_map prune_tree (lookup root w).
Proof.
  induction w as [|[k t] w IH]; simpl; [reflexivity|].
  destruct (String.eqb k root); auto.
Qed.

Lemma scan_entries_prune t : scan_entries (prune_tree t) = scan_entries t.
Proof.
  induction t as [|[k n] t IH]; cbn [prune_tree map scan_entries fst snd];
    [reflexivity|].
  unfold entry_is_dir, entry_is_file. fold (prune_tree t).
  now rewrite IH, stat_fails_prune, node_is_dir_prune, node_is_file_prune.
Qed.

Lemma at_path_prune root name w :
  at_path root name (prune_fs w) = option_map prune (at_path root name w).
Proof.
  unfold at_path. rewrite lookup_prune_fs.
  destruct (lookup root w); simpl; [apply lookup_prune_tree|reflexivity].
Qed.

Lemma islink_prune o : islink (option_map prune o) = islink o.
Proof. destruct o; simpl; [apply node_is_link_prune|reflexivity]. Qed.

Lemma isdir_prune o : isdir (option_map prune o) = isdir o.
Proof. destruct o; simpl; [apply node_is_dir_prune|reflexivity]. Qed.

Lemma collect_ext (A : Type) (f g : string -> result (list A)) l :
  (forall x, f x = g x) -> collect f l = collect g l.
Proof.
  intros H. induction l as [|x l IH]; simpl; [reflexivity|].
  now rewrite H, IH.
Qed.

Lemma diff_prune old_dir new_dir w :
  diff old_dir new_dir (prune_fs w) = diff old_dir new_dir w.
Proof.
  unfold diff, scan_dir. rewrite !lookup_prune_fs.
  destruct (lookup old_dir w) as [told|]; simpl; [|reflexivity].
  rewrite scan_entries_prune.
  destruct (scan_entries told) as [[od of_]|]; [|reflexivity].
  destruct (lookup new_dir w) as [tnew|]; simpl; [|reflexivity].
  rewrite scan_entries_prune.
  destruct (scan_entries tnew) as [[nd nf]|]; [|reflexivity].
  rewrite (@collect_ext _ _
             (fun file => match diff_extra_file new_dir w file with
                          | Ok op => Ok [op]
                          | Err e => Err e
                          end)).
  2: { intros x. unfold diff_extra_file.
       now rewrite at_path_prune, islink_prune, isdir_prune,
         open_read_prune. }
  rewrite (@collect_ext _ (diff_common_file old_dir new_dir (prune_fs w))
             (diff_common_file old_dir new_dir w)); [reflexivity|].
  intros x. unfold diff_common_file.
  now rewrite !at_path_prune, !islink_prune, !isdir_prune, !open_read_prune.
Qed.




(** * The applier *)

(** ** Which roots an action touches *)

Section Frames.
Variables (root : string) (P : event -> Prop).

Lemma touches_ret (A : Type) (a : A) : touches_only root P (ret a).
Proof.
  intros w. split; [reflexivity|]. exists []. now rewrite app_nil_r.
Qed.

Lemma touches_raise (A : Type) (e : exn) :
  touches_only root P (@raise A e).
Proof.
  intros w. split; [reflexivity|]. exists []. now rewrite app_nil_r.
Qed.

Lemma touches_stay (A : Type) (o : world -> outcome A) :
  (forall w, world_of (o w) = w) -> touches_only root P o.
Proof.
  intros H w. rewrite H. split; [reflexivity|].
  exists []. now rewrite app_nil_r.
Qed.

Lemma touches_bind (A C : Type) (m : M A) (k : A -> M C) :
  touches_only root P m -> (forall a, touches_only root P (k a)) ->
  touches_only root P (bind m k).
Proof.
  intros Hm Hk w. unfold bind. specialize (Hm w).
  destruct (m w) as [a w1|e w1]; simpl in Hm; [|exact Hm].
  destruct Hm as [F1 [ev1 [T1 Q1]]].
  destruct (Hk a w1) as [F2 [ev2 [T2 Q2]]]. split.
  - intros r Hr. rewrite F2, F1; auto.
  - exists (ev1 ++ ev2). rewrite T2, T1, app_assoc. split; [reflexivity|].
    apply Forall_app; auto.
Qed.

Lemma touches_for_each (A : Type) (l : list A) (body : A -> M unit) :
  (forall x, In x l -> touches_only root P (body x)) ->
  touches_only root P (for_each l body).
Proof.
  induction l as [|x l IH]; intros H; simpl.
  - apply touches_ret.
  - apply touches_bind; [apply H; now left|].
    intros _. apply IH. intros; apply H; now right.
Qed.

Lemma touches_emit (ev : event) (t : tree) (w : world) :
  P ev ->
  (forall r, r <> root ->
     lookup r (w_fs (world_of (emit ev (set_entry root t (w_fs w)) w)))
     = lookup r (w_fs w)) /\
  exists evs,
    w_trace (world_of (emit ev (set_entry root t (w_fs w)) w))
    = w_trace w ++ evs /\ Forall P evs.
Proof.
  intros Hp. simpl. split.
  - intros r Hr. now apply lookup_set_neq.
  - exists [ev]. split; [reflexivity|]. now constructor.
Qed.
End Frames.

Lemma touches_weaken (A : Type) root (P Q : event -> Prop) (m : M A) :
  (forall e, P e -> Q e) -> touches_only root P m -> touches_only root Q m.
Proof.
  intros H Hm w. destruct (Hm w) as [F [evs [T Hp]]]. split; [exact F|].
  exists evs. split; [exact T|]. eapply Forall_impl; eauto.
Qed.

Lemma stay_frame root (P : event -> Prop) (w : world) :
  (forall r, r <> root -> lookup r (w_fs w) = lookup r (w_fs w)) /\
  exists evs, w_trace w = w_trace w ++ evs /\ Forall P evs.
Proof. split; [reflexivity|]. exists []. now rewrite app_nil_r. Qed.

Lemma touches_mkdtemp s : touches_only s (staging_event s) (mkdtemp s).
Proof.
  intros w. unfold mkdtemp.
  destruct (lookup s (w_fs w)); [apply stay_frame|].
  apply touches_emit. constructor.
Qed.

Lemma touches_makedirs s name :
  touches_only s (staging_event s) (makedirs s name).
Proof.
  intros w. unfold makedirs.
  destruct (lookup s (w_fs w)) as [t|].
  - destruct (lookup name t) as [n|].
    + destruct (node_is_dir n); apply stay_frame.
    + apply touches_emit. constructor.
  - apply touches_emit. constructor.
Qed.

Lemma touches_write_file s name b :
  touches_only s (staging_event s) (write_file s name b).
Proof.
  intros w. unfold write_file.
  destruct (lookup s (w_fs w)) as [t|]; [|apply stay_frame].
  destruct (lookup name t) as [n|].
  - destruct (write_through n b); [|apply stay_frame].
    apply touches_emit. constructor.
  - apply touches_emit. constructor.
Qed.

Lemma read_range_stays root name off n w :
  world_of (read_range root name off n w) = w.
Proof.
  unfold read_range.
  destruct (open_read (at_path root name (w_fs w))); [|reflexivity].
  destruct (fits_word off); [|reflexivity].
  destruct (off <? 0)%Z; [reflexivity|].
  destruct (fits_word n); [|reflexivity].
  destruct (n <? 0)%Z; reflexivity.
Qed.

Lemma touches_apply_operation old_dir s op :
  touches_only s (staging_event s) (apply_operation old_dir s op).
Proof.
  unfold apply_operation. destruct (op_type op).
  - apply touches_write_file.
  - apply touches_bind.
    + apply touches_stay. intros w. apply read_range_stays.
    + intros d. apply touches_write_file.
  - apply touches_ret.
  - apply touches_ret.
  - apply touches_ret.
Qed.

Lemma touches_stage patch old_dir s :
  touches_only s (staging_event s) (stage patch old_dir s).
Proof.
  unfold stage. apply touches_bind; [apply touches_mkdtemp|]. intros _.
  apply touches_bind.
  - apply touches_for_each. intros; apply touches_makedirs.
  - intros _. apply touches_for_each. intros; apply touches_apply_operation.
Qed.

Lemma touches_delete_extra_file new_dir names file :
  In file names ->
  touches_only new_dir (removal_event new_dir names)
    (delete_extra_file new_dir file).
Proof.
  intros I w. unfold delete_extra_file.
  destruct (lookup new_dir (w_fs w)) as [t|]; [|apply stay_frame].
  destruct (isfile (at_path new_dir file (w_fs w))
            || islink (at_path new_dir file (w_fs w))).
  - apply touches_emit. now constructor.
  - destruct (isdir (at_path new_dir file (w_fs w))); [|apply stay_frame].
    destruct (at_path new_dir file (w_fs w)) as [[|[|]| | |]|];
      try apply stay_frame.
    apply touches_emit. now constructor.
Qed.

Lemma touches_delete_extra_files patch new_dir :
  touches_only new_dir (removal_event new_dir (extra_files patch))
    (delete_extra_files patch new_dir).
Proof.
  apply touches_for_each. intros. now apply touches_delete_extra_file.
Qed.

Lemma apply_patch_stage patch old_dir new_dir staging_dir w :
  apply_patch patch old_dir new_dir staging_dir w =
  (stage patch old_dir staging_dir ;;;
   delete_extra_files patch new_dir ;;;
   rmtree new_dir ;;;
   move staging_dir new_dir) w.
Proof.
  unfold apply_patch, stage, bind.
  destruct (mkdtemp staging_dir w) as [[] w1|]; [|reflexivity].
  destruct (create_missing_dirs patch staging_dir w1) as [[] w2|];
    [|reflexivity].
  destruct (apply_operations patch old_dir staging_dir w2); reflexivity.
Qed.

Lemma bind_done (A C : Type) (m : M A) (k : A -> M C) w c w' :
  bind m k w = Done c w' ->
  exists a w1, m w = Done a w1 /\ k a w1 = Done c w'.
Proof.
  unfold bind. destruct (m w) as [a w1|e w1]; [eauto|discriminate].
Qed.

Lemma rmtree_done dir w w' :
  rmtree dir w = Done tt w' ->
  w_trace w' = w_trace w ++ [ERmtree dir] /\
  w_fs w' = remove_entry dir (w_fs w).
Proof.
  unfold rmtree. destruct (lookup dir (w_fs w)); [|discriminate].
  intros H; inversion H; subst. auto.
Qed.

Lemma move_done src dst w w' :
  move src dst w = Done tt w' ->
  exists t, lookup src (w_fs w) = Some t /\ lookup dst (w_fs w) = None /\
            w_trace w' = w_trace w ++ [EMove src dst] /\
            w_fs w' = set_entry dst t (remove_entry src (w_fs w)).
Proof.
  unfold move. destruct (lookup src (w_fs w)) as [t|]; [|discriminate].
  destruct (lookup dst (w_fs w)); [discriminate|].
  intros H; inversion H; subst. eauto.
Qed.

(** ** C2: what a failing run leaves behind *)

(** C2, counterexample: [delete_extra_files] removes ["a"] from the live
    target and then fails on the non-empty directory ["d"]: the run raises,
    nothing was published, and the live target has lost a file.  On a run
    that completes, [rmtree] of the live target comes before the move. *)
Lemma failed_apply_counterexample :
  (exists w',
     apply_patch patch_extras "old" "live" "tmp" world_live
       = Raised OSError w' /\
     lookup "live" (w_fs w') = Some [("d", Directory [("x", Reg (B "y"))])] /\
     lookup "live" (w_fs w') <> lookup "live" (w_fs world_live) /\
     w_trace w' = [EMkdtemp "tmp"; ERemove "live" "a"]) /\
  (exists w',
     apply_patch patch_hello "old" "live" "tmp" world_hello = Done tt w' /\
     exists pre, w_trace w' = pre ++ [ERmtree "live"; EMove "tmp" "live"]).
Proof.
  split.
  - eexists. split; [vm_compute; reflexivity|].
    split; [reflexivity|]. split; [discriminate|reflexivity].
  - eexists. split; [vm_compute; reflexivity|].
    eexists (_ :: _ :: _ :: _ :: [_]). reflexivity.
Qed.

(** C2, amended: for every patch whose target paths are entry names, if
    the run fails before finalization (while creating the staging
    directories or applying an operation), [apply_patch] raises that error
    with nothing published: every root other than the staging directory,
    the live target among them, is as it was, and the only system calls
    made are on the staging directory. *)
Theorem staging_error_leaves_target (patch : Patch)
  (old_dir new_dir staging_dir : string) (w w' : world) (e : exn) :
  staging_dir <> new_dir ->
  stage patch old_dir staging_dir w = Raised e w' ->
  apply_patch patch old_dir new_dir staging_dir w = Raised e w' /\
  (forall r, r <> staging_dir -> lookup r (w_fs w') = lookup r (w_fs w)) /\
  lookup new_dir (w_fs w') = lookup new_dir (w_fs w) /\
  exists pre, w_trace w' = w_trace w ++ pre /\
              Forall (staging_event staging_dir) pre.
Proof.
  intros Ns H. split.
  { rewrite apply_patch_stage. unfold bind at 1. now rewrite H. }
  destruct (touches_stage patch old_dir staging_dir w) as [F [pre [T P]]].
  rewrite H in F, T. simpl in F, T. split; [exact F|].
  split; [apply F; auto|]. eauto.
Qed.

Lemma staging_error_leaves_target_witness :
  exists w',
    apply_patch patch_missing "old" "live" "tmp" world_live
      = Raised FileNotFoundError w' /\
    lookup "live" (w_fs w') = lookup "live" (w_fs world_live).
Proof.
  exists (world_of (stage patch_missing "old" "tmp" world_live)).
  destruct (@staging_error_leaves_target patch_missing "old" "live" "tmp"
              world_live
              (world_of (stage patch_missing "old" "tmp" world_live))
              FileNotFoundError) as (H1 & _ & H2 & _).
  - discriminate.
  - vm_compute. reflexivity.
  - split; [exact H1|exact H2].
Defined.

(** ** What [delete_extra_files] removes *)

Lemma delete_extra_file_spec new_dir file w w' t :
  delete_extra_file new_dir file w = Done tt w' ->
  lookup new_dir (w_fs w) = Some t ->
  exists t', lookup new_dir (w_fs w') = Some t' /\
    forall name,
      lookup name t' =
      if String.eqb name file && removable (lookup name t)
      then None else lookup name t.
Proof.
  unfold delete_extra_file, at_path. intros H L. rewrite L in H.
  assert (R : forall name,
             lookup name (remove_entry file t) =
             if String.eqb name file && true then None else lookup name t).
  { intros name. destruct (String.eqb name file) eqn:E; simpl.
    - apply String.eqb_eq in E. subst. apply lookup_remove_eq.
    - apply String.eqb_neq in E. now apply lookup_remove_neq. }
  assert (K : forall name,
             removable (lookup file t) = false ->
             lookup name t =
             if String.eqb name file && removable (lookup name t)
             then None else lookup name t).
  { intros name Hr. destruct (String.eqb name file) eqn:E; simpl; auto.
    apply String.eqb_eq in E. subst. now rewrite Hr. }
  unfold removable in *.
  destruct (isfile (lookup file t) || islink (lookup file t)) eqn:FL.
  - inversion H; subst. simpl. rewrite lookup_set_eq. eexists; split; eauto.
    intros name. rewrite R.
    destruct (String.eqb name file) eqn:E; simpl; auto.
    apply String.eqb_eq in E. subst. now rewrite FL.
  - simpl in K. destruct (isdir (lookup file t)) eqn:D.
    + destruct (lookup file t) as [[|[|]| | |]|] eqn:LF; try discriminate.
      inversion H; subst. simpl. rewrite lookup_set_eq.
      eexists; split; eauto.
      intros name. rewrite R.
      destruct (String.eqb name file) eqn:E; simpl; auto.
      apply String.eqb_eq in E. subst. now rewrite LF.
    + inversion H; subst. rewrite L. eexists; split; eauto.
Qed.

Lemma delete_extra_files_spec new_dir names w w' t :
  for_each names (delete_extra_file new_dir) w = Done tt w' ->
  lookup new_dir (w_fs w) = Some t ->
  exists t', lookup new_dir (w_fs w') = Some t' /\
    forall name,
      lookup name t' =
      if mem name names && removable (lookup name t)
      then None else lookup name t.
Proof.
  revert w t. induction names as [|file names IH]; intros w t H L.
  - inversion H; subst. eauto.
  - simpl in H. apply bind_done in H. destruct H as ([] & w1 & H1 & H2).
    destruct (delete_extra_file_spec _ _ _ H1 L) as (t1 & L1 & S1).
    destruct (IH _ _ H2 L1) as (t' & L' & S'). exists t'.
    split; [assumption|]. intros name. rewrite S', S1.
    unfold mem; simpl. fold (mem name names).
    destruct (String.eqb name file) eqn:E;
      destruct (removable (lookup name t)) eqn:R; simpl; try rewrite R;
      destruct (mem name names); simpl; try rewrite R; reflexivity.
Qed.

Lemma apply_operation_skip old_dir staging_dir op :
  writes op = false -> apply_operation old_dir staging_dir op = ret tt.
Proof.
  unfold writes, apply_operation. destruct (op_type op);
    congruence || reflexivity.
Qed.

Lemma for_each_filter_writes old_dir staging_dir ops w :
  for_each (filter writes ops) (apply_operation old_dir staging_dir) w =
  for_each ops (apply_operation old_dir staging_dir) w.
Proof.
  revert w. induction ops as [|op ops IH]; intros w; simpl; [reflexivity|].
  destruct (writes op) eqn:W; simpl.
  - unfold bind. destruct (apply_operation old_dir staging_dir op w);
      [apply IH|reflexivity].
  - rewrite (apply_operation_skip _ _ _ W). unfold bind, ret. apply IH.
Qed.

(** ** C3: a read that comes back short *)

Lemma portable_fits z : portable z -> fits_word z = true.
Proof.
  unfold portable, fits_word. intros [H1 H2].
  apply andb_true_iff. split; [apply Z.leb_le|apply Z.ltb_lt]; lia.
Qed.

Lemma never_mismatch_bind (A C : Type) (m : M A) (k : A -> M C) :
  never_mismatch m -> (forall a, never_mismatch (k a)) ->
  never_mismatch (bind m k).
Proof.
  intros Hm Hk w e w'. unfold bind.
  destruct (m w) as [a w1|e1 w1] eqn:E.
  - apply Hk.
  - intros H; inversion H; subst. eapply Hm; eauto.
Qed.

Lemma never_mismatch_for_each (A : Type) (l : list A) (body : A -> M unit) :
  (forall x, never_mismatch (body x)) -> never_mismatch (for_each l body).
Proof.
  intros H. induction l as [|x l IH]; simpl.
  - intros w e w'. discriminate.
  - apply never_mismatch_bind; auto.
Qed.

Lemma write_through_error (n : node) (b : bytes) (e : exn) :
  write_through n b = Err e -> e <> PatchApplyError.
Proof.
  revert n e. fix IH 1. intros n e.
  destruct n as [c|c|t [n'|]|t|]; simpl; try discriminate.
  - intros H; inversion H; discriminate.
  - destruct (write_through n' b) eqn:E; [discriminate|].
    intros H; inversion H; subst. eapply IH; eauto.
  - intros H; inversion H; discriminate.
  - intros H; inversion H; discriminate.
Qed.

Lemma never_mismatch_write_file root name b :
  never_mismatch (write_file root name b).
Proof.
  intros w e w'. unfold write_file, emit.
  destruct (lookup root (w_fs w)) as [t|].
  - destruct (lookup name t) as [n|]; [|discriminate].
    destruct (write_through n b) eqn:E; [discriminate|].
    intros H; inversion H; subst. eapply write_through_error; eauto.
  - intros H; inversion H; discriminate.
Qed.

Lemma never_mismatch_read_range root name off n :
  never_mismatch (read_range root name off n).
Proof.
  intros w e w'. unfold read_range, open_read.
  destruct (at_path root name (w_fs w)) as [m|].
  - destruct (resolve m) as [[| | | |]|];
      try (intros H; inversion H; discriminate).
    + destruct (fits_word off); [|intros H; inversion H; discriminate].
      destruct (off <? 0)%Z; [intros H; inversion H; discriminate|].
      destruct (fits_word n); [|intros H; inversion H; discriminate].
      destruct (n <? 0)%Z; [intros H; inversion H; discriminate|discriminate].
    + destruct (stat_fails m); intros H; inversion H; discriminate.
  - intros H; inversion H; discriminate.
Qed.

Lemma never_mismatch_apply_patch patch old_dir new_dir staging_dir :
  never_mismatch (apply_patch patch old_dir new_dir staging_dir).
Proof.
  unfold apply_patch.
  apply never_mismatch_bind.
  { intros w e w'. unfold mkdtemp, emit.
    destruct (lookup staging_dir (w_fs w)); [|discriminate].
    intros H; inversion H; discriminate. }
  intros _.
  apply never_mismatch_bind.
  { apply never_mismatch_for_each. intros x w e w'. unfold makedirs, emit.
    destruct (lookup staging_dir (w_fs w)) as [t|]; [|discriminate].
    destruct (lookup x t) as [n|]; [|discriminate].
    destruct (node_is_dir n); [discriminate|].
    intros H; inversion H; discriminate. }
  intros _. apply never_mismatch_bind.
  { apply never_mismatch_for_each. intros op. unfold apply_operation.
    destruct (op_type op); try (intros w e w'; discriminate).
    - apply never_mismatch_write_file.
    - apply never_mismatch_bind; [apply never_mismatch_read_range|].
      intros d. apply never_mismatch_write_file. }
  intros _. apply never_mismatch_bind.
  { apply never_mismatch_for_each. intros x w e w'.
    unfold delete_extra_file, emit.
    destruct (lookup new_dir (w_fs w)); [|discriminate].
    destruct (isfile _ || islink _); [discriminate|].
    destruct (isdir _); [|discriminate].
    destruct (at_path new_dir x (w_fs w)) as [[|[|]| | |]|];
      try discriminate; intros H; inversion H; discriminate. }
  intros _. apply never_mismatch_bind.
  { intros w e w'. unfold rmtree, emit.
    destruct (lookup new_dir (w_fs w)); [discriminate|].
    intros H; inversion H; discriminate. }
  intros _ w e w'. unfold move, emit.
  destruct (lookup staging_dir (w_fs w)).
  - destruct (lookup new_dir (w_fs w)); [|discriminate].
    intros H; inversion H; discriminate.
  - intros H; inversion H; discriminate.
Qed.

(** C3, counterexample: a patch computed against the original old tree
    holds [BLOCK_RANGE(2, 1)] for ["a"]; applied after the old file is
    truncated to 18 bytes, the read gives 2 bytes instead of 8, the run
    completes without an error, and the target is replaced by a tree whose
    ["a"] holds those 2 bytes. *)
Lemma short_read_counterexample :
  exists p w',
    diff "old" "new" fs_original = Ok p /\
    operations p = [Operation_ BLOCK_RANGE 2 1 [] "a"] /\
    apply_patch p "old" "old" "tmp" (mkWorld fs_truncated []) = Done tt w' /\
    lookup "old" (w_fs w') = Some [("a", Reg (B "CC"))] /\
    lookup "old" (w_fs w') <> lookup "old" fs_truncated.
Proof.
  eexists. eexists. split; [vm_compute; reflexivity|].
  split; [reflexivity|]. split; [vm_compute; reflexivity|].
  split; [reflexivity|discriminate].
Qed.

(** C3, amended: when [apply_patch] processes a [BLOCK_RANGE] operation
    whose target path is an entry name, with an offset
    [block_index * BLOCK_SIZE] and a size [block_span * BLOCK_SIZE] that are
    not negative and below [2^31], on an old file that can be read, no
    error is raised, however few bytes the read at that offset returns: the
    bytes that were read (fewer than [block_span * BLOCK_SIZE], possibly
    none, when the old file is short) are written to the staging file and
    the run goes on.  No run of [apply_patch] raises [PatchApplyError]. *)
Theorem short_read_is_written (old_dir staging_dir : string)
  (op : Operation) (w : world) (b : bytes) (t : tree) :
  op_type op = BLOCK_RANGE ->
  entry_name (target_path op) = true ->
  portable (block_index op * Z.of_nat BLOCK_SIZE) ->
  portable (block_span op * Z.of_nat BLOCK_SIZE) ->
  open_read (at_path old_dir (target_path op) (w_fs w)) = Ok b ->
  lookup staging_dir (w_fs w) = Some t ->
  lookup (target_path op) t = None ->
  apply_operation old_dir staging_dir op w =
    Done tt
      (mkWorld
         (set_entry staging_dir
            (t ++ [(target_path op, Reg (op_output b op))]) (w_fs w))
         (w_trace w
          ++ [EWrite staging_dir (target_path op) (op_output b op)])) /\
  (forall patch new_dir v e v',
      apply_patch patch old_dir new_dir staging_dir v = Raised e v' ->
      e <> PatchApplyError).
Proof.
  intros K _ Hi Hs R Ls Lt. split.
  - unfold apply_operation, bind, read_range, write_file, op_output.
    rewrite K, R, (portable_fits Hi), (portable_fits Hs). cbn [negb].
    destruct Hi as [Hi _]. destruct Hs as [Hs _].
    destruct (Z.ltb_spec (block_index op * Z.of_nat BLOCK_SIZE) 0) as [C|_];
      [lia|].
    destruct (Z.ltb_spec (block_span op * Z.of_nat BLOCK_SIZE) 0) as [C|_];
      [lia|].
    cbn [w_fs]. rewrite Ls, Lt. reflexivity.
  - intros patch new_dir v e v'. apply never_mismatch_apply_patch.
Qed.

Lemma short_read_is_written_witness :
  apply_operation "old" "tmp" (Operation_ BLOCK_RANGE 2 1 [] "a") world_short
  = Done tt
      (mkWorld [("old", [("a", Reg (B "AAAAAAAABBBBBBBBCC"))]);
                ("tmp", [("a", Reg (B "CC"))])]
         [EWrite "tmp" "a" (B "CC")]).
Proof.
  apply (@short_read_is_written "old" "tmp"
           (Operation_ BLOCK_RANGE 2 1 [] "a") world_short
           (B "AAAAAAAABBBBBBBBCC") []).
  - reflexivity.
  - reflexivity.
  - unfold portable. simpl. lia.
  - unfold portable. simpl. lia.
  - reflexivity.
  - reflexivity.
  - reflexivity.
Defined.

(** ** C1: the round trip *)

(** C1, failing input: the old tree holds an empty file ["a"], the new tree
    the same file with nine bytes.  The patch holds one [DATA] operation
    with the first eight bytes, and applying it onto the old tree leaves
    ["a"] with eight bytes, not the nine of the new tree. *)
Theorem round_trip_failing_input :
  exists p w',
    diff "old" "new" fs_grown = Ok p /\
    operations p = [Operation_ DATA 0 0 (B "12345678") "a"] /\
    apply_patch p "old" "old" "tmp" (mkWorld fs_grown []) = Done tt w' /\
    lookup "old" (w_fs w') = Some [("a", Reg (B "12345678"))] /\
    lookup "old" (w_fs w') <> lookup "new" fs_grown.
Proof.
  eexists. eexists. split; [vm_compute; reflexivity|].
  split; [reflexivity|]. split; [vm_compute; reflexivity|].
  split; [reflexivity|discriminate].
Qed.

(** An unchanged file is lost as well: it gets no operation, so it is not
    in the staging directory that replaces the target. *)
Lemma round_trip_unchanged_file :
  exists p w',
    diff "old" "new" fs_unchanged = Ok p /\
    apply_patch p "old" "old" "tmp" (mkWorld fs_unchanged []) = Done tt w' /\
    lookup "old" (w_fs w') = Some [].
Proof.
  eexists. eexists. split; [vm_compute; reflexivity|].
  split; [vm_compute; reflexivity|reflexivity].
Qed.

(** * Further properties of the program *)

(** ** [diff_files]: equal files or [TypeError] *)

Lemma chunk_at_nil_iff b p : chunk_at b p = [] <-> skipn p b = [].
Proof.
  unfold chunk_at, BLOCK_SIZE. destruct (skipn p b); simpl; split;
    intros; congruence.
Qed.

Lemma skipn_chunk b p :
  skipn p b = chunk_at b p ++ skipn (p + length (chunk_at b p)) b.
Proof.
  rewrite Nat.add_comm, <- skipn_skipn.
  pose proof (chunk_at_length b p) as L. unfold chunk_at in *.
  destruct (Nat.le_gt_cases BLOCK_SIZE (length (skipn p b))) as [C|C].
  - rewrite length_firstn, Nat.min_l by assumption.
    symmetry. apply firstn_skipn.
  - rewrite firstn_all2 by lia. rewrite skipn_all. now rewrite app_nil_r.
Qed.

Lemma diff_files_loop_spec budget ob nb p bi ops :
  length ob - p < budget ->
  diff_files_loop budget (chunk_at ob p) (chunk_at nb p)
    (mkHandle ob (p + length (chunk_at ob p)))
    (mkHandle nb (p + length (chunk_at nb p))) bi ops
  = Some (if bytes_eqb (skipn p ob) (skipn p nb)
          then Returns ops else RaisesTypeError).
Proof.
  revert p bi. induction budget as [|budget IH]; intros p bi Hb; [lia|].
  cbn [diff_files_loop].
  destruct (bytes_eqb (chunk_at ob p) (chunk_at nb p)) eqn:E.
  - apply bytes_eqb_eq in E. rewrite <- E.
    destruct (truthy (chunk_at ob p)) eqn:T.
    + cbn [orb]. rewrite !read_chunk.
      rewrite IH.
      * f_equal. rewrite (skipn_chunk ob p), (skipn_chunk nb p), <- E.
        destruct (bytes_eqb (skipn (p + length (chunk_at ob p)) ob)
                    (skipn (p + length (chunk_at ob p)) nb)) eqn:E2.
        -- apply bytes_eqb_eq in E2. rewrite E2.
           now rewrite bytes_eqb_refl.
        -- apply bytes_eqb_neq in E2.
           destruct (bytes_eqb _ _) eqn:E3; [|reflexivity].
           apply bytes_eqb_eq, app_inv_head in E3. contradiction.
      * apply truthy_length in T. pose proof (chunk_at_length ob p). blia.
    + cbn [orb]. apply truthy_false in T.
      assert (So : skipn p ob = []) by now apply chunk_at_nil_iff.
      assert (Sn : skipn p nb = [])
        by (apply chunk_at_nil_iff; now rewrite <- E).
      now rewrite So, Sn.
  - assert (T : truthy (chunk_at ob p) || truthy (chunk_at nb p) = true).
    { destruct (chunk_at ob p), (chunk_at nb p); try reflexivity.
      discriminate. }
    rewrite T. apply bytes_eqb_neq in E.
    destruct (bytes_eqb (skipn p ob) (skipn p nb)) eqn:E2; [|reflexivity].
    apply bytes_eqb_eq in E2. exfalso. apply E. unfold chunk_at.
    now rewrite E2.
Qed.

(** X1: [diff_files] on two paths that open as regular files returns the
    empty operation list when the two files hold the same bytes and raises
    [TypeError] in every other case; a path that does not open raises the
    error of [open], the old path first.  It never returns an operation. *)
Theorem diff_files_equal_or_type_error (old_file_path new_file_path
  : option node) :
  diff_files old_file_path new_file_path =
  Some match open_read old_file_path with
       | Err e => Raises e
       | Ok ob =>
           match open_read new_file_path with
           | Err e => Raises e
           | Ok nb => if bytes_eqb ob nb then Returns [] else RaisesTypeError
           end
       end.
Proof.
  unfold diff_files.
  destruct (open_read old_file_path) as [ob|e]; [|reflexivity].
  destruct (open_read new_file_path) as [nb|e]; [|reflexivity].
  unfold open_handle. rewrite !read_chunk.
  rewrite diff_files_loop_spec by lia. reflexivity.
Qed.

(** ** [find_next_matching_block]: the first block-aligned match *)

Lemma chunk_truthy_lt b p : truthy (chunk_at b p) = true -> p < length b.
Proof.
  intros T. apply truthy_length in T. rewrite chunk_at_length in T. blia.
Qed.

Lemma chunk_nil_end b p : chunk_at b p = [] -> length b <= p.
Proof.
  intros H. apply chunk_at_nil_iff in H.
  pose proof (length_skipn p b) as L. rewrite H in L. simpl in L. lia.
Qed.

Lemma chunk_short_end b p :
  length (chunk_at b p) < BLOCK_SIZE -> length b <= p + length (chunk_at b p).
Proof. rewrite chunk_at_length. blia. Qed.

(** The search loop entered with the chunk read at offset [p]. *)
Lemma find_loop_first budget oc c p r g :
  find_loop budget oc (chunk_at c p)
    (mkHandle c (p + length (chunk_at c p))) = Some (r, g) ->
  contents g = c /\
  match r with
  | Some mb =>
      mb = oc /\ truthy oc = true /\
      exists j, chunk_at c (p + j * BLOCK_SIZE) = oc /\
                (forall i, i < j -> chunk_at c (p + i * BLOCK_SIZE) <> oc) /\
                pos g = p + j * BLOCK_SIZE + length oc
  | None =>
      (forall j, truthy (chunk_at c (p + j * BLOCK_SIZE)) = true ->
                 chunk_at c (p + j * BLOCK_SIZE) <> oc) /\
      length c <= pos g
  end.
Proof.
  revert p. induction budget as [|budget IH]; intros p; [discriminate|].
  cbn [find_loop]. destruct (truthy (chunk_at c p)) eqn:T.
  - destruct (bytes_eqb oc (chunk_at c p)) eqn:E.
    + apply bytes_eqb_eq in E. intros H; inversion H; subst r g.
      split; [reflexivity|]. split; [now symmetry|].
      split; [now rewrite E|]. exists 0. rewrite Nat.add_0_r.
      split; [now symmetry|]. split; [intros i Hi; lia|].
      cbn [pos]. now rewrite E.
    + apply bytes_eqb_neq in E. rewrite read_chunk. intros H.
      apply IH in H. destruct H as [Hc H]. split; [exact Hc|].
      pose proof (chunk_at_length c p) as L.
      destruct (Nat.eq_dec (length (chunk_at c p)) BLOCK_SIZE) as [F|F].
      * (* a full chunk: the search goes on one block further *)
        rewrite F in H.
        assert (A : forall j, p + BLOCK_SIZE + j * BLOCK_SIZE
                              = p + S j * BLOCK_SIZE) by (intros; blia).
        destruct r as [mb|].
        -- destruct H as (H1 & H2 & j & H3 & H4 & H5).
           split; [exact H1|]. split; [exact H2|]. exists (S j).
           rewrite <- A. split; [exact H3|]. split; [|exact H5].
           intros [|i] Hi.
           ++ rewrite Nat.add_0_r. congruence.
           ++ rewrite <- A. apply H4. lia.
        -- destruct H as [H1 H2]. split; [|exact H2].
           intros [|j] Tj.
           ++ rewrite Nat.add_0_r. congruence.
           ++ rewrite <- A in *. now apply H1.
      * (* a short chunk: the file ends here *)
        assert (End_ : length c <= p + length (chunk_at c p))
          by (apply chunk_short_end; blia).
        destruct r as [mb|].
        -- destruct H as (H1 & H2 & j & H3 & _). exfalso.
           rewrite (@chunk_at_end c
                      (p + length (chunk_at c p) + j * BLOCK_SIZE)) in H3
             by lia.
           rewrite <- H3 in H2. discriminate H2.
        -- destruct H as [_ H2]. split; [|exact H2].
           intros [|j] Tj.
           ++ rewrite Nat.add_0_r. congruence.
           ++ apply chunk_truthy_lt in Tj. blia.
  - intros H; inversion H; subst r g. split; [reflexivity|]. split.
    + intros j Tj. apply chunk_truthy_lt in Tj. apply truthy_false in T.
      apply chunk_nil_end in T. blia.
    + cbn [pos]. apply truthy_false in T. apply chunk_nil_end in T. lia.
Qed.

Lemma find_next_matching_block_first oc f r g :
  find_next_matching_block oc f = Some (r, g) ->
  contents g = contents f /\
  match r with
  | Some mb =>
      mb = oc /\ truthy oc = true /\
      exists j, chunk_at (contents f) (pos f + j * BLOCK_SIZE) = oc /\
                (forall i, i < j ->
                   chunk_at (contents f) (pos f + i * BLOCK_SIZE) <> oc) /\
                pos g = pos f + j * BLOCK_SIZE + length oc
  | None =>
      (forall j,
         truthy (chunk_at (contents f) (pos f + j * BLOCK_SIZE)) = true ->
         chunk_at (contents f) (pos f + j * BLOCK_SIZE) <> oc) /\
      length (contents f) <= pos g
  end.
Proof.
  unfold find_next_matching_block. destruct f as [c p].
  rewrite read_chunk. cbn [contents pos]. apply find_loop_first.
Qed.

(** X2: [find_next_matching_block] always returns.  When it returns a
    block, that block is the non-empty [old_chunk], found at the first
    offset [pos + j * BLOCK_SIZE] of the new file whose chunk equals it, and
    the file is left just behind it.  When it returns [None], no chunk of
    the new file at an offset [pos + j * BLOCK_SIZE] equals [old_chunk], and
    the file is left at its end. *)
Theorem find_next_matching_block_is_first_match (old_chunk : bytes)
  (new_file : handle) :
  exists r g,
    find_next_matching_block old_chunk new_file = Some (r, g) /\
    contents g = contents new_file /\
    match r with
    | Some mb =>
        mb = old_chunk /\ truthy old_chunk = true /\
        exists j,
          chunk_at (contents new_file) (pos new_file + j * BLOCK_SIZE)
          = old_chunk /\
          (forall i, i < j ->
             chunk_at (contents new_file) (pos new_file + i * BLOCK_SIZE)
             <> old_chunk) /\
          pos g = pos new_file + j * BLOCK_SIZE + length old_chunk
    | None =>
        (forall j,
           truthy (chunk_at (contents new_file)
                     (pos new_file + j * BLOCK_SIZE)) = true ->
           chunk_at (contents new_file) (pos new_file + j * BLOCK_SIZE)
           <> old_chunk) /\
        length (contents new_file) <= pos g
    end.
Proof.
  destruct (find_next_matching_block_total old_chunk new_file) as [[r g] E].
  exists r, g. split; [exact E|]. now apply find_next_matching_block_first.
Qed.

(** ** The fields of the patch [diff] returns *)

Lemma diff_mixed : diff "old" "new" fs_mixed = Ok patch_mixed.
Proof. vm_compute. reflexivity. Qed.

Lemma well_formed_old_mixed : well_formed old_mixed.
Proof.
  unfold well_formed, old_mixed; simpl.
  repeat constructor; simpl; intuition discriminate.
Qed.

Lemma well_formed_new_mixed : well_formed new_mixed.
Proof.
  unfold well_formed, new_mixed; simpl.
  repeat constructor; simpl; intuition discriminate.
Qed.

Lemma collect_Forall (A : Type) (f : string -> result (list A))
  (P : A -> Prop) l r :
  collect f l = Ok r ->
  (forall x a, In x l -> f x = Ok a -> Forall P a) ->
  Forall P r.
Proof.
  revert r. induction l as [|x l IH]; simpl; intros r H K.
  - inversion H; constructor.
  - destruct (f x) as [a|e] eqn:Fx; [|discriminate].
    destruct (collect f l) as [r'|e]; [|discriminate].
    inversion H; subst. apply Forall_app. split.
    + apply (K x a); auto.
    + apply IH; auto. intros; eapply K; eauto.
Qed.

Lemma diff_extra_file_kind new_dir w file op :
  diff_extra_file new_dir w file = Ok op ->
  op_type op = SYMLINK \/ op_type op = MKDIR \/
  op = Operation_ DATA 0 0 (data op) file.
Proof.
  unfold diff_extra_file.
  destruct (islink (at_path new_dir file w)).
  - destruct (open_read (at_path new_dir file w)); [|discriminate].
    destruct (decode_text a); [|discriminate].
    intros H; inversion H; auto.
  - destruct (isdir (at_path new_dir file w)).
    + intros H; inversion H; auto.
    + destruct (open_read (at_path new_dir file w)); [|discriminate].
      intros H; inversion H; auto.
Qed.

Lemma compare_files_writes file ob nb ops :
  compare_files file ob nb = Some ops ->
  Forall (fun op => writes op = true /\ target_path op = file) ops.
Proof.
  unfold compare_files.
  destruct (read BLOCK_SIZE (open_handle ob)) as [oc fo].
  destruct (read BLOCK_SIZE (open_handle nb)) as [nc fn].
  apply compare_loop_ops.
Qed.

Lemma diff_common_file_kind old_dir new_dir w file ops :
  diff_common_file old_dir new_dir w file = Ok ops ->
  Forall (fun op => op_type op <> DELETE) ops.
Proof.
  unfold diff_common_file.
  destruct (islink _ || islink _).
  - destruct (open_read (at_path new_dir file w)); [|discriminate].
    destruct (decode_text a); [|discriminate].
    intros H; inversion H; subst. repeat constructor; simpl; discriminate.
  - destruct (isdir _ || isdir _).
    + intros H; inversion H; subst. repeat constructor; simpl; discriminate.
    + destruct (open_read (at_path old_dir file w)) as [ob|]; [|discriminate].
      destruct (open_read (at_path new_dir file w)) as [nb|]; [|discriminate].
      destruct (compare_files file ob nb) as [r|] eqn:E; [|discriminate].
      intros H; inversion H; subst. apply compare_files_writes in E.
      eapply Forall_impl; [|exact E]. intros op [W _] D.
      unfold writes in W. rewrite D in W. discriminate.
Qed.

(** X3: the operations of a patch start with one [DELETE] operation for
    each path of [deleted_files], in that order, and no other operation of
    the patch is a [DELETE]. *)
Theorem diff_deletes_first (old_dir new_dir : string) (w : fs) (p : Patch) :
  diff old_dir new_dir w = Ok p ->
  exists rest,
    operations p =
      map (fun file => Operation_ DELETE 0 0 [] file) (deleted_files p)
      ++ rest /\
    Forall (fun op => op_type op <> DELETE) rest.
Proof.
  intros D.
  destruct (diff_inv _ _ _ D) as (told & tnew & ops2 & ops3 & Lo & Ln & C2
                                  & C3 & ->).
  cbn [operations deleted_files]. exists (ops2 ++ ops3).
  split; [reflexivity|]. apply Forall_app. split.
  - eapply collect_Forall; [exact C2|]. intros x a _ Fx. cbv beta in Fx.
    destruct (diff_extra_file new_dir w x) as [op|] eqn:E; [|discriminate].
    inversion Fx; subst. repeat constructor.
    destruct (diff_extra_file_kind _ _ _ E) as [K|[K|K]];
      rewrite K; simpl; discriminate.
  - eapply collect_Forall; [exact C3|]. intros x a _ Fx.
    eapply diff_common_file_kind; eauto.
Qed.

Lemma diff_deletes_first_witness :
  exists rest,
    operations patch_mixed =
      [Operation_ DELETE 0 0 [] "gone"; Operation_ DELETE 0 0 [] "foo"]
      ++ rest /\
    Forall (fun op => op_type op <> DELETE) rest.
Proof.
  exact (@diff_deletes_first "old" "new" fs_mixed patch_mixed diff_mixed).
Defined.

Lemma scan_files_lookup x t :
  well_formed t ->
  (In x (snd (listing t)) <-> isfile (lookup x t) = true).
Proof.
  intros WF. rewrite scan_files_In. split.
  - intros [n [H1 H2]]. rewrite (In_lookup _ _ _ WF H1). exact H2.
  - destruct (lookup x t) as [n|] eqn:L; [|discriminate].
    intros H. exists n. split; [now apply lookup_In|exact H].
Qed.

Lemma scan_dirs_lookup x t :
  well_formed t ->
  (In x (fst (listing t)) <-> isdir (lookup x t) = true).
Proof.
  intros WF. rewrite scan_dirs_In. split.
  - intros [n [H1 H2]]. rewrite (In_lookup _ _ _ WF H1). exact H2.
  - destruct (lookup x t) as [n|] eqn:L; [|discriminate].
    intros H. exists n. split; [now apply lookup_In|exact H].
Qed.

Lemma isfile_not_isdir o : isfile o = true -> isdir o = false.
Proof.
  destruct o as [n|]; [|discriminate]. simpl.
  unfold node_is_file, node_is_dir. destruct (resolve n) as [[]|]; congruence.
Qed.

Lemma set_minus_NoDup a b : NoDup (set_minus a b).
Proof. apply NoDup_filter, set_of_NoDup. Qed.

(** X5: for two trees with distinct entry names, the fields of the patch
    are: [deleted_files], the names that are files in the old tree and not
    in the new one; [extra_files], the names that are files in the new tree
    and not in the old one; [old_dirs] and [new_dirs], the names that are
    directories in the old and in the new tree.  Symbolic links count as
    what they point to, and neither set of paths lists a name twice. *)
Theorem diff_patch_fields (old_dir new_dir : string) (w : fs)
  (told tnew : tree) (p : Patch) :
  lookup old_dir w = Some told -> lookup new_dir w = Some tnew ->
  well_formed told -> well_formed tnew ->
  diff old_dir new_dir w = Ok p ->
  (forall x, In x (deleted_files p) <->
             isfile (lookup x told) = true /\ isfile (lookup x tnew) = false)
  /\
  (forall x, In x (extra_files p) <->
             isfile (lookup x tnew) = true /\ isfile (lookup x told) = false)
  /\
  (forall x, In x (old_dirs p) <-> isdir (lookup x told) = true) /\
  (forall x, In x (new_dirs p) <-> isdir (lookup x tnew) = true) /\
  NoDup (deleted_files p) /\ NoDup (extra_files p).
Proof.
  intros Lo Ln WFo WFn D.
  destruct (diff_inv _ _ _ D) as (told' & tnew' & ops2 & ops3 & Lo' & Ln'
                                  & _ & _ & ->).
  rewrite Lo in Lo'. rewrite Ln in Ln'.
  inversion Lo'; inversion Ln'; subst told' tnew'.
  cbn [deleted_files extra_files old_dirs new_dirs].
  split; [|split; [|split; [|split; [|split]]]].
  - intros x. rewrite set_minus_In, !scan_files_lookup by assumption.
    destruct (isfile (lookup x tnew)); intuition congruence.
  - intros x. rewrite set_minus_In, !scan_files_lookup by assumption.
    destruct (isfile (lookup x told)); intuition congruence.
  - intros x. now apply scan_dirs_lookup.
  - intros x. now apply scan_dirs_lookup.
  - apply set_minus_NoDup.
  - apply set_minus_NoDup.
Qed.

Lemma diff_patch_fields_witness :
  (In "foo" (deleted_files patch_mixed) <->
   isfile (lookup "foo" old_mixed) = true /\
   isfile (lookup "foo" new_mixed) = false) /\
  (In "foo" (new_dirs patch_mixed) <-> isdir (lookup "foo" new_mixed) = true).
Proof.
  destruct (@diff_patch_fields "old" "new" fs_mixed old_mixed new_mixed
              patch_mixed eq_refl eq_refl well_formed_old_mixed
              well_formed_new_mixed diff_mixed) as (H1 & _ & _ & H4 & _).
  split; [apply H1|apply H4].
Defined.

(** X4: for two trees with distinct entry names, no operation of a patch
    that [diff] returns is a [MKDIR]: the names it loops over were scanned
    as files, so the two [isdir] branches (lines 169-172 and 189-191) are
    never taken. *)
Theorem diff_never_mkdir (old_dir new_dir : string) (w : fs)
  (told tnew : tree) (p : Patch) :
  lookup old_dir w = Some told -> lookup new_dir w = Some tnew ->
  well_formed told -> well_formed tnew ->
  diff old_dir new_dir w = Ok p ->
  Forall (fun op => op_type op <> MKDIR) (operations p).
Proof.
  intros Lo Ln WFo WFn D.
  destruct (diff_inv _ _ _ D) as (told' & tnew' & ops2 & ops3 & Lo' & Ln'
                                  & C2 & C3 & ->).
  rewrite Lo in Lo'. rewrite Ln in Ln'.
  inversion Lo'; inversion Ln'; subst told' tnew'.
  cbn [operations]. apply Forall_app. split; [|apply Forall_app; split].
  - unfold diff_deleted. apply Forall_map, Forall_forall.
    intros x _. simpl. discriminate.
  - eapply collect_Forall; [exact C2|]. intros x a Hx Fx. cbv beta in Fx.
    apply set_minus_In in Hx. destruct Hx as [Hx _].
    apply scan_files_lookup in Hx; [|assumption].
    apply isfile_not_isdir in Hx.
    unfold diff_extra_file, at_path in Fx. rewrite Ln, Hx in Fx.
    destruct (islink (lookup x tnew));
      destruct (open_read (lookup x tnew)) as [c|]; try discriminate;
      try (destruct (decode_text c); [|discriminate]);
      inversion Fx; subst; repeat constructor; simpl; discriminate.
  - eapply collect_Forall; [exact C3|]. intros x a Hx Fx.
    apply set_inter_In in Hx. destruct Hx as [Hxo Hxn].
    apply scan_files_lookup in Hxo; [|assumption].
    apply scan_files_lookup in Hxn; [|assumption].
    apply isfile_not_isdir in Hxo. apply isfile_not_isdir in Hxn.
    unfold diff_common_file, at_path in Fx.
    rewrite Lo, Ln, Hxo, Hxn in Fx. cbn [orb] in Fx.
    destruct (islink (lookup x told) || islink (lookup x tnew)).
    + destruct (open_read (lookup x tnew)) as [c|]; [|discriminate].
      destruct (decode_text c); [|discriminate].
      inversion Fx; subst. repeat constructor; simpl; discriminate.
    + destruct (open_read (lookup x told)) as [ob|]; [|discriminate].
      destruct (open_read (lookup x tnew)) as [nb|]; [|discriminate].
      destruct (compare_files x ob nb) as [r|] eqn:E; [|discriminate].
      inversion Fx; subst. apply compare_files_writes in E.
      eapply Forall_impl; [|exact E]. intros op [W _] K.
      unfold writes in W. rewrite K in W. discriminate.
Qed.

Lemma diff_never_mkdir_witness :
  Forall (fun op => op_type op <> MKDIR) (operations patch_mixed).
Proof.
  exact (@diff_never_mkdir "old" "new" fs_mixed old_mixed new_mixed
           patch_mixed eq_refl eq_refl well_formed_old_mixed
           well_formed_new_mixed diff_mixed).
Defined.

(** ** Files that exist only in the new tree *)

Lemma diff_added_file_ops old_dir new_dir w told tnew p file b :
  lookup old_dir w = Some told -> lookup new_dir w = Some tnew ->
  well_formed told ->
  diff old_dir new_dir w = Ok p ->
  lookup file tnew = Some (Reg b) -> isfile (lookup file told) = false ->
  file_ops file (operations p) = [Operation_ DATA 0 0 b file].
Proof.
  intros Lo Ln WFo D Fn Fo.
  destruct (diff_inv _ _ _ D) as (told' & tnew' & ops2 & ops3 & Lo' & Ln'
                                  & C2 & C3 & ->).
  rewrite Lo in Lo'. rewrite Ln in Ln'.
  inversion Lo'; inversion Ln'; subst told' tnew'.
  cbn [operations]. rewrite !file_ops_app, file_ops_deleted. cbn [app].
  assert (In_ : In file (snd (listing tnew)))
    by (eapply lookup_file_scanned; eauto).
  assert (No : ~ In file (snd (listing told))).
  { rewrite scan_files_lookup by assumption. congruence. }
  unfold file_ops at 2. rewrite (@collect_filter_none _ _ _ _ _ C3).
  2: { intros x a Hx Fx. apply set_inter_In in Hx.
       apply (@file_ops_other file x).
       - intros ->. tauto.
       - eapply diff_common_file_ops; eauto. }
  rewrite app_nil_r.
  destruct (@collect_filter_one _ _
              (fun op => writes op && String.eqb (target_path op) file)
              _ _ file C2) as [a [Fa Ha]].
  - apply set_minus_NoDup.
  - apply set_minus_In; auto.
  - intros x a Hx Nx Fx. cbv beta in Fx.
    destruct (diff_extra_file new_dir w x) as [op|] eqn:E; [|discriminate].
    inversion Fx; subst. simpl.
    destruct (writes op) eqn:W; [|reflexivity].
    rewrite (diff_extra_file_op _ _ _ E W).
    apply String.eqb_neq in Nx. now rewrite Nx.
  - unfold file_ops. rewrite Ha. cbv beta in Fa.
    unfold diff_extra_file, at_path in Fa. rewrite Ln, Fn in Fa.
    simpl in Fa. inversion Fa; subst. simpl.
    now rewrite String.eqb_refl.
Qed.

(** X6: a name that is a regular file (not a link) in the new tree and no
    file in the old tree gets exactly one operation that writes to it: a
    [DATA] operation carrying the whole content of the new file. *)
Theorem diff_added_file (old_dir new_dir : string) (w : fs)
  (told tnew : tree) (p : Patch) (file : string) (b : bytes) :
  lookup old_dir w = Some told -> lookup new_dir w = Some tnew ->
  well_formed told ->
  diff old_dir new_dir w = Ok p ->
  lookup file tnew = Some (Reg b) -> isfile (lookup file told) = false ->
  file_ops file (operations p) = [Operation_ DATA 0 0 b file] /\
  In file (extra_files p).
Proof.
  intros Lo Ln WFo D Fn Fo. split.
  - apply (@diff_added_file_ops old_dir new_dir w told tnew p file b);
      assumption.
  - destruct (diff_inv _ _ _ D) as (told' & tnew' & ops2 & ops3 & Lo' & Ln'
                                    & _ & _ & ->).
    rewrite Lo in Lo'. rewrite Ln in Ln'.
    inversion Lo'; inversion Ln'; subst told' tnew'.
    cbn [extra_files]. apply set_minus_In. split.
    + eapply lookup_file_scanned; eauto.
    + rewrite scan_files_lookup by assumption. congruence.
Qed.

Lemma diff_added_file_witness :
  file_ops "b" (operations patch_mixed) = [Operation_ DATA 0 0 (B "hello") "b"]
  /\ In "b" (extra_files patch_mixed).
Proof.
  apply (@diff_added_file "old" "new" fs_mixed old_mixed new_mixed
           patch_mixed "b" (B "hello") eq_refl eq_refl well_formed_old_mixed
           diff_mixed).
  - reflexivity.
  - reflexivity.
Defined.

(** ** [diff] never reads where a link points *)

Lemma resolve_retarget (n : node) :
  resolve (retarget n) = resolve n.
Proof.
  revert n. fix IH 1. intros n.
  destruct n as [b|c|t [n'|]|t|]; simpl; try reflexivity.
  apply IH.
Qed.

Lemma node_is_link_retarget n : node_is_link (retarget n) = node_is_link n.
Proof. destruct n as [| |? []| |]; reflexivity. Qed.

Lemma lookup_retarget_tree name t :
  lookup name (retarget_tree t) = option_map retarget (lookup name t).
Proof.
  induction t as [|[k n] t IH]; simpl; [reflexivity|].
  destruct (String.eqb k name); auto.
Qed.

Lemma lookup_retarget_fs root w :
  lookup root (retarget_fs w) = option_map retarget_tree (lookup root w).
Proof.
  induction w as [|[k t] w IH]; simpl; [reflexivity|].
  destruct (String.eqb k root); auto.
Qed.

Lemma stat_fails_retarget (n : node) :
  stat_fails (retarget n) = stat_fails n.
Proof.
  revert n. fix IH 1. intros n.
  destruct n as [b|c|t [n'|]|t|]; simpl; try reflexivity.
  apply IH.
Qed.

Lemma scan_entries_retarget t :
  scan_entries (retarget_tree t) = scan_entries t.
Proof.
  induction t as [|[k n] t IH]; cbn [retarget_tree map scan_entries fst snd];
    [reflexivity|].
  unfold entry_is_dir, entry_is_file, node_is_dir, node_is_file.
  fold (retarget_tree t).
  now rewrite IH, stat_fails_retarget, resolve_retarget.
Qed.

Lemma at_path_retarget root name w :
  at_path root name (retarget_fs w)
  = option_map retarget (at_path root name w).
Proof.
  unfold at_path. rewrite lookup_retarget_fs.
  destruct (lookup root w); simpl; [apply lookup_retarget_tree|reflexivity].
Qed.

Lemma islink_retarget o : islink (option_map retarget o) = islink o.
Proof. destruct o; simpl; [apply node_is_link_retarget|reflexivity]. Qed.

Lemma isdir_retarget o : isdir (option_map retarget o) = isdir o.
Proof.
  destruct o; simpl; [|reflexivity].
  unfold node_is_dir. now rewrite resolve_retarget.
Qed.

Lemma open_read_retarget o : open_read (option_map retarget o) = open_read o.
Proof.
  destruct o; simpl; [|reflexivity].
  now rewrite resolve_retarget, stat_fails_retarget.
Qed.

Lemma diff_retarget old_dir new_dir w :
  diff old_dir new_dir (retarget_fs w) = diff old_dir new_dir w.
Proof.
  unfold diff, scan_dir. rewrite !lookup_retarget_fs.
  destruct (lookup old_dir w) as [told|]; simpl; [|reflexivity].
  rewrite scan_entries_retarget.
  destruct (scan_entries told) as [[od of_]|]; [|reflexivity].
  destruct (lookup new_dir w) as [tnew|]; simpl; [|reflexivity].
  rewrite scan_entries_retarget.
  destruct (scan_entries tnew) as [[nd nf]|]; [|reflexivity].
  rewrite (@collect_ext _ _
             (fun file => match diff_extra_file new_dir w file with
                          | Ok op => Ok [op]
                          | Err e => Err e
                          end)).
  2: { intros x. unfold diff_extra_file.
       now rewrite at_path_retarget, islink_retarget, isdir_retarget,
         open_read_retarget. }
  rewrite (@collect_ext _ (diff_common_file old_dir new_dir (retarget_fs w))
             (diff_common_file old_dir new_dir w)); [reflexivity|].
  intros x. unfold diff_common_file.
  now rewrite !at_path_retarget, !islink_retarget, !isdir_retarget,
    !open_read_retarget.
Qed.



(** ** The shape of the operations of one file *)

Lemma chunk_at_le b p : length (chunk_at b p) <= BLOCK_SIZE.
Proof. rewrite chunk_at_length. lia. Qed.

Lemma read_handle f :
  read BLOCK_SIZE f =
  (chunk_at (contents f) (pos f),
   mkHandle (contents f) (pos f + length (chunk_at (contents f) (pos f)))).
Proof. destruct f as [c p]. apply read_chunk. Qed.

(** The loop over the chunks, entered with the chunk of the new file read
    at offset [q]: some [BLOCK_RANGE] operations, then at most one [DATA]
    operation, which carries a non-empty chunk of the new file. *)
Lemma compare_loop_shape budget file oc nc fo fn q ops :
  nc = chunk_at (contents fn) q -> pos fn = q + length nc ->
  compare_loop budget file oc nc fo fn = Some ops ->
  exists brs tail,
    ops = brs ++ tail /\
    Forall (fun op => op_type op = BLOCK_RANGE /\ target_path op = file /\
                      (0 <= block_index op)%Z /\
                      (0 <= block_span op <= 1)%Z /\ data op = []) brs /\
    (tail = [] \/
     exists q', tail = [Operation_ DATA 0 0 (chunk_at (contents fn) q') file]
                /\ truthy (chunk_at (contents fn) q') = true).
Proof.
  revert oc nc fo fn q ops.
  induction budget as [|budget IH]; intros oc nc fo fn q ops Hn Hp;
    [discriminate|].
  cbn [compare_loop].
  assert (DataTail : truthy nc = true ->
            exists brs tail,
              [Operation_ DATA 0 0 nc file] = brs ++ tail /\
              Forall (fun op => op_type op = BLOCK_RANGE /\
                                target_path op = file /\
                                (0 <= block_index op)%Z /\
                                (0 <= block_span op <= 1)%Z /\
                                data op = []) brs /\
              (tail = [] \/
               exists q', tail = [Operation_ DATA 0 0
                                    (chunk_at (contents fn) q') file]
                          /\ truthy (chunk_at (contents fn) q') = true)).
  { intros T. exists [], [Operation_ DATA 0 0 nc file].
    split; [reflexivity|]. split; [constructor|]. right. exists q.
    rewrite <- Hn. auto. }
  destruct (truthy oc && truthy nc) eqn:TT.
  - apply andb_true_iff in TT. destruct TT as [To Tn].
    destruct (negb (bytes_eqb oc nc)).
    + destruct (find_next_matching_block oc fn) as [[r g]|] eqn:F;
        [|discriminate].
      destruct (find_next_matching_block_first _ _ F) as [Hc Hr].
      destruct r as [mb|].
      * destruct Hr as (Hm & _ & j & Hj & _ & Hg). subst mb. rewrite To.
        rewrite (read_handle g).
        destruct (read BLOCK_SIZE fo) as [c2 g2].
        rewrite read_handle. cbn [contents pos].
        destruct (compare_loop budget file c2 _ g2 _) as [r|] eqn:E;
          [|discriminate].
        intros H; inversion H; subst ops. clear H.
        apply (IH _ _ _ _
                 (pos g + length (chunk_at (contents g) (pos g)))) in E;
          [|reflexivity|reflexivity].
        cbn [contents] in E. rewrite Hc in E.
        destruct E as (brs & tail & E1 & E2 & E3).
        exists (Operation_ BLOCK_RANGE
                  (Z.of_nat (tell g) / Z.of_nat BLOCK_SIZE - 1)
                  (Z.of_nat (length oc) / Z.of_nat BLOCK_SIZE) [] file
                :: brs), tail.
        split; [now rewrite E1|]. split; [|exact E3].
        constructor; [|exact E2]. unfold Operation_.
        cbn [op_type target_path block_index block_span data].
        split; [reflexivity|]. split; [reflexivity|].
        assert (Lo : length oc <= BLOCK_SIZE)
          by (rewrite <- Hj; apply chunk_at_le).
        assert (Full : BLOCK_SIZE <= pos fn).
        { assert (T : truthy (chunk_at (contents fn)
                                (pos fn + j * BLOCK_SIZE)) = true)
            by now rewrite Hj.
          apply chunk_truthy_lt in T.
          destruct (Nat.eq_dec (length nc) BLOCK_SIZE) as [K|K]; [lia|].
          pose proof (chunk_at_le (contents fn) q) as L1.
          pose proof (@chunk_short_end (contents fn) q) as L2.
          rewrite <- Hn in L1, L2. lia. }
        apply truthy_length in To. unfold tell. rewrite Hg.
        unfold BLOCK_SIZE in *. change (Z.of_nat 8) with 8%Z.
        split; [|split; [split|reflexivity]].
        -- assert (1 <= Z.of_nat (pos fn + j * 8 + length oc) / 8)%Z;
             [|lia].
           apply Z.div_le_lower_bound; lia.
        -- apply Z.div_pos; lia.
        -- apply Z.div_le_upper_bound; lia.
      * intros H; inversion H; subst ops. now apply DataTail.
    + destruct (read BLOCK_SIZE fo) as [c2 g2].
      rewrite read_handle. intros E.
      apply (IH _ _ _ _ (pos fn)) in E; [|reflexivity|reflexivity].
      exact E.
  - destruct (negb (truthy oc) && truthy nc) eqn:E.
    + apply andb_true_iff in E. destruct E as [_ Tn].
      intros H; inversion H; subst ops. now apply DataTail.
    + intros H; inversion H; subst ops. exists [], [].
      split; [reflexivity|]. split; [constructor|now left].
Qed.

Lemma compare_files_shape file ob nb ops :
  compare_files file ob nb = Some ops ->
  exists brs tail,
    ops = brs ++ tail /\
    Forall (fun op => op_type op = BLOCK_RANGE /\ target_path op = file /\
                      (0 <= block_index op)%Z /\
                      (0 <= block_span op <= 1)%Z /\ data op = []) brs /\
    (tail = [] \/
     exists q', tail = [Operation_ DATA 0 0 (chunk_at nb q') file]
                /\ truthy (chunk_at nb q') = true).
Proof.
  rewrite compare_files_unfold. intros H.
  apply (@compare_loop_shape _ _ _ _ _ _ 0) in H;
    [exact H|reflexivity|reflexivity].
Qed.

(** X8: every [BLOCK_RANGE] operation of a patch returned by [diff] has a
    block index that is not negative, a span of 0 or 1 block, and no data:
    [apply_patch] never sees a negative seek offset or read size in it. *)
Theorem diff_block_ranges_ok (old_dir new_dir : string) (w : fs) (p : Patch) :
  diff old_dir new_dir w = Ok p ->
  Forall block_range_ok (operations p).
Proof.
  intros D.
  destruct (diff_inv _ _ _ D) as (told & tnew & ops2 & ops3 & Lo & Ln & C2
                                  & C3 & ->).
  cbn [operations]. apply Forall_app. split; [|apply Forall_app; split].
  - unfold diff_deleted. apply Forall_map, Forall_forall.
    intros x _ K. discriminate K.
  - eapply collect_Forall; [exact C2|]. intros x a _ Fx. cbv beta in Fx.
    destruct (diff_extra_file new_dir w x) as [op|] eqn:E; [|discriminate].
    inversion Fx; subst. constructor; [|constructor]. intros K.
    destruct (diff_extra_file_kind _ _ _ E) as [K'|[K'|K']];
      [congruence|congruence|].
    rewrite K' in K. discriminate K.
  - eapply collect_Forall; [exact C3|]. intros x a _ Fx.
    unfold diff_common_file in Fx.
    destruct (islink _ || islink _).
    + destruct (open_read (at_path new_dir x w)); [|discriminate].
      destruct (decode_text _); [|discriminate].
      inversion Fx; subst. constructor; [|constructor]. intros K. discriminate K.
    + destruct (isdir _ || isdir _).
      * inversion Fx; subst. constructor; [|constructor]. intros K. discriminate K.
      * destruct (open_read (at_path old_dir x w)) as [ob|]; [|discriminate].
        destruct (open_read (at_path new_dir x w)) as [nb|]; [|discriminate].
        destruct (compare_files x ob nb) as [r|] eqn:E; [|discriminate].
        inversion Fx; subst.
        destruct (compare_files_shape _ _ _ E)
          as (brs & tail & -> & Hb & Ht).
        apply Forall_app. split.
        -- eapply Forall_impl; [|exact Hb].
           intros op (_ & _ & H1 & H2 & H3) _. auto.
        -- destruct Ht as [->|[q [-> _]]]; [constructor|].
           constructor; [|constructor]. intros K. discriminate K.
Qed.

Lemma diff_block_ranges_ok_witness :
  Forall block_range_ok (operations patch_mixed) /\
  In (Operation_ BLOCK_RANGE 2 1 [] "a") (operations patch_mixed).
Proof.
  split.
  - exact (@diff_block_ranges_ok "old" "new" fs_mixed patch_mixed diff_mixed).
  - simpl. auto.
Defined.

(** X9: for a path that is a regular file (not a link) in both trees, the
    operations that write to it are some [BLOCK_RANGE] operations followed
    by at most one [DATA] operation, and that [DATA] operation carries one
    non-empty chunk of the new file, so at most [BLOCK_SIZE] bytes. *)
Theorem diff_common_file_shape (old_dir new_dir : string) (w : fs)
  (p : Patch) (file : string) (ob nb : bytes) :
  diff old_dir new_dir w = Ok p ->
  at_path old_dir file w = Some (Reg ob) ->
  at_path new_dir file w = Some (Reg nb) ->
  exists brs tail,
    file_ops file (operations p) = brs ++ tail /\
    Forall (fun op => op_type op = BLOCK_RANGE) brs /\
    (tail = [] \/
     exists q, tail = [Operation_ DATA 0 0 (chunk_at nb q) file] /\
               chunk_at nb q <> [] /\
               length (chunk_at nb q) <= BLOCK_SIZE).
Proof.
  intros D Ho Hn.
  pose proof (diff_file_ops _ _ _ _ D Ho Hn) as C.
  destruct (compare_files_shape _ _ _ C) as (brs & tail & E & Hb & Ht).
  exists brs, tail. split; [exact E|]. split.
  - eapply Forall_impl; [|exact Hb]. intros op [H _]. exact H.
  - destruct Ht as [->|[q [-> T]]]; [now left|right].
    exists q. split; [reflexivity|]. split; [|apply chunk_at_le].
    intros K. rewrite K in T. discriminate T.
Qed.

Lemma diff_common_file_shape_witness :
  exists brs tail,
    file_ops "a" (operations patch_mixed) = brs ++ tail /\
    Forall (fun op => op_type op = BLOCK_RANGE) brs /\
    (tail = [] \/
     exists q,
       tail = [Operation_ DATA 0 0
                 (chunk_at (B "AAAAAAAAXXXXXXXXBBBBBBBBYYYYYYYYZZ") q) "a"] /\
       chunk_at (B "AAAAAAAAXXXXXXXXBBBBBBBBYYYYYYYYZZ") q <> [] /\
       length (chunk_at (B "AAAAAAAAXXXXXXXXBBBBBBBBYYYYYYYYZZ") q)
       <= BLOCK_SIZE).
Proof.
  apply (@diff_common_file_shape "old" "new" fs_mixed patch_mixed "a"
           (B "AAAAAAAABBBBBBBBCCCCCCCC")
           (B "AAAAAAAAXXXXXXXXBBBBBBBBYYYYYYYYZZ") diff_mixed).
  - reflexivity.
  - reflexivity.
Defined.

(** ** What the staging directory holds *)

Lemma last_write_cons k op rest :
  last_write k (op :: rest) =
  match last_write k rest with
  | Some o => Some o
  | None =>
      if writes op && String.eqb (target_path op) k then Some op else None
  end.
Proof.
  unfold last_write, file_ops. cbn [filter].
  destruct (writes op && String.eqb (target_path op) k).
  - cbn [rev]. destruct (rev (filter _ rest)); reflexivity.
  - destruct (rev (filter _ rest)); reflexivity.
Qed.

Lemma written_ext old_dir f f' op :
  lookup old_dir f = lookup old_dir f' ->
  written old_dir f op = written old_dir f' op.
Proof. intros H. unfold written, at_path. now rewrite H. Qed.

Lemma write_file_done s name b w w' t :
  write_file s name b w = Done tt w' ->
  lookup s (w_fs w) = Some t -> plain (lookup name t) ->
  exists t',
    lookup s (w_fs w') = Some t' /\
    (forall k, lookup k t' =
               if String.eqb name k then Some (Reg b) else lookup k t) /\
    (forall r, r <> s -> lookup r (w_fs w') = lookup r (w_fs w)).
Proof.
  unfold write_file, emit. intros H L P. rewrite L in H.
  destruct (lookup name t) as [n|] eqn:Ln.
  - destruct n as [c|c|? ?|?|]; simpl in P; try contradiction;
      simpl in H; [|discriminate].
    inversion H; subst. cbn [w_fs]. rewrite lookup_set_eq.
    eexists. split; [reflexivity|]. split.
    + intros k. destruct (String.eqb name k) eqn:E.
      * apply String.eqb_eq in E. subst. apply lookup_set_eq.
      * apply String.eqb_neq in E. apply lookup_set_neq. congruence.
    + intros r Hr. now apply lookup_set_neq.
  - inversion H; subst. cbn [w_fs]. rewrite lookup_set_eq.
    eexists. split; [reflexivity|]. split.
    + intros k. rewrite lookup_app. simpl.
      destruct (String.eqb name k) eqn:E.
      * apply String.eqb_eq in E. subst. now rewrite Ln.
      * now destruct (lookup k t).
    + intros r Hr. now apply lookup_set_neq.
Qed.

Lemma read_range_done root name off n w d w' :
  read_range root name off n w = Done d w' ->
  w' = w /\
  exists b, open_read (at_path root name (w_fs w)) = Ok b /\
            d = firstn (Z.to_nat n) (skipn (Z.to_nat off) b).
Proof.
  unfold read_range.
  destruct (open_read (at_path root name (w_fs w))) as [b|]; [|discriminate].
  destruct (fits_word off); [|discriminate].
  destruct (off <? 0)%Z; [discriminate|].
  destruct (fits_word n); [|discriminate].
  destruct (n <? 0)%Z; [discriminate|].
  intros H; inversion H; subst. split; [reflexivity|].
  exists b. split; reflexivity.
Qed.

Lemma apply_operation_done old_dir s op w w' t :
  apply_operation old_dir s op w = Done tt w' ->
  lookup s (w_fs w) = Some t -> (forall k, plain (lookup k t)) ->
  exists t',
    lookup s (w_fs w') = Some t' /\
    (forall k, lookup k t' =
               if writes op && String.eqb (target_path op) k
               then Some (Reg (written old_dir (w_fs w) op))
               else lookup k t) /\
    (forall r, r <> s -> lookup r (w_fs w') = lookup r (w_fs w)).
Proof.
  unfold apply_operation, writes, written. intros H L P.
  destruct (op_type op) eqn:K.
  - destruct (@write_file_done _ _ _ _ _ _ H L (P _)) as (t' & H1 & H2 & H3).
    exists t'. auto.
  - apply bind_done in H. destruct H as (d & w1 & R & H).
    apply read_range_done in R. destruct R as [-> (b & Ob & ->)].
    destruct (@write_file_done _ _ _ _ _ _ H L (P _)) as (t' & H1 & H2 & H3).
    exists t'. rewrite Ob. unfold op_output. rewrite K. auto.
  - inversion H; subst. exists t. auto.
  - inversion H; subst. exists t. auto.
  - inversion H; subst. exists t. auto.
Qed.

Lemma plain_after_write (t t' : tree) (c : string -> bool) (b : bytes) :
  (forall k, plain (lookup k t)) ->
  (forall k, lookup k t' = if c k then Some (Reg b) else lookup k t) ->
  forall k, plain (lookup k t').
Proof.
  intros P H k. rewrite H. destruct (c k); [exact I|apply P].
Qed.

Lemma apply_operations_done old_dir s ops w w' t :
  for_each ops (apply_operation old_dir s) w = Done tt w' ->
  s <> old_dir ->
  lookup s (w_fs w) = Some t -> (forall k, plain (lookup k t)) ->
  exists t',
    lookup s (w_fs w') = Some t' /\
    (forall k, lookup k t' =
               match last_write k ops with
               | Some op => Some (Reg (written old_dir (w_fs w) op))
               | None => lookup k t
               end) /\
    (forall r, r <> s -> lookup r (w_fs w') = lookup r (w_fs w)).
Proof.
  revert w t. induction ops as [|op ops IH]; intros w t H Ns L P.
  - inversion H; subst. exists t. auto.
  - cbn [for_each] in H. apply bind_done in H.
    destruct H as ([] & w1 & H1 & H2).
    destruct (@apply_operation_done _ _ _ _ _ _ H1 L P) as (t1 & L1 & S1 & F1).
    assert (P1 : forall k, plain (lookup k t1)).
    { eapply plain_after_write; [exact P|]. intros k. apply (S1 k). }
    destruct (IH _ _ H2 Ns L1 P1) as (t' & L' & S' & F').
    exists t'. split; [exact L'|]. split.
    + intros k. rewrite S', last_write_cons, S1.
      destruct (last_write k ops) as [o|].
      * f_equal. f_equal. apply written_ext. apply F1. auto.
      * now destruct (writes op && String.eqb (target_path op) k).
    + intros r Hr. rewrite F', F1; auto.
Qed.

Lemma makedirs_done s d w w' t (D : list string) :
  makedirs s d w = Done tt w' ->
  lookup s (w_fs w) = Some t ->
  (forall k, lookup k t = if mem k D then Some (Directory []) else None) ->
  exists t',
    lookup s (w_fs w') = Some t' /\
    (forall k, lookup k t' =
               if mem k (d :: D) then Some (Directory []) else None).
Proof.
  unfold makedirs, emit. intros H L S. rewrite L in H.
  assert (M_ : forall k, mem k (d :: D) = String.eqb k d || mem k D)
    by reflexivity.
  destruct (lookup d t) as [n|] eqn:Ld.
  - destruct (node_is_dir n); [|discriminate]. inversion H; subst.
    exists t. split; [exact L|]. intros k. rewrite M_, S.
    destruct (String.eqb k d) eqn:E; [|reflexivity].
    apply String.eqb_eq in E. subst k. rewrite S in Ld.
    destruct (mem d D); [reflexivity|discriminate].
  - inversion H; subst. cbn [w_fs]. rewrite lookup_set_eq.
    eexists. split; [reflexivity|]. intros k.
    rewrite lookup_app, M_, S. simpl.
    destruct (mem k D) eqn:Mk; [now rewrite orb_true_r|].
    rewrite orb_false_r, String.eqb_sym.
    destruct (String.eqb k d); reflexivity.
Qed.

Lemma create_dirs_done s dirs w w' t (D : list string) :
  for_each dirs (fun dir_path => makedirs s dir_path) w = Done tt w' ->
  lookup s (w_fs w) = Some t ->
  (forall k, lookup k t = if mem k D then Some (Directory []) else None) ->
  exists t',
    lookup s (w_fs w') = Some t' /\
    (forall k, lookup k t' =
               if mem k D || mem k dirs then Some (Directory []) else None).
Proof.
  revert w t D. induction dirs as [|d dirs IH]; intros w t D H L S.
  - inversion H; subst. exists t. split; [exact L|]. intros k.
    rewrite S. simpl. now rewrite orb_false_r.
  - cbn [for_each] in H. apply bind_done in H.
    destruct H as ([] & w1 & H1 & H2).
    destruct (@makedirs_done _ _ _ _ _ _ H1 L S) as (t1 & L1 & S1).
    destruct (IH _ _ _ H2 L1 S1) as (t' & L' & S').
    exists t'. split; [exact L'|]. intros k. rewrite S'.
    unfold mem; simpl. fold (mem k D). fold (mem k dirs).
    destruct (String.eqb k d), (mem k D), (mem k dirs); reflexivity.
Qed.

Lemma mkdtemp_done s w w' :
  mkdtemp s w = Done tt w' ->
  lookup s (w_fs w) = None /\ lookup s (w_fs w') = Some [] /\
  (forall r, r <> s -> lookup r (w_fs w') = lookup r (w_fs w)).
Proof.
  unfold mkdtemp, emit. destruct (lookup s (w_fs w)) eqn:L; [discriminate|].
  intros H; inversion H; subst. cbn [w_fs]. split; [reflexivity|].
  split; [apply lookup_set_eq|]. intros r Hr. now apply lookup_set_neq.
Qed.

(** Once the staging phase is done, the staging directory holds, under
    each name, the output of the last operation writing to it, or an empty
    directory for a name of [new_dirs] that no operation writes to. *)
Lemma stage_done patch old_dir s w w1 :
  stage patch old_dir s w = Done tt w1 ->
  s <> old_dir ->
  exists t1,
    lookup s (w_fs w1) = Some t1 /\
    (forall k, lookup k t1 =
               staged_entry old_dir (w_fs w) (new_dirs patch)
                 (operations patch) k) /\
    (forall r, r <> s -> lookup r (w_fs w1) = lookup r (w_fs w)).
Proof.
  unfold stage, create_missing_dirs, apply_operations. intros H Ns.
  apply bind_done in H. destruct H as ([] & w0 & H0 & H).
  apply bind_done in H. destruct H as ([] & wd & Hd & Ho).
  destruct (@mkdtemp_done _ _ _ H0) as (_ & L0 & F0).
  destruct (@create_dirs_done _ _ _ _ _ [] Hd L0) as (td & Ld & Sd).
  { intros k. reflexivity. }
  assert (Fd : forall r, r <> s -> lookup r (w_fs wd) = lookup r (w_fs w0)).
  { destruct (@touches_for_each s (staging_event s) _ (new_dirs patch)
                (fun dir_path => makedirs s dir_path)
                (fun x _ => touches_makedirs s x) w0) as [F _].
    rewrite Hd in F. exact F. }
  destruct (@apply_operations_done _ _ _ _ _ _ Ho Ns Ld) as (t1 & L1 & S1 & F1).
  { intros k. rewrite Sd. simpl. now destruct (mem k (new_dirs patch)). }
  exists t1. split; [exact L1|]. split.
  - intros k. rewrite S1, Sd. unfold staged_entry. simpl.
    destruct (last_write k (operations patch)); [|reflexivity].
    f_equal. f_equal. apply written_ext. rewrite Fd, F0; auto.
  - intros r Hr. rewrite F1, Fd, F0; auto.
Qed.

(** ** What a completed run of [apply_patch] leaves *)

Lemma apply_patch_done (patch : Patch)
  (old_dir new_dir staging_dir : string) (w w' : world) :
  apply_patch patch old_dir new_dir staging_dir w = Done tt w' ->
  staging_dir <> old_dir ->
  exists t',
    lookup new_dir (w_fs w') = Some t' /\
    (forall k, lookup k t' =
               staged_entry old_dir (w_fs w) (new_dirs patch)
                 (operations patch) k) /\
    lookup staging_dir (w_fs w') = None /\
    (forall r, r <> new_dir -> r <> staging_dir ->
               lookup r (w_fs w') = lookup r (w_fs w)).
Proof.
  intros H Ns. rewrite apply_patch_stage in H.
  apply bind_done in H. destruct H as ([] & w1 & H1 & H).
  apply bind_done in H. destruct H as ([] & w2 & H2 & H).
  apply bind_done in H. destruct H as ([] & w3 & H3 & H4).
  destruct (@stage_done _ _ _ _ _ H1 Ns) as (t1 & L1 & S1 & F1).
  destruct (touches_delete_extra_files patch new_dir w1) as [F2 _].
  rewrite H2 in F2. simpl in F2.
  destruct (rmtree_done _ _ H3) as [_ S3].
  destruct (move_done _ _ _ H4) as (staged & Ls & Ld & _ & S4).
  assert (Nn : staging_dir <> new_dir) by congruence.
  assert (E : staged = t1).
  { rewrite S3, lookup_remove_neq, F2, L1 in Ls by assumption.
    congruence. }
  subst staged. exists t1. split; [|split; [exact S1|split]].
  - rewrite S4. apply lookup_set_eq.
  - rewrite S4, lookup_set_neq by assumption. apply lookup_remove_eq.
  - intros r Hn Hs. rewrite S4, lookup_set_neq, lookup_remove_neq, S3,
      lookup_remove_neq, F2, F1 by assumption. reflexivity.
Qed.

(** X11: for a patch whose paths are entry names, when [apply_patch]
    completes (the staging directory not being the old directory), the
    target directory holds exactly this: under each
    name that some [DATA] or [BLOCK_RANGE] operation writes to, a regular
    file with the output of the last such operation alone (every write
    truncates, none appends); under each other name of [new_dirs], an empty
    directory; nothing else.  What the target held before plays no part.
    The staging directory is gone, and every other root is as before. *)
Theorem apply_patch_result (patch : Patch)
  (old_dir new_dir staging_dir : string) (w w' : world) :
  entry_names patch ->
  apply_patch patch old_dir new_dir staging_dir w = Done tt w' ->
  staging_dir <> old_dir ->
  exists t',
    lookup new_dir (w_fs w') = Some t' /\
    (forall k, lookup k t' =
               staged_entry old_dir (w_fs w) (new_dirs patch)
                 (operations patch) k) /\
    lookup staging_dir (w_fs w') = None /\
    (forall r, r <> new_dir -> r <> staging_dir ->
               lookup r (w_fs w') = lookup r (w_fs w)).
Proof. intros _. apply apply_patch_done. Qed.

Lemma apply_patch_result_witness :
  exists w' t',
    apply_patch patch_mixed "old" "live" "tmp" (mkWorld fs_mixed [])
      = Done tt w' /\
    lookup "live" (w_fs w') = Some t' /\
    lookup "a" t' = Some (Reg (B "ZZ")) /\
    lookup "e" t' = Some (Directory []) /\
    lookup "stale" t' = None.
Proof.
  destruct (@apply_patch_result patch_mixed "old" "live" "tmp"
              (mkWorld fs_mixed [])
              (world_of (apply_patch patch_mixed "old" "live" "tmp"
                           (mkWorld fs_mixed []))))
    as (t' & L & S & _).
  - reflexivity.
  - vm_compute. reflexivity.
  - discriminate.
  - eexists _, t'. split; [vm_compute; reflexivity|].
    split; [exact L|]. rewrite !S. repeat split.
Defined.

(** ** Which directories [apply_patch] touches *)

Lemma spares_bind (A C : Type) a b (m : M A) (k : A -> M C) :
  spares a b m -> (forall x, spares a b (k x)) -> spares a b (bind m k).
Proof.
  intros Hm Hk w r Ha Hb. unfold bind. specialize (Hm w r Ha Hb).
  destruct (m w) as [x w1|e w1]; simpl in Hm; [|exact Hm].
  rewrite (Hk x w1 r Ha Hb). exact Hm.
Qed.

Lemma spares_touches (A : Type) a b (P : event -> Prop) (m : M A) :
  touches_only a P m \/ touches_only b P m -> spares a b m.
Proof.
  intros [H|H] w r Ha Hb; destruct (H w) as [F _]; now apply F.
Qed.

Lemma spares_rmtree a b : spares a b (rmtree b).
Proof.
  intros w r Ha Hb. unfold rmtree.
  destruct (lookup b (w_fs w)); [|reflexivity].
  simpl. now apply lookup_remove_neq.
Qed.

Lemma spares_move a b : spares a b (move a b).
Proof.
  intros w r Ha Hb. unfold move.
  destruct (lookup a (w_fs w)); [|reflexivity].
  destruct (lookup b (w_fs w)); [reflexivity|].
  simpl. rewrite lookup_set_neq, lookup_remove_neq by assumption.
  reflexivity.
Qed.

Lemma spares_apply_patch patch old_dir new_dir staging_dir :
  spares staging_dir new_dir
    (apply_patch patch old_dir new_dir staging_dir).
Proof.
  unfold apply_patch.
  apply spares_bind.
  { apply (@spares_touches _ _ _ (staging_event staging_dir)). left.
    apply touches_mkdtemp. }
  intros _. apply spares_bind.
  { apply (@spares_touches _ _ _ (staging_event staging_dir)). left.
    apply touches_for_each. intros; apply touches_makedirs. }
  intros _. apply spares_bind.
  { apply (@spares_touches _ _ _ (staging_event staging_dir)). left.
    apply touches_for_each. intros; apply touches_apply_operation. }
  intros _. apply spares_bind.
  { apply (@spares_touches _ _ _
             (removal_event new_dir (extra_files patch))). right.
    apply touches_delete_extra_files. }
  intros _. apply spares_bind; [apply spares_rmtree|].
  intros _. apply spares_move.
Qed.

(** X12: for a patch whose paths are entry names, however a run of
    [apply_patch] ends, completed or with an error at any point, it has
    changed nothing in a directory that lies outside the staging directory
    and the target directory; in particular the old directory, when it is
    not the target, is never modified. *)
Theorem apply_patch_spares_other_roots (patch : Patch)
  (old_dir new_dir staging_dir : string) (w : world) (r : string) :
  entry_names patch ->
  r <> staging_dir -> r <> new_dir ->
  lookup r
    (w_fs (world_of (apply_patch patch old_dir new_dir staging_dir w)))
  = lookup r (w_fs w).
Proof. intros _ Hs Hn. now apply spares_apply_patch. Qed.

Lemma apply_patch_spares_other_roots_witness :
  lookup "old"
    (w_fs (world_of (apply_patch patch_mixed "old" "live" "tmp"
                       (mkWorld fs_mixed []))))
  = Some old_mixed.
Proof.
  rewrite (@apply_patch_spares_other_roots patch_mixed "old" "live" "tmp"
             (mkWorld fs_mixed []) "old").
  - reflexivity.
  - reflexivity.
  - discriminate.
  - discriminate.
Defined.

(** ** Directories that an action leaves in place *)

Lemma keeps_bind (A C : Type) root (m : M A) (k : A -> M C) :
  keeps_root root m -> (forall a, keeps_root root (k a)) ->
  keeps_root root (bind m k).
Proof.
  intros Hm Hk w H. unfold bind. specialize (Hm w H).
  destruct (m w) as [a w1|e w1]; simpl in Hm; [|exact Hm].
  now apply Hk.
Qed.

Lemma keeps_for_each (A : Type) root (l : list A) (body : A -> M unit) :
  (forall x, keeps_root root (body x)) -> keeps_root root (for_each l body).
Proof.
  intros H. induction l as [|x l IH]; simpl.
  - intros w Hw. exact Hw.
  - apply keeps_bind; auto.
Qed.

Lemma lookup_set_keeps root x (t : tree) (f : fs) :
  lookup root f <> None -> lookup root (set_entry x t f) <> None.
Proof.
  intros H. destruct (String.eqb root x) eqn:E.
  - apply String.eqb_eq in E. subst. rewrite lookup_set_eq. discriminate.
  - apply String.eqb_neq in E. now rewrite lookup_set_neq.
Qed.

Lemma keeps_makedirs root s d : keeps_root root (makedirs s d).
Proof.
  intros w H. unfold makedirs.
  destruct (lookup s (w_fs w)) as [t|].
  - destruct (lookup d t) as [n|].
    + destruct (node_is_dir n); exact H.
    + simpl. now apply lookup_set_keeps.
  - simpl. now apply lookup_set_keeps.
Qed.

Lemma keeps_write_file root s name b : keeps_root root (write_file s name b).
Proof.
  intros w H. unfold write_file.
  destruct (lookup s (w_fs w)) as [t|]; [|exact H].
  destruct (lookup name t) as [n|].
  - destruct (write_through n b); [|exact H].
    simpl. now apply lookup_set_keeps.
  - simpl. now apply lookup_set_keeps.
Qed.

Lemma keeps_apply_operation root old_dir s op :
  keeps_root root (apply_operation old_dir s op).
Proof.
  unfold apply_operation. destruct (op_type op);
    try (intros w H; exact H).
  - apply keeps_write_file.
  - apply keeps_bind.
    + intros w H. now rewrite read_range_stays.
    + intros d. apply keeps_write_file.
Qed.

Lemma keeps_delete_extra_file root new_dir file :
  keeps_root root (delete_extra_file new_dir file).
Proof.
  intros w H. unfold delete_extra_file.
  destruct (lookup new_dir (w_fs w)) as [t|]; [|exact H].
  destruct (isfile _ || islink _).
  - simpl. now apply lookup_set_keeps.
  - destruct (isdir _); [|exact H].
    destruct (at_path new_dir file (w_fs w)) as [[|[|]| | |]|]; try exact H.
    simpl. now apply lookup_set_keeps.
Qed.

(** From a world without [s], the staging phase leaves [s] in place,
    however it ends. *)
Lemma stage_leaves_staging patch old_dir s w :
  lookup s (w_fs w) = None ->
  lookup s (w_fs (world_of (stage patch old_dir s w))) <> None.
Proof.
  intros L. unfold stage. unfold bind at 1.
  destruct (mkdtemp s w) as [[] w0|e w0] eqn:H0.
  - apply mkdtemp_done in H0. destruct H0 as (_ & L0 & _).
    apply keeps_bind; [| |rewrite L0; discriminate].
    + apply keeps_for_each. intros; apply keeps_makedirs.
    + intros _. apply keeps_for_each. intros; apply keeps_apply_operation.
  - unfold mkdtemp in H0. rewrite L in H0. discriminate.
Qed.

(** ** A target directory that does not exist *)

Lemma delete_extra_file_absent new_dir file w :
  lookup new_dir (w_fs w) = None ->
  delete_extra_file new_dir file w = Done tt w.
Proof. intros H. unfold delete_extra_file. now rewrite H. Qed.

Lemma delete_extra_files_absent new_dir names w :
  lookup new_dir (w_fs w) = None ->
  for_each names (delete_extra_file new_dir) w = Done tt w.
Proof.
  intros H. induction names as [|x names IH]; [reflexivity|].
  cbn [for_each]. unfold bind.
  now rewrite delete_extra_file_absent.
Qed.

(** X13: for a patch whose paths are entry names, [apply_patch] onto a
    target directory that does not exist never completes.  When the
    staging phase goes through, the run ends in the
    [FileNotFoundError] of [shutil.rmtree], in the world the staging phase
    left: the rebuilt tree stays in the staging directory and no target
    is created. *)
Theorem apply_patch_missing_target (patch : Patch)
  (old_dir new_dir staging_dir : string) (w : world) :
  entry_names patch ->
  lookup new_dir (w_fs w) = None -> staging_dir <> new_dir ->
  (forall w', apply_patch patch old_dir new_dir staging_dir w <> Done tt w')
  /\
  (forall w1, stage patch old_dir staging_dir w = Done tt w1 ->
     apply_patch patch old_dir new_dir staging_dir w
       = Raised FileNotFoundError w1 /\
     lookup new_dir (w_fs w1) = None /\
     lookup staging_dir (w_fs w1) <> None).
Proof.
  intros _ Ln Ns.
  assert (K : forall w1, stage patch old_dir staging_dir w = Done tt w1 ->
            apply_patch patch old_dir new_dir staging_dir w
              = Raised FileNotFoundError w1 /\
            lookup new_dir (w_fs w1) = None).
  { intros w1 H1.
    destruct (touches_stage patch old_dir staging_dir w) as [F _].
    rewrite H1 in F. simpl in F.
    assert (L1 : lookup new_dir (w_fs w1) = None)
      by (rewrite F; auto).
    split; [|exact L1].
    rewrite apply_patch_stage. unfold bind at 1. rewrite H1.
    unfold bind at 1. unfold delete_extra_files.
    rewrite delete_extra_files_absent by exact L1.
    unfold bind, rmtree. now rewrite L1. }
  split.
  - intros w' H. pose proof H as H'. rewrite apply_patch_stage in H'.
    apply bind_done in H'. destruct H' as ([] & w1 & H1 & _).
    destruct (K w1 H1) as [E _]. congruence.
  - intros w1 H1. destruct (K w1 H1) as [E L1].
    split; [exact E|]. split; [exact L1|].
    assert (L0 : lookup staging_dir (w_fs w) = None).
    { unfold stage in H1. apply bind_done in H1.
      destruct H1 as ([] & w0 & H0 & _).
      now apply mkdtemp_done in H0. }
    pose proof (stage_leaves_staging patch old_dir staging_dir w L0) as S.
    now rewrite H1 in S.
Qed.

Lemma apply_patch_missing_target_witness :
  exists w1,
    apply_patch patch_mixed "old" "nowhere" "tmp" (mkWorld fs_mixed [])
      = Raised FileNotFoundError w1 /\
    lookup "nowhere" (w_fs w1) = None /\
    lookup "tmp" (w_fs w1) <> None.
Proof.
  exists (world_of (stage patch_mixed "old" "tmp" (mkWorld fs_mixed []))).
  destruct (@apply_patch_missing_target patch_mixed "old" "nowhere" "tmp"
              (mkWorld fs_mixed [])) as [_ H].
  - reflexivity.
  - reflexivity.
  - discriminate.
  - apply H. vm_compute. reflexivity.
Defined.

(** X14: a run of [apply_patch] that ends with an error never removes its
    staging directory: started with a staging name that is free and is not
    the target, every failed run leaves the staging directory behind. *)
Theorem apply_patch_failure_keeps_staging (patch : Patch)
  (old_dir new_dir staging_dir : string) (w w' : world) (e : exn) :
  lookup staging_dir (w_fs w) = None -> staging_dir <> new_dir ->
  apply_patch patch old_dir new_dir staging_dir w = Raised e w' ->
  lookup staging_dir (w_fs w') <> None.
Proof.
  intros L Ns H. rewrite apply_patch_stage in H.
  pose proof (stage_leaves_staging patch old_dir staging_dir w L) as S1.
  unfold bind at 1 in H.
  destruct (stage patch old_dir staging_dir w) as [[] w1|e1 w1];
    simpl in S1; [|inversion H; subst; exact S1].
  assert (S2 : lookup staging_dir
                 (w_fs (world_of (delete_extra_files patch new_dir w1)))
               <> None).
  { apply keeps_for_each; [|exact S1].
    intros x. apply keeps_delete_extra_file. }
  unfold bind at 1 in H.
  destruct (delete_extra_files patch new_dir w1) as [[] w2|e2 w2];
    simpl in S2; [|inversion H; subst; exact S2].
  unfold bind, rmtree, move, emit in H.
  destruct (lookup new_dir (w_fs w2)) eqn:L2;
    [|inversion H; subst; exact S2].
  cbn [w_fs] in H.
  rewrite lookup_remove_neq, lookup_remove_eq in H by assumption.
  destruct (lookup staging_dir (w_fs w2)); [discriminate|congruence].
Qed.

Lemma apply_patch_failure_keeps_staging_witness :
  exists w', apply_patch patch_extras "old" "live" "tmp" world_live
             = Raised OSError w' /\
             lookup "tmp" (w_fs w') <> None.
Proof.
  exists (world_of (apply_patch patch_extras "old" "live" "tmp" world_live)).
  assert (H : apply_patch patch_extras "old" "live" "tmp" world_live
              = Raised OSError
                  (world_of (apply_patch patch_extras "old" "live" "tmp"
                               world_live)))
    by (vm_compute; reflexivity).
  split; [exact H|].
  apply (@apply_patch_failure_keeps_staging patch_extras "old" "live" "tmp"
           world_live _ OSError).
  - reflexivity.
  - discriminate.
  - exact H.
Defined.

(** ** When [delete_extra_files] fails *)

Lemma delete_extra_file_nonempty new_dir file w t :
  lookup new_dir (w_fs w) = Some t ->
  nonempty_dir (lookup file t) = true ->
  delete_extra_file new_dir file w = Raised OSError w.
Proof.
  intros L N. unfold delete_extra_file, at_path. rewrite L.
  destruct (lookup file t) as [[|[|]| | |]|]; simpl in N;
    try discriminate. reflexivity.
Qed.

Lemma delete_extra_file_total new_dir file w t :
  lookup new_dir (w_fs w) = Some t ->
  nonempty_dir (lookup file t) = false ->
  exists w1, delete_extra_file new_dir file w = Done tt w1.
Proof.
  intros L N. unfold delete_extra_file, at_path, emit. rewrite L.
  destruct (lookup file t) as [n|]; [|simpl; eauto].
  destruct (isfile (Some n) || islink (Some n)) eqn:FL; [eauto|].
  destruct (isdir (Some n)) eqn:D; [|eauto].
  destruct n as [|[|]| | |]; simpl in *; rewrite ?orb_true_r in *;
    try discriminate; eauto.
Qed.

Lemma delete_extra_file_raises new_dir file w e w' :
  delete_extra_file new_dir file w = Raised e w' -> e = OSError.
Proof.
  unfold delete_extra_file, emit.
  destruct (lookup new_dir (w_fs w)); [|discriminate].
  destruct (isfile _ || islink _); [discriminate|].
  destruct (isdir _); [|discriminate].
  destruct (at_path new_dir file (w_fs w)) as [[|[|]| | |]|];
    try discriminate; intros H; inversion H; reflexivity.
Qed.

Lemma nonempty_dir_after (t t' : tree) file :
  (forall k, lookup k t' =
             if String.eqb k file && removable (lookup k t)
             then None else lookup k t) ->
  forall k, nonempty_dir (lookup k t') =
            if String.eqb k file && removable (lookup k t)
            then false else nonempty_dir (lookup k t).
Proof.
  intros H k. rewrite H.
  now destruct (String.eqb k file && removable (lookup k t)).
Qed.

Lemma delete_extra_files_completes new_dir names w t :
  lookup new_dir (w_fs w) = Some t ->
  ((exists w', for_each names (delete_extra_file new_dir) w = Done tt w')
   <-> forall name, In name names -> nonempty_dir (lookup name t) = false).
Proof.
  revert w t. induction names as [|file names IH]; intros w t L.
  - split; [intros _ name []|intros _; eexists; reflexivity].
  - cbn [for_each]. split.
    + intros [w' H]. apply bind_done in H. destruct H as ([] & w1 & H1 & H2).
      assert (N : nonempty_dir (lookup file t) = false).
      { destruct (nonempty_dir (lookup file t)) eqn:N; [|reflexivity].
        rewrite (@delete_extra_file_nonempty _ _ _ _ L N) in H1. discriminate. }
      destruct (delete_extra_file_spec _ _ _ H1 L) as (t1 & L1 & S1).
      pose proof (proj1 (IH w1 t1 L1) (ex_intro _ w' H2)) as K.
      intros name [<-|I]; [exact N|].
      specialize (K name I). rewrite (@nonempty_dir_after _ _ _ S1) in K.
      destruct (String.eqb name file) eqn:E.
      * apply String.eqb_eq in E. now subst.
      * exact K.
    + intros K.
      destruct (@delete_extra_file_total new_dir file w t L
                  (K file (or_introl eq_refl))) as [w1 H1].
      destruct (delete_extra_file_spec _ _ _ H1 L) as (t1 & L1 & S1).
      destruct (proj2 (IH w1 t1 L1)) as [w' H2].
      { intros name I. rewrite (@nonempty_dir_after _ _ _ S1).
        destruct (String.eqb name file && removable (lookup name t));
          [reflexivity|]. apply K. now right. }
      exists w'. unfold bind. now rewrite H1.
Qed.

(** X15: on an existing target directory, for paths of [extra_files]
    that are entry names, [delete_extra_files] completes exactly when none
    of them is a non-empty directory of the target; otherwise it stops with
    the [OSError] of [os.rmdir], and it raises nothing else. *)
Theorem delete_extra_files_fails_on_nonempty_dir (patch : Patch)
  (new_dir : string) (w : world) (t : tree) :
  forallb entry_name (extra_files patch) = true ->
  lookup new_dir (w_fs w) = Some t ->
  ((exists w', delete_extra_files patch new_dir w = Done tt w') <->
   (forall name, In name (extra_files patch) ->
                 nonempty_dir (lookup name t) = false)) /\
  (forall e w', delete_extra_files patch new_dir w = Raised e w' ->
                e = OSError).
Proof.
  intros _ L. split.
  - now apply delete_extra_files_completes.
  - unfold delete_extra_files. clear L. revert w.
    induction (extra_files patch) as [|file names IH]; intros w e w' H.
    + discriminate.
    + cbn [for_each] in H. unfold bind in H.
      destruct (delete_extra_file new_dir file w) as [[] w1|e1 w1] eqn:H1.
      * eapply IH; eauto.
      * inversion H; subst. eapply delete_extra_file_raises; eauto.
Qed.

Lemma delete_extra_files_fails_on_nonempty_dir_witness :
  (exists w', delete_extra_files patch_extras "live" world_live = Done tt w')
  <-> (forall name, In name ["a"; "d"] ->
         nonempty_dir
           (lookup name [("a", Reg (B "precious"));
                         ("d", Directory [("x", Reg (B "y"))])]) = false).
Proof.
  apply (@delete_extra_files_fails_on_nonempty_dir patch_extras "live"
           world_live
           [("a", Reg (B "precious")); ("d", Directory [("x", Reg (B "y"))])]).
  - reflexivity.
  - reflexivity.
Defined.

(** ** [create_missing_dirs] can be repeated *)

Lemma makedirs_existing s d w :
  isdir (at_path s d (w_fs w)) = true -> makedirs s d w = Done tt w.
Proof.
  unfold makedirs, at_path.
  destruct (lookup s (w_fs w)) as [t|]; [|discriminate].
  destruct (lookup d t) as [n|]; [|discriminate].
  simpl. now intros ->.
Qed.

Lemma makedirs_makes s d w w' :
  makedirs s d w = Done tt w' ->
  isdir (at_path s d (w_fs w')) = true /\
  (forall k, isdir (at_path s k (w_fs w)) = true ->
             isdir (at_path s k (w_fs w')) = true).
Proof.
  unfold makedirs, at_path, emit.
  destruct (lookup s (w_fs w)) as [t|] eqn:L.
  - destruct (lookup d t) as [n|] eqn:Ld.
    + destruct (node_is_dir n) eqn:D; [|discriminate].
      intros H; inversion H; subst. rewrite L, Ld. auto.
    + intros H; inversion H; subst. cbn [w_fs]. rewrite lookup_set_eq.
      split.
      * rewrite lookup_app, Ld. simpl. now rewrite String.eqb_refl.
      * intros k. rewrite lookup_app. now destruct (lookup k t).
  - intros H; inversion H; subst. cbn [w_fs]. rewrite lookup_set_eq.
    split; [|discriminate]. simpl. now rewrite String.eqb_refl.
Qed.

Lemma create_dirs_makes s dirs w w' :
  for_each dirs (fun dir_path => makedirs s dir_path) w = Done tt w' ->
  (forall d, In d dirs -> isdir (at_path s d (w_fs w')) = true) /\
  (forall k, isdir (at_path s k (w_fs w)) = true ->
             isdir (at_path s k (w_fs w')) = true).
Proof.
  revert w. induction dirs as [|d dirs IH]; intros w H.
  - inversion H; subst. split; [intros d []|auto].
  - cbn [for_each] in H. apply bind_done in H.
    destruct H as ([] & w1 & H1 & H2).
    apply makedirs_makes in H1. destruct H1 as [M1 K1].
    destruct (IH _ H2) as [M2 K2]. split.
    + intros x [<-|I]; [now apply K2|now apply M2].
    + intros k Hk. now apply K2, K1.
Qed.

Lemma create_dirs_existing s dirs w :
  (forall d, In d dirs -> isdir (at_path s d (w_fs w)) = true) ->
  for_each dirs (fun dir_path => makedirs s dir_path) w = Done tt w.
Proof.
  induction dirs as [|d dirs IH]; intros H; [reflexivity|].
  cbn [for_each]. unfold bind.
  rewrite makedirs_existing by (apply H; now left).
  apply IH. intros; apply H; now right.
Qed.

(** X10: [create_missing_dirs] is idempotent ([exist_ok=True]): after a
    run that completed, every name of [new_dirs] is a directory of the
    staging directory, and a second run completes and changes nothing. *)
Theorem create_missing_dirs_idempotent (patch : Patch)
  (staging_dir : string) (w w1 : world) :
  create_missing_dirs patch staging_dir w = Done tt w1 ->
  (forall d, In d (new_dirs patch) ->
             isdir (at_path staging_dir d (w_fs w1)) = true) /\
  create_missing_dirs patch staging_dir w1 = Done tt w1.
Proof.
  unfold create_missing_dirs. intros H.
  destruct (create_dirs_makes _ _ _ H) as [M _].
  split; [exact M|]. now apply create_dirs_existing.
Qed.

Lemma create_missing_dirs_idempotent_witness :
  exists w1,
    create_missing_dirs patch_mixed "tmp" (mkWorld [("tmp", [])] [])
      = Done tt w1 /\
    create_missing_dirs patch_mixed "tmp" w1 = Done tt w1.
Proof.
  exists (world_of (create_missing_dirs patch_mixed "tmp"
                      (mkWorld [("tmp", [])] []))).
  assert (H : create_missing_dirs patch_mixed "tmp" (mkWorld [("tmp", [])] [])
              = Done tt
                  (world_of (create_missing_dirs patch_mixed "tmp"
                               (mkWorld [("tmp", [])] []))))
    by (vm_compute; reflexivity).
  split; [exact H|].
  apply (@create_missing_dirs_idempotent patch_mixed "tmp" _ _ H).
Defined.

(** ** [scan_dir] sorts every name into at most one list *)

Lemma scan_names_NoDup t :
  well_formed t ->
  NoDup (fst (listing t)) /\ NoDup (snd (listing t)).
Proof.
  unfold well_formed. induction t as [|[k n] t IH]; simpl; intros WF.
  - split; constructor.
  - inversion WF as [|? ? NI WF']; subst. destruct (IH WF') as [Hd Hf].
    assert (Kd : ~ In k (fst (listing t))).
    { intros H. apply scan_dirs_In in H. destruct H as [m [H _]].
      apply NI. change k with (fst (k, m)). now apply in_map. }
    assert (Kf : ~ In k (snd (listing t))).
    { intros H. apply scan_files_In in H. destruct H as [m [H _]].
      apply NI. change k with (fst (k, m)). now apply in_map. }
    destruct (listing t) as [dirs files]. simpl in *.
    destruct (node_is_dir n); [|destruct (node_is_file n)]; simpl;
      split; auto; constructor; auto.
Qed.



(** ** [main]: diffing two trees and patching a third *)

Lemma main_body_done old_dir reference_dir destination_dir s w w' :
  main_body old_dir reference_dir destination_dir s w = Done tt w' ->
  exists p, diff old_dir reference_dir (w_fs w) = Ok p /\
            apply_patch p old_dir destination_dir s w = Done tt w'.
Proof.
  unfold main_body.
  destruct (diff old_dir reference_dir (w_fs w)) as [p|]; [|discriminate].
  eauto.
Qed.

Lemma diff_no_ops_for_non_file old_dir new_dir w tnew p name :
  lookup new_dir w = Some tnew -> well_formed tnew ->
  diff old_dir new_dir w = Ok p ->
  isfile (lookup name tnew) = false ->
  file_ops name (operations p) = [].
Proof.
  intros Ln WFn D Nf.
  destruct (diff_inv _ _ _ D) as (told' & tnew' & ops2 & ops3 & _ & Ln'
                                  & C2 & C3 & ->).
  rewrite Ln in Ln'. inversion Ln'; subst tnew'.
  assert (No : ~ In name (snd (listing tnew))).
  { rewrite scan_files_lookup by assumption. congruence. }
  cbn [operations]. rewrite !file_ops_app, file_ops_deleted. cbn [app].
  unfold file_ops.
  rewrite (@collect_filter_none _ _ _ _ _ C2), (@collect_filter_none _ _ _ _ _ C3).
  - reflexivity.
  - intros x a Hx Fx. apply set_inter_In in Hx.
    apply (@file_ops_other name x).
    + intros ->. tauto.
    + eapply diff_common_file_ops; eauto.
  - intros x a Hx Fx. cbv beta in Fx. apply set_minus_In in Hx.
    destruct (diff_extra_file new_dir w x) as [op|] eqn:E; [|discriminate].
    inversion Fx; subst. simpl.
    destruct (writes op) eqn:W; [|reflexivity].
    rewrite (diff_extra_file_op _ _ _ E W).
    destruct (String.eqb x name) eqn:X; [|reflexivity].
    apply String.eqb_eq in X; subst. tauto.
Qed.

Lemma last_write_single k op :
  file_ops k [op] = [op] -> last_write k [op] = Some op.
Proof. unfold last_write. now intros ->. Qed.

Section MainRun.
Variables (old_dir reference_dir destination_dir staging_dir : string).
Variables (w w' : world) (told tref : tree).
Hypothesis Lo : lookup old_dir (w_fs w) = Some told.
Hypothesis Lr : lookup reference_dir (w_fs w) = Some tref.
Hypothesis WFo : well_formed told.
Hypothesis WFr : well_formed tref.
Hypothesis Ns : staging_dir <> old_dir.
Hypothesis Run :
  main_body old_dir reference_dir destination_dir staging_dir w = Done tt w'.

(** What the destination holds under [name] after the run, in terms of
    the operations of the patch that write to [name]. *)
Lemma main_destination_entry :
  exists p, diff old_dir reference_dir (w_fs w) = Ok p /\
    forall name,
      at_path destination_dir name (w_fs w') =
      staged_entry old_dir (w_fs w) (new_dirs p) (operations p) name.
Proof.
  destruct (@main_body_done _ _ _ _ _ _ Run) as (p & D & A).
  exists p. split; [exact D|]. intros name.
  destruct (@apply_patch_done _ _ _ _ _ _ A Ns) as (t' & L & S & _).
  unfold at_path. rewrite L. apply S.
Qed.

Lemma main_added_file name b :
  lookup name tref = Some (Reg b) -> isfile (lookup name told) = false ->
  at_path destination_dir name (w_fs w') = Some (Reg b).
Proof.
  intros Fr Fo. destruct main_destination_entry as (p & D & S).
  rewrite S. unfold staged_entry, last_write.
  rewrite (@diff_added_file_ops old_dir reference_dir (w_fs w) told tref p
             name b Lo Lr WFo D Fr Fo).
  reflexivity.
Qed.

Lemma main_directory name :
  isdir (lookup name tref) = true ->
  at_path destination_dir name (w_fs w') = Some (Directory []).
Proof.
  intros Dr. destruct main_destination_entry as (p & D & S).
  rewrite S. unfold staged_entry, last_write.
  rewrite (@diff_no_ops_for_non_file old_dir reference_dir (w_fs w) tref p
             name Lr WFr D).
  2: { destruct (isfile (lookup name tref)) eqn:F; [|reflexivity].
       apply isfile_not_isdir in F. congruence. }
  cbn [rev].
  destruct (diff_inv _ _ _ D) as (told' & tref' & ops2 & ops3 & _ & Lr'
                                  & _ & _ & ->).
  rewrite Lr in Lr'. inversion Lr'; subst tref'. cbn [new_dirs].
  apply scan_dirs_lookup in Dr; [|assumption].
  apply mem_In in Dr. now rewrite Dr.
Qed.

Lemma main_unchanged_file name b :
  lookup name told = Some (Reg b) -> lookup name tref = Some (Reg b) ->
  at_path destination_dir name (w_fs w') = None.
Proof.
  intros Fo Fr. destruct main_destination_entry as (p & D & S).
  rewrite S. unfold staged_entry, last_write.
  assert (C : compare_files name b b = Some (file_ops name (operations p))).
  { apply (@diff_file_ops old_dir reference_dir (w_fs w) p name b b D);
      unfold at_path; [now rewrite Lo|now rewrite Lr]. }
  rewrite <- (app_nil_r b) in C at 2.
  rewrite compare_files_append in C by now left.
  change (chunk_at [] 0) with (@nil byte) in C. cbn [truthy] in C.
  injection C as E. rewrite <- E. cbn [rev].
  destruct (diff_inv _ _ _ D) as (told' & tref' & ops2 & ops3 & _ & Lr'
                                  & _ & _ & ->).
  rewrite Lr in Lr'. inversion Lr'; subst tref'. cbn [new_dirs].
  destruct (mem name (fst (listing tref))) eqn:M_; [|reflexivity].
  apply mem_In, scan_dirs_lookup in M_; [|assumption].
  rewrite Fr in M_. discriminate.
Qed.
End MainRun.

(** X17: when [main] completes, every name that is a regular file (not a
    link) in the reference tree and no file in the old tree is in the
    destination as a regular file with exactly the bytes it has in the
    reference tree. *)
Theorem main_carries_added_files
  (old_dir reference_dir destination_dir staging_dir : string)
  (w w' : world) (told tref : tree) (name : string) (b : bytes) :
  lookup old_dir (w_fs w) = Some told ->
  lookup reference_dir (w_fs w) = Some tref ->
  well_formed told ->
  staging_dir <> old_dir ->
  main_body old_dir reference_dir destination_dir staging_dir w
    = Done tt w' ->
  lookup name tref = Some (Reg b) -> isfile (lookup name told) = false ->
  at_path destination_dir name (w_fs w') = Some (Reg b).
Proof.
  intros Lo Lr WFo Ns Run.
  exact (@main_added_file old_dir reference_dir destination_dir staging_dir
           w w' told tref Lo Lr WFo Ns Run name b).
Qed.

Lemma main_mixed :
  exists w', main_body "old" "new" "live" "tmp" (mkWorld fs_mixed [])
             = Done tt w'.
Proof. eexists. vm_compute. reflexivity. Qed.

Lemma main_carries_added_files_witness :
  at_path "live" "b"
    (w_fs (world_of (main_body "old" "new" "live" "tmp"
                       (mkWorld fs_mixed []))))
  = Some (Reg (B "hello")).
Proof.
  apply (@main_carries_added_files "old" "new" "live" "tmp"
           (mkWorld fs_mixed []) _ old_mixed new_mixed "b" (B "hello")).
  - reflexivity.
  - reflexivity.
  - exact well_formed_old_mixed.
  - discriminate.
  - vm_compute. reflexivity.
  - reflexivity.
  - reflexivity.
Defined.

(** X18: when [main] completes, every name that is a directory of the
    reference tree is an empty directory of the destination: directories
    are recreated by name, and nothing of what they hold is carried. *)
Theorem main_recreates_directories_empty
  (old_dir reference_dir destination_dir staging_dir : string)
  (w w' : world) (tref : tree) (name : string) :
  lookup reference_dir (w_fs w) = Some tref ->
  well_formed tref ->
  staging_dir <> old_dir ->
  main_body old_dir reference_dir destination_dir staging_dir w
    = Done tt w' ->
  isdir (lookup name tref) = true ->
  at_path destination_dir name (w_fs w') = Some (Directory []).
Proof.
  intros Lr WFr Ns Run.
  exact (@main_directory old_dir reference_dir destination_dir staging_dir
           w w' tref Lr WFr Ns Run name).
Qed.

Lemma main_recreates_directories_empty_witness :
  lookup "foo" new_mixed = Some (Directory [("inner", Reg (B "i"))]) /\
  at_path "live" "foo"
    (w_fs (world_of (main_body "old" "new" "live" "tmp"
                       (mkWorld fs_mixed []))))
  = Some (Directory []).
Proof.
  split; [reflexivity|].
  apply (@main_recreates_directories_empty "old" "new" "live" "tmp"
           (mkWorld fs_mixed []) _ new_mixed "foo").
  - reflexivity.
  - exact well_formed_new_mixed.
  - discriminate.
  - vm_compute. reflexivity.
  - reflexivity.
Defined.

(** X19: when [main] completes, a name that is a regular file with the
    same bytes in the old and in the reference tree is not in the
    destination at all: the patch has no operation for it, and only what
    operations write reaches the tree that replaces the destination. *)
Theorem main_drops_unchanged_files
  (old_dir reference_dir destination_dir staging_dir : string)
  (w w' : world) (told tref : tree) (name : string) (b : bytes) :
  lookup old_dir (w_fs w) = Some told ->
  lookup reference_dir (w_fs w) = Some tref ->
  well_formed tref ->
  staging_dir <> old_dir ->
  main_body old_dir reference_dir destination_dir staging_dir w
    = Done tt w' ->
  lookup name told = Some (Reg b) -> lookup name tref = Some (Reg b) ->
  at_path destination_dir name (w_fs w') = None.
Proof.
  intros Lo Lr WFr Ns Run.
  exact (@main_unchanged_file old_dir reference_dir destination_dir
           staging_dir w w' told tref Lo Lr WFr Ns Run name b).
Qed.

Lemma main_drops_unchanged_files_witness :
  at_path "old" "a"
    (w_fs (world_of (main_body "old" "new" "old" "tmp"
                       (mkWorld fs_unchanged []))))
  = None.
Proof.
  apply (@main_drops_unchanged_files "old" "new" "old" "tmp"
           (mkWorld fs_unchanged []) _ [("a", Reg (B "hello"))]
           [("a", Reg (B "hello"))] "a" (B "hello")).
  - reflexivity.
  - reflexivity.
  - unfold well_formed; simpl. repeat constructor; simpl; tauto.
  - discriminate.
  - vm_compute. reflexivity.
  - reflexivity.
  - reflexivity.
Defined.

(** ** When [diff] and [main] go through *)



(** A [BLOCK_RANGE] operation indexes a block that starts inside the new
    file. *)
Lemma compare_loop_index_bound budget file oc nc fo fn ops :
  compare_loop budget file oc nc fo fn = Some ops ->
  Forall (fun op => op_type op = BLOCK_RANGE ->
                    (block_index op * Z.of_nat BLOCK_SIZE
                     < Z.of_nat (length (contents fn)))%Z) ops.
Proof.
  revert oc nc fo fn ops.
  induction budget as [|budget IH]; intros oc nc fo fn ops; [discriminate|].
  cbn [compare_loop].
  assert (DataOnly : forall c,
            Forall (fun op => op_type op = BLOCK_RANGE ->
                              (block_index op * Z.of_nat BLOCK_SIZE
                               < Z.of_nat (length (contents fn)))%Z)
              [Operation_ DATA 0 0 c file]).
  { intros c. constructor; [|constructor]. intros K. discriminate K. }
  destruct (truthy oc && truthy nc).
  - destruct (negb (bytes_eqb oc nc)).
    + destruct (find_next_matching_block oc fn) as [[r g]|] eqn:F;
        [|discriminate].
      destruct (find_next_matching_block_first _ _ F) as [Hc Hr].
      destruct r as [mb|].
      * destruct Hr as (Hm & To & j & Hj & _ & Hg). subst mb. rewrite To.
        rewrite (read_handle g).
        destruct (read BLOCK_SIZE fo) as [c2 g2].
        rewrite read_handle. cbn [contents pos].
        destruct (compare_loop budget file c2 _ g2 _) as [r|] eqn:E;
          [|discriminate].
        intros H; inversion H; subst ops. clear H.
        apply IH in E. cbn [contents] in E. rewrite Hc in E.
        constructor; [|exact E].
        intros _. unfold Operation_. cbn [block_index].
        unfold tell. rewrite Hg.
        assert (T : truthy (chunk_at (contents fn)
                              (pos fn + j * BLOCK_SIZE)) = true)
          by now rewrite Hj.
        apply chunk_truthy_lt in T.
        pose proof (chunk_at_length (contents fn) (pos fn + j * BLOCK_SIZE))
          as L.
        rewrite Hj in L. unfold BLOCK_SIZE in *.
        change (Z.of_nat 8) with 8%Z.
        pose proof (Z.mul_div_le (Z.of_nat (pos fn + j * 8 + length oc)) 8).
        lia.
      * intros H; inversion H; subst. apply DataOnly.
    + destruct (read BLOCK_SIZE fo) as [c2 g2].
      rewrite read_handle. intros E. apply IH in E. exact E.
  - destruct (negb (truthy oc) && truthy nc); intros H; inversion H; subst;
      [apply DataOnly|constructor].
Qed.

Lemma compare_files_index_bound file ob nb ops :
  compare_files file ob nb = Some ops ->
  Forall (fun op => op_type op = BLOCK_RANGE ->
                    (block_index op * Z.of_nat BLOCK_SIZE
                     < Z.of_nat (length nb))%Z) ops.
Proof.
  rewrite compare_files_unfold. intros H.
  now apply compare_loop_index_bound in H.
Qed.

Lemma small_files_In t name b :
  small_files t -> lookup name t = Some (Reg b) ->
  (Z.of_nat (length b) < 2 ^ 31)%Z.
Proof.
  unfold small_files. rewrite forallb_forall. intros H L.
  specialize (H _ (lookup_In _ _ L)). cbn [snd resolve] in H.
  now apply Z.ltb_lt in H.
Qed.

Lemma isfile_not_link_reg o :
  isfile o = true -> islink o = false -> exists b, o = Some (Reg b).
Proof.
  destruct o as [n|]; [|discriminate]. simpl. intros F K.
  unfold node_is_file in F. rewrite (not_link_resolve _ K) in F.
  destruct n; try discriminate. eauto.
Qed.

(** What [apply_patch] needs of an operation to apply it. *)
Lemma diff_operations_applicable old_dir new_dir w told tnew p :
  small_files tnew ->
  lookup old_dir w = Some told -> lookup new_dir w = Some tnew ->
  well_formed told -> well_formed tnew ->
  diff old_dir new_dir w = Ok p ->
  Forall (fun op =>
            writes op = true ->
            mem (target_path op) (new_dirs p) = false /\
            (op_type op = BLOCK_RANGE ->
             (exists ob, at_path old_dir (target_path op) w = Some (Reg ob))
             /\ portable (block_index op * Z.of_nat BLOCK_SIZE)
             /\ portable (block_span op * Z.of_nat BLOCK_SIZE)))
    (operations p).
Proof.
  intros Sm Lo Ln WFo WFn D.
  destruct (diff_inv _ _ _ D) as (told' & tnew' & ops2 & ops3 & Lo' & Ln'
                                  & C2 & C3 & ->).
  rewrite Lo in Lo'. rewrite Ln in Ln'.
  inversion Lo'; inversion Ln'; subst told' tnew'.
  cbn [operations new_dirs].
  assert (NotDir : forall x, In x (snd (listing tnew)) ->
                     mem x (fst (listing tnew)) = false).
  { intros x Hx. apply mem_not_In. intros Hd.
    apply scan_files_lookup in Hx; [|assumption].
    apply scan_dirs_lookup in Hd; [|assumption].
    apply isfile_not_isdir in Hx. congruence. }
  apply Forall_app. split; [|apply Forall_app; split].
  - unfold diff_deleted. apply Forall_map, Forall_forall.
    intros x _ K. discriminate K.
  - eapply collect_Forall; [exact C2|]. intros x a Hx Fx. cbv beta in Fx.
    apply set_minus_In in Hx. destruct Hx as [Hx _].
    destruct (diff_extra_file new_dir w x) as [op|] eqn:E; [|discriminate].
    inversion Fx; subst. constructor; [|constructor]. intros W.
    rewrite (diff_extra_file_op _ _ _ E W). split; [now apply NotDir|].
    intros K. destruct (diff_extra_file_kind _ _ _ E) as [K'|[K'|K']];
      [congruence|congruence|].
    rewrite K' in K. discriminate K.
  - eapply collect_Forall; [exact C3|]. intros x a Hx Fx.
    apply set_inter_In in Hx. destruct Hx as [Hxo Hxn].
    pose proof (NotDir x Hxn) as Nd.
    apply scan_files_lookup in Hxo; [|assumption].
    unfold diff_common_file, at_path in Fx. rewrite Lo, Ln in Fx.
    destruct (islink (lookup x told)) eqn:Ko.
    + cbn [orb] in Fx.
      destruct (open_read (lookup x tnew)); [|discriminate].
      destruct (decode_text _); [|discriminate].
      inversion Fx; subst. constructor; [|constructor].
      intros W. discriminate W.
    + cbn [orb] in Fx. destruct (islink (lookup x tnew)) eqn:Kn.
      * destruct (open_read (lookup x tnew)); [|discriminate].
        destruct (decode_text _); [|discriminate].
        inversion Fx; subst. constructor; [|constructor].
        intros W. discriminate W.
      * destruct (isdir (lookup x told) || isdir (lookup x tnew)).
        -- inversion Fx; subst. constructor; [|constructor].
           intros W. discriminate W.
        -- apply scan_files_lookup in Hxn; [|assumption].
           destruct (isfile_not_link_reg _ Hxn Kn) as [nb' Rn].
           rewrite Rn in Fx. cbn [open_read resolve] in Fx.
           pose proof (@small_files_In _ _ _ Sm Rn) as Small.
           destruct (open_read (lookup x told)) as [ob|]; [|discriminate].
           destruct (compare_files x ob nb') as [r|] eqn:E; [|discriminate].
           inversion Fx; subst.
           destruct (isfile_not_link_reg _ Hxo Ko) as [ob' Rb].
           pose proof (compare_files_writes _ _ _ E) as Hw.
           pose proof (compare_files_index_bound _ _ _ E) as Hx.
           destruct (compare_files_shape _ _ _ E)
             as (brs & tail & -> & Hb & Ht).
           apply Forall_app in Hw. destruct Hw as [Hw1 Hw2].
           apply Forall_app in Hx. destruct Hx as [Hx1 _].
           apply Forall_app. split.
           ++ apply Forall_forall. intros op Hop W.
              rewrite Forall_forall in Hb, Hw1, Hx1.
              destruct (Hb op Hop) as (Ty & Tp & Hi & [Hs Hs'] & _).
              pose proof (Hx1 op Hop Ty) as Hu.
              rewrite Tp. split; [exact Nd|]. intros _.
              split; [|unfold portable, BLOCK_SIZE in *; split; lia].
              exists ob'. unfold at_path. now rewrite Lo.
           ++ destruct Ht as [->|[q [-> _]]]; [constructor|].
              constructor; [|constructor]. intros _.
              split; [exact Nd|]. intros K. discriminate K.
Qed.

Lemma apply_operation_total old_dir s dirs op w t :
  lookup s (w_fs w) = Some t ->
  (forall k, plain (lookup k t)) ->
  (forall k, isdir (lookup k t) = true -> mem k dirs = true) ->
  (writes op = true ->
   mem (target_path op) dirs = false /\
   (op_type op = BLOCK_RANGE ->
    (exists ob, at_path old_dir (target_path op) (w_fs w) = Some (Reg ob))
    /\ portable (block_index op * Z.of_nat BLOCK_SIZE)
    /\ portable (block_span op * Z.of_nat BLOCK_SIZE))) ->
  exists w1, apply_operation old_dir s op w = Done tt w1.
Proof.
  intros L P Dr Q.
  assert (Wr : forall b, writes op = true ->
                 exists w1, write_file s (target_path op) b w = Done tt w1).
  { intros b W. destruct (Q W) as [Nd _]. unfold write_file, emit.
    rewrite L. specialize (P (target_path op)).
    specialize (Dr (target_path op)).
    destruct (lookup (target_path op) t) as [[c|c| | |]|]; simpl in P;
      try contradiction; simpl; eauto.
    simpl in Dr. rewrite Dr in Nd by reflexivity. discriminate. }
  unfold apply_operation. unfold writes in *.
  destruct (op_type op) eqn:K; try (eexists; reflexivity).
  - now apply Wr.
  - destruct (Q eq_refl) as [_ R]. destruct (R eq_refl) as ([ob Ob] & Hi & Hs).
    unfold bind, read_range. rewrite Ob. cbn [open_read resolve].
    rewrite (portable_fits Hi), (portable_fits Hs). cbn [negb].
    destruct Hi as [Hi _]. destruct Hs as [Hs _].
    destruct (Z.ltb_spec (block_index op * Z.of_nat BLOCK_SIZE) 0) as [C|_];
      [lia|].
    destruct (Z.ltb_spec (block_span op * Z.of_nat BLOCK_SIZE) 0) as [C|_];
      [lia|].
    now apply Wr.
Qed.

Lemma apply_operations_total old_dir s dirs ops w t :
  s <> old_dir ->
  lookup s (w_fs w) = Some t ->
  (forall k, plain (lookup k t)) ->
  (forall k, isdir (lookup k t) = true -> mem k dirs = true) ->
  Forall (fun op =>
            writes op = true ->
            mem (target_path op) dirs = false /\
            (op_type op = BLOCK_RANGE ->
             (exists ob, at_path old_dir (target_path op) (w_fs w)
                         = Some (Reg ob))
             /\ portable (block_index op * Z.of_nat BLOCK_SIZE)
             /\ portable (block_span op * Z.of_nat BLOCK_SIZE))) ops ->
  exists w1, for_each ops (apply_operation old_dir s) w = Done tt w1.
Proof.
  intros Ns. revert w t.
  induction ops as [|op ops IH]; intros w t L P Dr Q.
  - eexists; reflexivity.
  - inversion Q as [|? ? Qop Qrest]; subst.
    destruct (@apply_operation_total old_dir s dirs op w t L P Dr Qop)
      as [w1 H1].
    destruct (@apply_operation_done _ _ _ _ _ _ H1 L P)
      as (t1 & L1 & S1 & F1).
    destruct (IH w1 t1 L1) as [w2 H2].
    + eapply plain_after_write; [exact P|]. intros k. apply (S1 k).
    + intros k. rewrite S1.
      destruct (writes op && String.eqb (target_path op) k); [|apply Dr].
      discriminate.
    + eapply Forall_impl; [|exact Qrest]. intros o Qo W.
      destruct (Qo W) as [Nd R]. split; [exact Nd|]. intros K.
      destruct (R K) as ([ob Ob] & Hi & Hs). split; [|auto].
      exists ob. unfold at_path in *. rewrite F1 by auto. exact Ob.
    + exists w2. cbn [for_each]. unfold bind. now rewrite H1.
Qed.

(** The staging phase of a patch of [diff], run in the file system that
    was diffed with a free staging name, always completes. *)
Lemma stage_diff_total old_dir new_dir s w told tnew p :
  small_files tnew ->
  lookup old_dir (w_fs w) = Some told ->
  lookup new_dir (w_fs w) = Some tnew ->
  well_formed told -> well_formed tnew ->
  diff old_dir new_dir (w_fs w) = Ok p ->
  lookup s (w_fs w) = None ->
  exists w1, stage p old_dir s w = Done tt w1.
Proof.
  intros Sm Lo Ln WFo WFn D Ls.
  assert (Ns : s <> old_dir) by congruence.
  unfold stage, bind. unfold mkdtemp at 1. rewrite Ls. unfold emit.
  set (w0 := mkWorld (set_entry s [] (w_fs w)) (w_trace w ++ [EMkdtemp s])).
  assert (L0 : lookup s (w_fs w0) = Some []) by apply lookup_set_eq.
  assert (Dirs : exists wd, create_missing_dirs p s w0 = Done tt wd).
  { unfold create_missing_dirs.
    assert (G : forall dirs v t (D' : list string),
              lookup s (w_fs v) = Some t ->
              (forall k, lookup k t =
                         if mem k D' then Some (Directory []) else None) ->
              exists wd, for_each dirs (fun d => makedirs s d) v
                         = Done tt wd).
    { induction dirs as [|d dirs IH]; intros v t D' Lv Sv;
        [eexists; reflexivity|].
      assert (exists v1, makedirs s d v = Done tt v1) as [v1 H1].
      { unfold makedirs, emit. rewrite Lv.
        destruct (lookup d t) as [n|] eqn:Ld; [|eauto].
        rewrite Sv in Ld. destruct (mem d D'); [|discriminate].
        inversion Ld; subst. simpl. eauto. }
      destruct (@makedirs_done _ _ _ _ _ _ H1 Lv Sv) as (t1 & L1 & S1).
      destruct (IH v1 t1 (d :: D') L1 S1) as [wd Hd].
      exists wd. cbn [for_each]. unfold bind. now rewrite H1. }
    apply (G (new_dirs p) w0 [] []); [exact L0|reflexivity]. }
  destruct Dirs as [wd Hd]. rewrite Hd.
  unfold create_missing_dirs in Hd.
  destruct (@create_dirs_done _ _ _ _ _ [] Hd L0) as (td & Ld & Sd).
  { intros k. reflexivity. }
  assert (Fd : forall r, r <> s -> lookup r (w_fs wd) = lookup r (w_fs w)).
  { intros r Hr.
    destruct (@touches_for_each s (staging_event s) _ (new_dirs p)
                (fun dir_path => makedirs s dir_path)
                (fun x _ => touches_makedirs s x) w0) as [F _].
    rewrite Hd in F. simpl in F. rewrite F by assumption.
    unfold w0. cbn [w_fs]. now apply lookup_set_neq. }
  apply (@apply_operations_total old_dir s (new_dirs p) (operations p) wd td
           Ns Ld).
  - intros k. rewrite Sd. simpl. now destruct (mem k (new_dirs p)).
  - intros k. rewrite Sd. simpl. now destruct (mem k (new_dirs p)).
  - pose proof (@diff_operations_applicable _ _ _ _ _ _ Sm Lo Ln WFo WFn D)
      as Q.
    eapply Forall_impl; [|exact Q]. intros op Qo W.
    destruct (Qo W) as [Nd R]. split; [exact Nd|]. intros K.
    destruct (R K) as ([ob Ob] & Hi & Hs). split; [|auto].
    exists ob. unfold at_path in *. rewrite Fd by auto. exact Ob.
Qed.

Lemma delete_extra_files_raises new_dir names w e w' :
  for_each names (delete_extra_file new_dir) w = Raised e w' -> e = OSError.
Proof.
  revert w. induction names as [|file names IH]; intros w H.
  - discriminate.
  - cbn [for_each] in H. unfold bind in H.
    destruct (delete_extra_file new_dir file w) as [[] w1|e1 w1] eqn:H1.
    + eapply IH; eauto.
    + inversion H; subst. eapply delete_extra_file_raises; eauto.
Qed.

Lemma diff_extra_files_In old_dir new_dir w told tnew p x :
  lookup old_dir w = Some told -> lookup new_dir w = Some tnew ->
  well_formed told -> well_formed tnew ->
  diff old_dir new_dir w = Ok p ->
  (In x (extra_files p) <->
   isfile (lookup x tnew) = true /\ isfile (lookup x told) = false).
Proof.
  intros Lo Ln WFo WFn D.
  destruct (diff_inv _ _ _ D) as (told' & tnew' & ops2 & ops3 & Lo' & Ln'
                                  & _ & _ & ->).
  rewrite Lo in Lo'. rewrite Ln in Ln'.
  inversion Lo'; inversion Ln'; subst told' tnew'. cbn [extra_files].
  rewrite set_minus_In, !scan_files_lookup by assumption.
  destruct (isfile (lookup x told)); intuition congruence.
Qed.

(** After the staging phase, finalization completes exactly when
    [delete_extra_files] does, and fails with its error otherwise. *)
Lemma finalize_after_stage patch new_dir s w1 td :
  lookup new_dir (w_fs w1) = Some td ->
  lookup s (w_fs w1) <> None -> s <> new_dir ->
  ((exists w',
      (delete_extra_files patch new_dir ;;; rmtree new_dir ;;;
       move s new_dir) w1 = Done tt w') <->
   (forall name, In name (extra_files patch) ->
                 nonempty_dir (lookup name td) = false)) /\
  (forall e w',
      (delete_extra_files patch new_dir ;;; rmtree new_dir ;;;
       move s new_dir) w1 = Raised e w' -> e = OSError).
Proof.
  intros Ld Ls Ns.
  assert (After : forall w2,
            delete_extra_files patch new_dir w1 = Done tt w2 ->
            exists w', (rmtree new_dir ;;; move s new_dir) w2 = Done tt w').
  { intros w2 H2.
    assert (K2 : lookup new_dir (w_fs w2) <> None).
    { pose proof (@keeps_for_each _ new_dir (extra_files patch)
                    (delete_extra_file new_dir)
                    (fun x => keeps_delete_extra_file new_dir new_dir x) w1)
        as K.
      unfold delete_extra_files in H2. rewrite H2 in K. apply K.
      rewrite Ld. discriminate. }
    assert (S2 : lookup s (w_fs w2) = lookup s (w_fs w1)).
    { destruct (touches_delete_extra_files patch new_dir w1) as [F _].
      rewrite H2 in F. now apply F. }
    unfold bind, rmtree, move, emit.
    destruct (lookup new_dir (w_fs w2)); [|congruence]. cbn [w_fs].
    rewrite lookup_remove_neq, lookup_remove_eq, S2 by assumption.
    destruct (lookup s (w_fs w1)); [eauto|congruence]. }
  split; [split|].
  - intros [w' H]. apply bind_done in H. destruct H as ([] & w2 & H2 & _).
    apply (proj1 (delete_extra_files_completes new_dir (extra_files patch)
                    w1 Ld)).
    now exists w2.
  - intros K.
    destruct (proj2 (delete_extra_files_completes new_dir
                       (extra_files patch) w1 Ld) K) as [w2 H2].
    destruct (After w2 H2) as [w' H']. exists w'.
    unfold bind at 1. unfold delete_extra_files. now rewrite H2.
  - intros e w' H. unfold bind at 1 in H.
    destruct (delete_extra_files patch new_dir w1) as [[] w2|e2 w2] eqn:H2.
    + destruct (After w2 eq_refl) as [w3 H3]. congruence.
    + inversion H; subst. unfold delete_extra_files in H2.
      eapply delete_extra_files_raises; eauto.
Qed.



(** ** Symbolic links of the reference tree *)

Lemma diff_link_no_writes old_dir new_dir w tnew p name n :
  lookup new_dir w = Some tnew ->
  diff old_dir new_dir w = Ok p ->
  lookup name tnew = Some n -> node_is_link n = true ->
  file_ops name (operations p) = [].
Proof.
  intros Ln D Fn K.
  destruct (diff_inv _ _ _ D) as (told' & tnew' & ops2 & ops3 & _ & Ln'
                                  & C2 & C3 & ->).
  rewrite Ln in Ln'. inversion Ln'; subst tnew'.
  assert (A : islink (at_path new_dir name w) = true).
  { unfold at_path. rewrite Ln, Fn. exact K. }
  cbn [operations]. rewrite !file_ops_app, file_ops_deleted. cbn [app].
  unfold file_ops.
  rewrite (@collect_filter_none _ _ _ _ _ C2),
    (@collect_filter_none _ _ _ _ _ C3).
  - reflexivity.
  - intros x a _ Fx.
    destruct (String.eqb x name) eqn:X.
    + apply String.eqb_eq in X. subst x.
      unfold diff_common_file in Fx. rewrite A, orb_true_r in Fx.
      destruct (open_read (at_path new_dir name w)); [|discriminate].
      destruct (decode_text _); [|discriminate].
      inversion Fx; subst. reflexivity.
    + apply String.eqb_neq in X. apply (@file_ops_other name x); auto.
      eapply diff_common_file_ops; eauto.
  - intros x a _ Fx. cbv beta in Fx.
    destruct (diff_extra_file new_dir w x) as [op|] eqn:E; [|discriminate].
    inversion Fx; subst. simpl.
    destruct (writes op) eqn:W; [|reflexivity].
    rewrite (diff_extra_file_op _ _ _ E W).
    destruct (String.eqb x name) eqn:X; [|reflexivity].
    apply String.eqb_eq in X. subst x.
    unfold diff_extra_file in E. rewrite A in E.
    destruct (open_read (at_path new_dir name w)); [|discriminate].
    destruct (decode_text _); [|discriminate].
    inversion E; subst. discriminate W.
Qed.

(** X22: [main] never recreates a symbolic link.  When it completes, a
    name that is a symbolic link in the reference tree and does not lead to
    a directory is not in the destination at all (a link that leads to a
    directory is replaced by an empty directory). *)
Theorem main_drops_symlinks
  (old_dir reference_dir destination_dir staging_dir : string)
  (w w' : world) (tref : tree) (name : string) (n : node) :
  lookup reference_dir (w_fs w) = Some tref ->
  well_formed tref ->
  staging_dir <> old_dir ->
  main_body old_dir reference_dir destination_dir staging_dir w
    = Done tt w' ->
  lookup name tref = Some n -> node_is_link n = true ->
  node_is_dir n = false ->
  at_path destination_dir name (w_fs w') = None.
Proof.
  intros Lr WFr Ns Run Fn K Nd.
  destruct (@main_body_done _ _ _ _ _ _ Run) as (p & D & A).
  destruct (@apply_patch_done _ _ _ _ _ _ A Ns) as (t' & L & S & _).
  unfold at_path. rewrite L, S. unfold staged_entry, last_write.
  rewrite (@diff_link_no_writes old_dir reference_dir (w_fs w) tref p name n
             Lr D Fn K).
  cbn [rev].
  destruct (diff_inv _ _ _ D) as (told' & tref' & ops2 & ops3 & _ & Lr'
                                  & _ & _ & ->).
  rewrite Lr in Lr'. inversion Lr'; subst tref'. cbn [new_dirs].
  destruct (mem name (fst (listing tref))) eqn:M_; [|reflexivity].
  apply mem_In, scan_dirs_lookup in M_; [|assumption].
  rewrite Fn in M_. simpl in M_. congruence.
Qed.

Lemma main_drops_symlinks_witness :
  at_path "live" "l"
    (w_fs (world_of (main_body "old" "new" "live" "tmp"
                       (mkWorld fs_mixed []))))
  = None.
Proof.
  apply (@main_drops_symlinks "old" "new" "live" "tmp"
           (mkWorld fs_mixed []) _ new_mixed "l"
           (Link "elsewhere" (Some (Reg (B "zz"))))).
  - reflexivity.
  - exact well_formed_new_mixed.
  - discriminate.
  - vm_compute. reflexivity.
  - reflexivity.
  - reflexivity.
  - reflexivity.
Defined.

(** X23: when [main] completes, the destination holds no name that is
    neither a file nor a directory of the reference tree: whatever the
    destination held before under such a name is gone, and so is every
    file that exists only in the old tree. *)
Theorem main_destination_names
  (old_dir reference_dir destination_dir staging_dir : string)
  (w w' : world) (tref : tree) (name : string) :
  lookup reference_dir (w_fs w) = Some tref ->
  well_formed tref ->
  staging_dir <> old_dir ->
  main_body old_dir reference_dir destination_dir staging_dir w
    = Done tt w' ->
  isfile (lookup name tref) = false -> isdir (lookup name tref) = false ->
  at_path destination_dir name (w_fs w') = None.
Proof.
  intros Lr WFr Ns Run Nf Nd.
  destruct (@main_body_done _ _ _ _ _ _ Run) as (p & D & A).
  destruct (@apply_patch_done _ _ _ _ _ _ A Ns) as (t' & L & S & _).
  unfold at_path. rewrite L, S. unfold staged_entry, last_write.
  rewrite (@diff_no_ops_for_non_file old_dir reference_dir (w_fs w) tref p
             name Lr WFr D Nf).
  cbn [rev].
  destruct (diff_inv _ _ _ D) as (told' & tref' & ops2 & ops3 & _ & Lr'
                                  & _ & _ & ->).
  rewrite Lr in Lr'. inversion Lr'; subst tref'. cbn [new_dirs].
  destruct (mem name (fst (listing tref))) eqn:M_; [|reflexivity].
  apply mem_In, scan_dirs_lookup in M_; [|assumption]. congruence.
Qed.

Lemma main_destination_names_witness :
  at_path "live" "stale" (w_fs (mkWorld fs_mixed [])) = Some (Reg (B "s")) /\
  at_path "live" "stale"
    (w_fs (world_of (main_body "old" "new" "live" "tmp"
                       (mkWorld fs_mixed []))))
  = None.
Proof.
  split; [reflexivity|].
  apply (@main_destination_names "old" "new" "live" "tmp"
           (mkWorld fs_mixed []) _ new_mixed "stale").
  - reflexivity.
  - exact well_formed_new_mixed.
  - discriminate.
  - vm_compute. reflexivity.
  - reflexivity.
  - reflexivity.
Defined.

(** ** Diffing in the other direction *)

(** X24: diffing in the other direction swaps the bookkeeping of the patch:
    the deleted paths of [diff(a, b)] are the extra paths of [diff(b, a)]
    and the other way round, and the two directory lists change places. *)
Theorem diff_swap (a b : string) (w : fs) (p q : Patch) :
  diff a b w = Ok p -> diff b a w = Ok q ->
  deleted_files p = extra_files q /\ extra_files p = deleted_files q /\
  old_dirs p = new_dirs q /\ new_dirs p = old_dirs q.
Proof.
  intros Dp Dq.
  destruct (diff_inv _ _ _ Dp) as (ta & tb & ? & ? & La & Lb & _ & _ & ->).
  destruct (diff_inv _ _ _ Dq) as (tb' & ta' & ? & ? & Lb' & La' & _ & _
                                   & ->).
  rewrite La in La'. rewrite Lb in Lb'.
  inversion La'; inversion Lb'; subst ta' tb'.
  repeat split.
Qed.

Lemma diff_swap_witness :
  exists q, diff "new" "old" fs_mixed = Ok q /\
            deleted_files patch_mixed = extra_files q /\
            extra_files patch_mixed = deleted_files q.
Proof.
  assert (R : exists q, diff "new" "old" fs_mixed = Ok q)
    by (eexists; vm_compute; reflexivity).
  destruct R as [q Dq].
  exists q. split; [exact Dq|].
  destruct (@diff_swap "old" "new" fs_mixed patch_mixed q diff_mixed Dq)
    as (H1 & H2 & _).
  split; assumption.
Defined.

(** ** A common prefix of whole blocks *)

Lemma chunk_at_shift pre c p :
  chunk_at (pre ++ c) (length pre + p) = chunk_at c p.
Proof.
  unfold chunk_at. rewrite skipn_app.
  rewrite skipn_all2 by lia.
  now replace (length pre + p - length pre) with p by lia.
Qed.

Lemma read_shift pre f :
  read BLOCK_SIZE (shift_handle pre f) =
  (fst (read BLOCK_SIZE f), shift_handle pre (snd (read BLOCK_SIZE f))).
Proof.
  destruct f as [c p]. unfold shift_handle. cbn [contents pos].
  rewrite !read_chunk, chunk_at_shift. cbn [fst snd contents pos].
  now rewrite Nat.add_assoc.
Qed.

Lemma find_loop_shift pre budget oc nc f :
  find_loop budget oc nc (shift_handle pre f) =
  match find_loop budget oc nc f with
  | Some (r, g) => Some (r, shift_handle pre g)
  | None => None
  end.
Proof.
  revert nc f. induction budget as [|budget IH]; intros nc f;
    [reflexivity|].
  cbn [find_loop]. destruct (truthy nc); [|reflexivity].
  destruct (bytes_eqb oc nc); [reflexivity|].
  rewrite read_shift. destruct (read BLOCK_SIZE f) as [c g].
  cbn [fst snd]. apply IH.
Qed.

Lemma find_next_matching_block_shift pre oc f :
  find_next_matching_block oc (shift_handle pre f) =
  match find_next_matching_block oc f with
  | Some (r, g) => Some (r, shift_handle pre g)
  | None => None
  end.
Proof.
  unfold find_next_matching_block. rewrite read_shift.
  destruct (read BLOCK_SIZE f) as [c g]. cbn [fst snd].
  replace (remaining (shift_handle pre f)) with (remaining f).
  - apply find_loop_shift.
  - unfold remaining, shift_handle. cbn [contents pos].
    rewrite length_app. lia.
Qed.

Lemma compare_loop_shift k pre_a pre_b budget file oc nc fo fn :
  length pre_b = k * BLOCK_SIZE ->
  compare_loop budget file oc nc (shift_handle pre_a fo)
    (shift_handle pre_b fn) =
  option_map (map (shift_op k)) (compare_loop budget file oc nc fo fn).
Proof.
  intros Hk. revert oc nc fo fn.
  induction budget as [|budget IH]; intros oc nc fo fn; [reflexivity|].
  cbn [compare_loop].
  destruct (truthy oc && truthy nc).
  - destruct (negb (bytes_eqb oc nc)).
    + rewrite find_next_matching_block_shift.
      destruct (find_next_matching_block oc fn) as [[r g]|]; [|reflexivity].
      destruct r as [mb|]; [|reflexivity].
      destruct (truthy mb); [|reflexivity].
      rewrite !read_shift.
      destruct (read BLOCK_SIZE g) as [c1 g1]. cbn [fst snd].
      destruct (read BLOCK_SIZE fo) as [c2 g2]. cbn [fst snd].
      destruct (read BLOCK_SIZE g1) as [c3 g3]. cbn [fst snd].
      rewrite IH.
      destruct (compare_loop budget file c2 c3 g2 g3) as [ops|];
        [|reflexivity].
      cbn [option_map map]. f_equal. f_equal.
      unfold shift_op, Operation_. cbn [op_type file_index block_index
                                          block_span data target_path].
      f_equal. unfold tell, shift_handle. cbn [pos]. rewrite Hk.
      unfold BLOCK_SIZE. rewrite Nat2Z.inj_add, Nat2Z.inj_mul.
      change (Z.of_nat 8) with 8%Z.
      rewrite Z.div_add_l by lia. lia.
    + rewrite !read_shift.
      destruct (read BLOCK_SIZE fo) as [c2 g2].
      destruct (read BLOCK_SIZE fn) as [c3 g3]. cbn [fst snd]. apply IH.
  - destruct (negb (truthy oc) && truthy nc); reflexivity.
Qed.

Lemma compare_loop_more_budget budget budget' file oc nc fo fn ops :
  compare_loop budget file oc nc fo fn = Some ops -> budget <= budget' ->
  compare_loop budget' file oc nc fo fn = Some ops.
Proof.
  revert budget' oc nc fo fn ops.
  induction budget as [|budget IH]; intros budget' oc nc fo fn ops H Hb;
    [discriminate|].
  destruct budget' as [|budget']; [lia|].
  cbn [compare_loop] in *.
  destruct (truthy oc && truthy nc); [|exact H].
  destruct (negb (bytes_eqb oc nc)).
  - destruct (find_next_matching_block oc fn) as [[r g]|]; [|discriminate].
    destruct r as [mb|]; [|exact H].
    destruct (truthy mb); [|exact H].
    destruct (read BLOCK_SIZE g) as [c1 g1].
    destruct (read BLOCK_SIZE fo) as [c2 g2].
    destruct (read BLOCK_SIZE g1) as [c3 g3].
    destruct (compare_loop budget file c2 c3 g2 g3) as [r|] eqn:E;
      [|discriminate].
    rewrite (IH budget' _ _ _ _ _ E) by lia. exact H.
  - destruct (read BLOCK_SIZE fo) as [c2 g2].
    destruct (read BLOCK_SIZE fn) as [c3 g3].
    apply IH; [exact H|lia].
Qed.

(** The loop passes over [j] equal blocks of a common prefix. *)
Lemma compare_loop_prefix j : forall budget file pre a b p,
  p + j * BLOCK_SIZE = length pre ->
  compare_loop (j + budget) file (chunk_at (pre ++ a) p)
    (chunk_at (pre ++ b) p)
    (mkHandle (pre ++ a) (p + length (chunk_at (pre ++ a) p)))
    (mkHandle (pre ++ b) (p + length (chunk_at (pre ++ b) p)))
  = compare_loop budget file (chunk_at a 0) (chunk_at b 0)
      (shift_handle pre (mkHandle a (0 + length (chunk_at a 0))))
      (shift_handle pre (mkHandle b (0 + length (chunk_at b 0)))).
Proof.
  induction j as [|j IH]; intros budget file pre a b p Hp.
  - rewrite Nat.mul_0_l, Nat.add_0_r in Hp. subst p. cbn [plus]. rewrite !chunk_at_app_end.
    reflexivity.
  - cbn [plus compare_loop].
    assert (Ha : chunk_at (pre ++ a) p = chunk_at pre p)
      by (apply chunk_at_app; left; blia).
    assert (Hb : chunk_at (pre ++ b) p = chunk_at pre p)
      by (apply chunk_at_app; left; blia).
    pose proof (chunk_at_length pre p) as L.
    assert (Full : length (chunk_at pre p) = BLOCK_SIZE) by blia.
    assert (T : truthy (chunk_at pre p) = true)
      by (apply truthy_length; blia).
    rewrite Ha, Hb, T, bytes_eqb_refl. cbn [andb negb].
    rewrite !read_chunk, Full. apply IH. blia.
Qed.

Lemma compare_files_prefix file pre a b k :
  length pre = k * BLOCK_SIZE ->
  compare_files file (pre ++ a) (pre ++ b) =
  option_map (map (shift_op k)) (compare_files file a b).
Proof.
  intros Hk. destruct (compare_files_total file a b) as [ops E].
  rewrite E. rewrite compare_files_unfold in E.
  rewrite compare_files_unfold, length_app.
  replace (S (S (length pre + length a)))
    with (k + (S (S (length a)) + (length pre - k))) by blia.
  rewrite (@compare_loop_prefix k _ file pre a b 0) by blia.
  rewrite (@compare_loop_shift k pre pre) by exact Hk.
  rewrite (@compare_loop_more_budget _ _ _ _ _ _ _ _ E) by lia.
  reflexivity.
Qed.

(** X25: a common prefix of whole blocks changes nothing but the block
    indices: for two regular files [pre ++ a] and [pre ++ b] with
    [length pre = k * BLOCK_SIZE], the operations of the patch that write
    to the file are those computed for [a] and [b] alone, each
    [BLOCK_RANGE] index moved [k] blocks further. *)
Theorem diff_common_prefix (old_dir new_dir : string) (w : fs) (p : Patch)
  (file : string) (pre a b : bytes) (k : nat) :
  diff old_dir new_dir w = Ok p ->
  at_path old_dir file w = Some (Reg (pre ++ a)) ->
  at_path new_dir file w = Some (Reg (pre ++ b)) ->
  length pre = k * BLOCK_SIZE ->
  exists ops, compare_files file a b = Some ops /\
              file_ops file (operations p) = map (shift_op k) ops.
Proof.
  intros D Ho Hn Hk.
  pose proof (diff_file_ops _ _ _ _ D Ho Hn) as C.
  rewrite (@compare_files_prefix file pre a b k Hk) in C.
  destruct (compare_files file a b) as [ops|]; [|discriminate].
  exists ops. split; [reflexivity|]. now inversion C.
Qed.

Lemma diff_common_prefix_witness :
  exists ops,
    compare_files "a" (B "BBBBBBBBCCCCCCCC")
      (B "XXXXXXXXBBBBBBBBYYYYYYYYZZ") = Some ops /\
    file_ops "a" (operations patch_mixed) = map (shift_op 1) ops.
Proof.
  apply (@diff_common_prefix "old" "new" fs_mixed patch_mixed "a"
           (B "AAAAAAAA") (B "BBBBBBBBCCCCCCCC")
           (B "XXXXXXXXBBBBBBBBYYYYYYYYZZ") 1 diff_mixed).
  - reflexivity.
  - reflexivity.
  - reflexivity.
Defined.


(** * The calls of a run, one by one *)

Lemma write_file_trace s name b w w' :
  write_file s name b w = Done tt w' ->
  w_trace w' = w_trace w ++ [EWrite s name b] /\
  (forall r, r <> s -> lookup r (w_fs w') = lookup r (w_fs w)).
Proof.
  unfold write_file, emit.
  destruct (lookup s (w_fs w)) as [t|]; [|discriminate].
  destruct (lookup name t) as [n|].
  - destruct (write_through n b); [|discriminate].
    intros H; inversion H; subst. cbn [w_trace w_fs].
    split; [reflexivity|]. intros r Hr. now apply lookup_set_neq.
  - intros H; inversion H; subst. cbn [w_trace w_fs].
    split; [reflexivity|]. intros r Hr. now apply lookup_set_neq.
Qed.

Lemma apply_operation_trace old_dir s op w w' :
  apply_operation old_dir s op w = Done tt w' ->
  w_trace w' =
    w_trace w ++ (if writes op
                  then [EWrite s (target_path op)
                          (written old_dir (w_fs w) op)]
                  else []) /\
  (forall r, r <> s -> lookup r (w_fs w') = lookup r (w_fs w)).
Proof.
  unfold apply_operation, writes, written. intros H.
  destruct (op_type op) eqn:K.
  - now apply write_file_trace.
  - apply bind_done in H. destruct H as (d & w1 & R & H).
    apply read_range_done in R. destruct R as [-> (b & Ob & ->)].
    rewrite Ob. unfold op_output. rewrite K. now apply write_file_trace.
  - inversion H; subst. rewrite app_nil_r. auto.
  - inversion H; subst. rewrite app_nil_r. auto.
  - inversion H; subst. rewrite app_nil_r. auto.
Qed.

(** A completed operation loop has made one write per [DATA] and
    [BLOCK_RANGE] operation, in list order, and no other call. *)
Lemma apply_operations_trace old_dir s ops w w' :
  s <> old_dir ->
  for_each ops (apply_operation old_dir s) w = Done tt w' ->
  w_trace w' =
    w_trace w ++ map (fun op => EWrite s (target_path op)
                                  (written old_dir (w_fs w) op))
                   (filter writes ops).
Proof.
  intros Ns. revert w. induction ops as [|op ops IH]; intros w H.
  - inversion H; subst. cbn. now rewrite app_nil_r.
  - cbn [for_each] in H. apply bind_done in H.
    destruct H as ([] & w1 & H1 & H2).
    destruct (apply_operation_trace _ _ _ _ H1) as [T1 F1].
    rewrite (IH _ H2), T1. cbn [filter].
    rewrite (map_ext _ (fun op => EWrite s (target_path op)
                                    (written old_dir (w_fs w) op))).
    + destruct (writes op); cbn [map app];
        [now rewrite <- app_assoc|now rewrite app_nil_r].
    + intros o. f_equal. apply written_ext. apply F1. congruence.
Qed.

Lemma writes_to_map s file (X : Operation -> bytes) ops :
  writes_to s file
    (map (fun op => EWrite s (target_path op) (X op)) (filter writes ops))
  = map X (file_ops file ops).
Proof.
  unfold file_ops. induction ops as [|op ops IH]; [reflexivity|].
  cbn [filter]. destruct (writes op); cbn [andb map writes_to]; [|exact IH].
  rewrite String.eqb_refl. cbn [andb].
  destruct (String.eqb (target_path op) file); cbn [map]; now rewrite IH.
Qed.

(** One step of [delete_extra_files]: what it removes and what it
    records. *)
Lemma delete_extra_file_step new_dir file w w' :
  delete_extra_file new_dir file w = Done tt w' ->
  (forall name, name <> file ->
     at_path new_dir name (w_fs w') = at_path new_dir name (w_fs w)) /\
  w_trace w' =
    w_trace w ++
    (if isfile (at_path new_dir file (w_fs w))
        || islink (at_path new_dir file (w_fs w))
     then [ERemove new_dir file]
     else if isdir (at_path new_dir file (w_fs w))
          then [ERmdir new_dir file] else []).
Proof.
  unfold delete_extra_file, emit, at_path.
  destruct (lookup new_dir (w_fs w)) as [t|] eqn:L.
  2: { intros H; inversion H; subst. rewrite L. cbn. rewrite app_nil_r. auto. }
  assert (R : forall name, name <> file ->
            match lookup new_dir (set_entry new_dir (remove_entry file t)
                                    (w_fs w)) with
            | Some t0 => lookup name t0
            | None => None
            end = lookup name t).
  { intros name Hn. rewrite lookup_set_eq. now apply lookup_remove_neq. }
  destruct (isfile (lookup file t) || islink (lookup file t)).
  - intros H; inversion H; subst. cbn [w_fs w_trace]. auto.
  - destruct (isdir (lookup file t)).
    + destruct (lookup file t) as [[|[|]| | |]|]; try discriminate.
      intros H; inversion H; subst. cbn [w_fs w_trace]. auto.
    + intros H; inversion H; subst. rewrite L, app_nil_r. auto.
Qed.

Lemma delete_extra_file_raised new_dir file w e w' :
  delete_extra_file new_dir file w = Raised e w' -> w' = w.
Proof.
  unfold delete_extra_file, emit.
  destruct (lookup new_dir (w_fs w)); [|discriminate].
  destruct (isfile _ || islink _); [discriminate|].
  destruct (isdir _); [|discriminate].
  destruct (at_path new_dir file (w_fs w)) as [[|[|]| | |]|];
    try discriminate; intros H; now inversion H.
Qed.

(** However [delete_extra_files] ends, it has left alone every name that
    is not in its list. *)
Lemma delete_extra_files_frame new_dir names name w :
  ~ In name names ->
  at_path new_dir name
    (w_fs (world_of (for_each names (delete_extra_file new_dir) w)))
  = at_path new_dir name (w_fs w).
Proof.
  revert w. induction names as [|file names IH]; intros w N; [reflexivity|].
  cbn [for_each]. unfold bind.
  destruct (delete_extra_file new_dir file w) as [[] w1|e w1] eqn:H.
  - rewrite IH by (intros I; apply N; now right).
    apply (delete_extra_file_step _ _ _ H). intros E. apply N. now left.
  - apply delete_extra_file_raised in H. now subst.
Qed.

(** A completed [delete_extra_files] has removed every name of its list
    that was there: a file or a link by [os.remove], a directory by
    [os.rmdir]. *)
Lemma delete_extra_files_events new_dir names w w' :
  for_each names (delete_extra_file new_dir) w = Done tt w' ->
  exists dels,
    w_trace w' = w_trace w ++ dels /\
    forall name, In name names ->
      (isfile (at_path new_dir name (w_fs w))
       || islink (at_path new_dir name (w_fs w)) = true ->
       In (ERemove new_dir name) dels) /\
      (isfile (at_path new_dir name (w_fs w))
       || islink (at_path new_dir name (w_fs w)) = false ->
       isdir (at_path new_dir name (w_fs w)) = true ->
       In (ERmdir new_dir name) dels).
Proof.
  revert w. induction names as [|file names IH]; intros w H.
  - inversion H; subst. exists []. rewrite app_nil_r.
    split; [reflexivity|]. intros name [].
  - cbn [for_each] in H. apply bind_done in H.
    destruct H as ([] & w1 & H1 & H2).
    destruct (delete_extra_file_step _ _ _ H1) as [F1 T1].
    destruct (IH _ H2) as (dels & T2 & E2).
    eexists. split; [rewrite T2, T1, <- app_assoc; reflexivity|].
    intros name I. destruct (string_dec name file) as [->|Ne].
    + split.
      * intros K. rewrite K. now left.
      * intros K D. rewrite K, D. now left.
    + destruct I as [I|I]; [congruence|].
      destruct (E2 name I) as [A C]. rewrite F1 in A, C by assumption.
      split; intros; apply in_or_app; right; auto.
Qed.

(** ** C10: the order of finalization *)



(** ** C9: what the applier acts on *)

(** A [DATA] or [BLOCK_RANGE] operation whose target is not yet in the
    staging directory creates it there, as a regular file with the output
    of the operation. *)
Lemma apply_operation_writes old_dir s op w t :
  writes op = true ->
  lookup s (w_fs w) = Some t ->
  lookup (target_path op) t = None ->
  (op_type op = BLOCK_RANGE ->
   (exists b, open_read (at_path old_dir (target_path op) (w_fs w)) = Ok b)
   /\ portable (block_index op * Z.of_nat BLOCK_SIZE)
   /\ portable (block_span op * Z.of_nat BLOCK_SIZE)) ->
  exists w',
    apply_operation old_dir s op w = Done tt w' /\
    at_path s (target_path op) (w_fs w')
    = Some (Reg (written old_dir (w_fs w) op)) /\
    w_trace w' = w_trace w ++ [EWrite s (target_path op)
                                 (written old_dir (w_fs w) op)].
Proof.
  intros W L Lt R.
  assert (Wr : forall b,
            exists w',
              write_file s (target_path op) b w = Done tt w' /\
              at_path s (target_path op) (w_fs w') = Some (Reg b) /\
              w_trace w' = w_trace w ++ [EWrite s (target_path op) b]).
  { intros b. unfold write_file, emit. rewrite L, Lt. eexists.
    split; [reflexivity|]. split; [|reflexivity].
    unfold at_path. cbn [w_fs]. rewrite lookup_set_eq, lookup_app, Lt.
    cbn [lookup]. now rewrite String.eqb_refl. }
  unfold apply_operation, written. unfold writes in W.
  destruct (op_type op) eqn:K; try discriminate.
  - apply Wr.
  - destruct (R eq_refl) as ([b Ob] & Hi & Hs).
    unfold bind, read_range. rewrite Ob.
    rewrite (portable_fits Hi), (portable_fits Hs). cbn [negb].
    destruct Hi as [Hi _]. destruct Hs as [Hs _].
    destruct (Z.ltb_spec (block_index op * Z.of_nat BLOCK_SIZE) 0) as [C|_];
      [lia|].
    destruct (Z.ltb_spec (block_span op * Z.of_nat BLOCK_SIZE) 0) as [C|_];
      [lia|].
    unfold op_output. rewrite K. apply Wr.
Qed.



(** ** C4: do the operations of a path rebuild the new file? *)


Lemma written_output old_dir f told file c op :
  lookup old_dir f = Some told -> lookup file told = Some (Reg c) ->
  target_path op = file ->
  written old_dir f op = op_output c op.
Proof.
  intros Lo Lf Tp. unfold written, op_output, at_path.
  rewrite Tp, Lo, Lf. cbn [open_read resolve].
  destruct (op_type op); reflexivity.
Qed.


